(** * circular_buffer.h: a ring-buffer deque, embedded and verified

    The C++ header [circular_buffer.h] implements a double-ended,
    random-access container over one raw block of storage that is used as a
    ring.  This file embeds the container in Rocq and proves properties of
    the embedding.

    - [size_t] values are integers in [0, 2^64); every arithmetic operation
      of the source is written with its wrap-around ([wrap]), and [%] is a
      partial operation (a zero modulus is undefined behaviour).
    - Raw storage is a heap of blocks; a block is a list of slots, a slot is
      either unconstructed ([None]) or holds a live element ([Some v]).
    - A member function is a computation over the object [this] and the
      heap, with five possible outcomes: normal return, a C++ exception,
      an abort (a failed [assert] or [std::terminate]), undefined behaviour,
      or a loop that used up the iteration budget of the model.
    - A [T const&] parameter is a reference, not a value: it designates an
      object of the caller or a slot of a block, and is read where the
      source reads it. *)

From Stdlib Require Import ZArith Lia Bool List.
From stdpp Require Import base tactics option list gmap fin_maps.

Local Open Scope Z_scope.

(** ** [size_t] arithmetic *)

Definition SIZE_BITS : Z := 64.
Definition SIZE_MOD : Z := 2 ^ SIZE_BITS.
Definition PTRDIFF_MAX : Z := 2 ^ (SIZE_BITS - 1) - 1.

Definition wrap (z : Z) : Z := z mod SIZE_MOD.

Definition size_add (a b : Z) : Z := wrap (a + b).
Definition size_sub (a b : Z) : Z := wrap (a - b).
Definition size_mul (a b : Z) : Z := wrap (a * b).

(** [a % b] on [size_t]: undefined for [b = 0]. *)
Definition size_rem (a b : Z) : option Z :=
  if b =? 0 then None else Some (a mod b).

(** Conversion of a [size_t] result to [std::ptrdiff_t] (two's complement). *)
Definition to_ptrdiff (z : Z) : Z :=
  if z <=? PTRDIFF_MAX then z else z - SIZE_MOD.

(** ** Pointers to raw storage *)

Inductive ptr : Type :=
| nullptr
| Block (b : positive).

Global Instance ptr_eq_dec : EqDecision ptr.
Proof. solve_decision. Defined.

Definition ptr_eqb (p q : ptr) : bool := bool_decide (p = q).

(** ** Iterators

    [basic_iterator<S>] is the tuple [(ind, cap, data, ind_begin)].  The
    mutable and the read-only variant carry the same four fields, so one
    record serves for both. *)

Module basic_iterator.

Record t : Type := mk {
  ind : Z;
  cap : Z;
  data : ptr;
  ind_begin : Z
}.

(** [size_t get_pos() const { return (ind + cap - ind_begin) % cap; }] *)
Definition get_pos (a : t) : option Z :=
  size_rem (size_sub (size_add (ind a) (cap a)) (ind_begin a)) (cap a).

(** [operator++]: [ind = (ind + 1) % cap]. *)
Definition incr (a : t) : option t :=
  i ← size_rem (size_add (ind a) 1) (cap a);
  Some (mk i (cap a) (data a) (ind_begin a)).

(** [operator--]: [ind = (ind - 1 + cap) % cap]. *)
Definition decr (a : t) : option t :=
  i ← size_rem (size_add (size_sub (ind a) 1) (cap a)) (cap a);
  Some (mk i (cap a) (data a) (ind_begin a)).

(** [operator+(size_t ch)]: [(ind + ch) % cap]. *)
Definition plus (a : t) (ch : Z) : option t :=
  i ← size_rem (size_add (ind a) ch) (cap a);
  Some (mk i (cap a) (data a) (ind_begin a)).

(** [operator-(size_t ch)]: [(ind - ch + cap) % cap]. *)
Definition minus (a : t) (ch : Z) : option t :=
  i ← size_rem (size_add (size_sub (ind a) ch) (cap a)) (cap a);
  Some (mk i (cap a) (data a) (ind_begin a)).

(** [operator==]: [a.ind == b.ind && a.data == b.data]. *)
Definition eqb (a b : t) : bool :=
  (ind a =? ind b) && ptr_eqb (data a) (data b).

(** [operator!=]. *)
Definition neqb (a b : t) : bool := negb (eqb a b).

(** [operator<]: [a.get_pos() < b.get_pos()]. *)
Definition ltb (a b : t) : option bool :=
  pa ← get_pos a; pb ← get_pos b; Some (pa <? pb).

(** [operator<=]: [a < b || a == b]. *)
Definition leb (a b : t) : option bool :=
  l ← ltb a b; Some (l || eqb a b).

(** [operator>]: [!(a <= b)]. *)
Definition gtb (a b : t) : option bool :=
  l ← leb a b; Some (negb l).

(** [operator>=]: [!(a < b)]. *)
Definition geb (a b : t) : option bool :=
  l ← ltb a b; Some (negb l).

(** [difference_type operator-(a, b)]: [a.get_pos() - b.get_pos()],
    computed on [size_t] and converted to [ptrdiff_t]. *)
Definition diff (a b : t) : option Z :=
  pa ← get_pos a; pb ← get_pos b; Some (to_ptrdiff (size_sub pa pb)).

(** [logical_position(it) = (physical_index - begin_index + capacity) mod
    capacity], on the integers. *)
Definition logical_position (a : t) : Z :=
  (ind a - ind_begin a + cap a) mod cap a.

(** An iterator into an allocated ring: the capacity is positive and fits
    [ptrdiff_t], the index and the snapshot of [ind_begin] are below it. *)
Definition valid (a : t) : Prop :=
  0 < cap a <= PTRDIFF_MAX /\ 0 <= ind a < cap a /\ 0 <= ind_begin a < cap a.

(** [operator++] applied [n] times, as a traversal does. *)
Fixpoint advance (n : nat) (a : t) : option t :=
  match n with
  | O => Some a
  | S n' => a' ← incr a; advance n' a'
  end.

End basic_iterator.

Abbreviation iterator := basic_iterator.t.

(** ** Reverse iterators

    [rbegin()] and [rend()] return [std::reverse_iterator]s.  The adaptor
    of the standard library wraps an iterator [current]: [++r] is
    [--current], and two reverse iterators are equal when their [current]
    are. *)

Module reverse_iterator.

Record t : Type := mk {
  current : iterator
}.

(** [operator++]: [--current]. *)
Definition incr (r : t) : option t :=
  c ← basic_iterator.decr (current r);
  Some (mk c).

(** [operator==] and [operator!=]: those of [current]. *)
Definition eqb (r s : t) : bool := basic_iterator.eqb (current r) (current s).
Definition neqb (r s : t) : bool := negb (eqb r s).

(** [operator++] applied [n] times. *)
Fixpoint advance (n : nat) (r : t) : option t :=
  match n with
  | O => Some r
  | S n' => r' ← incr r; advance n' r'
  end.

End reverse_iterator.

(** ** The container object *)

Record circular_buffer : Type := mk_circular_buffer {
  sz : Z;
  cap : Z;
  data : ptr;
  ind_begin : Z;
  ind_end : Z
}.

Definition set_sz (v : Z) (c : circular_buffer) : circular_buffer :=
  mk_circular_buffer v (cap c) (data c) (ind_begin c) (ind_end c).
Definition set_cap (v : Z) (c : circular_buffer) : circular_buffer :=
  mk_circular_buffer (sz c) v (data c) (ind_begin c) (ind_end c).
Definition set_data (v : ptr) (c : circular_buffer) : circular_buffer :=
  mk_circular_buffer (sz c) (cap c) v (ind_begin c) (ind_end c).
Definition set_ind_begin (v : Z) (c : circular_buffer) : circular_buffer :=
  mk_circular_buffer (sz c) (cap c) (data c) v (ind_end c).
Definition set_ind_end (v : Z) (c : circular_buffer) : circular_buffer :=
  mk_circular_buffer (sz c) (cap c) (data c) (ind_begin c) v.

(** [circular_buffer()]: all fields zero, no storage. *)
Definition circular_buffer_ctor : circular_buffer :=
  mk_circular_buffer 0 0 nullptr 0 0.

(** [swap(oth)]: five [std::swap]s of scalar fields; the pair is
    [(this, oth)] afterwards. *)
Definition swap (this oth : circular_buffer) : circular_buffer * circular_buffer :=
  let '(this, oth) := (set_sz (sz oth) this, set_sz (sz this) oth) in
  let '(this, oth) := (set_cap (cap oth) this, set_cap (cap this) oth) in
  let '(this, oth) := (set_data (data oth) this, set_data (data this) oth) in
  let '(this, oth) := (set_ind_begin (ind_begin oth) this, set_ind_begin (ind_begin this) oth) in
  let '(this, oth) := (set_ind_end (ind_end oth) this, set_ind_end (ind_end this) oth) in
  (this, oth).

(** The free function [swap(a, b)] is [a.swap(b)]. *)
Definition free_swap (a b : circular_buffer) : circular_buffer * circular_buffer :=
  swap a b.

(** [begin()] and [end()]. *)
Definition begin_ (this : circular_buffer) : iterator :=
  basic_iterator.mk (ind_begin this) (cap this) (data this) (ind_begin this).
Definition end_ (this : circular_buffer) : iterator :=
  basic_iterator.mk (ind_end this) (cap this) (data this) (ind_begin this).

(** [rbegin()] is [std::reverse_iterator(end())], [rend()] is
    [std::reverse_iterator(begin())]. *)
Definition rbegin (this : circular_buffer) : reverse_iterator.t :=
  reverse_iterator.mk (end_ this).
Definition rend (this : circular_buffer) : reverse_iterator.t :=
  reverse_iterator.mk (begin_ this).

(** [size()] and [empty()]. *)
Definition size (this : circular_buffer) : Z := sz this.
Definition empty (this : circular_buffer) : bool := sz this =? 0.

(** ** Storage, outcomes and the method monad *)

(** Exceptions that can propagate out of a member function: [std::bad_alloc]
    from [operator new], and whatever the element type throws from a copy. *)
Inductive exn : Type :=
| bad_alloc
| copy_failure.

(** What the container needs from its element type: [sizeof_T] is
    [sizeof(T)], and [copy_ok v] tells whether copying the value [v] (by
    copy construction or by copy assignment) succeeds; a failing copy
    throws.  The first block the container ever requests has
    [4 * sizeof(T)] bytes; the element types covered are those for which
    this product is a [size_t]. *)
Class Element (T : Type) : Type := {
  sizeof_T : Z;
  copy_ok : T -> bool;
  sizeof_T_pos : 0 < sizeof_T;
  sizeof_T_bound : 4 * sizeof_T < SIZE_MOD
}.

(** The allocator behind [operator new]: [may_alloc n] tells whether it
    grants a request of [n] bytes. *)
Class Allocator : Type := {
  may_alloc : Z -> bool
}.

Section Container.

Context {T : Type} {elt : Element T} {alloc : Allocator}.

(** A block of raw storage is a list of slots.  [leaked] counts the elements
    whose lifetime was ended without running their destructor (their block
    was released, or another element was constructed over them). *)
Record heap : Type := mk_heap {
  blocks : gmap positive (list (option T));
  leaked : nat
}.

Inductive outcome (A : Type) : Type :=
| Return (a : A) (this : circular_buffer) (h : heap)
| Throw (e : exn) (this : circular_buffer) (h : heap)
| Abort
| Undefined
| OutOfFuel.
Arguments Return {A} a this h.
Arguments Throw {A} e this h.
Arguments Abort {A}.
Arguments Undefined {A}.
Arguments OutOfFuel {A}.

Definition M (A : Type) : Type := circular_buffer -> heap -> outcome A.

Definition M_ret_def {A} (a : A) : M A := fun this h => Return a this h.

Definition M_bind_def {A B} (f : A -> M B) (m : M A) : M B :=
  fun this h =>
    match m this h with
    | Return a this' h' => f a this' h'
    | Throw e this' h' => Throw e this' h'
    | Abort => Abort
    | Undefined => Undefined
    | OutOfFuel => OutOfFuel
    end.

Global Instance M_ret : MRet M := @M_ret_def.
Global Instance M_bind : MBind M := @M_bind_def.

Definition get_this : M circular_buffer := fun this h => Return this this h.
Definition modify_this (f : circular_buffer -> circular_buffer) : M unit :=
  fun this h => Return tt (f this) h.
Definition throw {A} (e : exn) : M A := fun this h => Throw e this h.
Definition undefined {A} : M A := fun _ _ => Undefined.
Definition out_of_fuel {A} : M A := fun _ _ => OutOfFuel.

(** [assert(b)], with assertions enabled. *)
Definition assert_ (b : bool) : M unit :=
  fun this h => if b then Return tt this h else Abort.

(** A partial operation of the source whose undefined case is undefined
    behaviour. *)
Definition ub {A} (o : option A) : M A :=
  fun this h => match o with Some a => Return a this h | None => Undefined end.

(** A loop with loop-carried variables [l]: [cond] is evaluated before each
    iteration.  [fuel] bounds the iterations of the model. *)
Fixpoint while_loop {L} (fuel : nat) (cond : L -> M bool) (body : L -> M L)
    (l : L) : M L :=
  c ← cond l;
  if c : bool then
    match fuel with
    | O => out_of_fuel
    | S fuel' => l' ← body l; while_loop fuel' cond body l'
    end
  else mret l.

(** *** Raw storage primitives *)

Definition count_live (slots : list (option T)) : nat :=
  length (filter is_Some slots).

Definition slot (p : ptr) (i : Z) (h : heap) : option (option T) :=
  match p with
  | nullptr => None
  | Block b => slots ← blocks h !! b; slots !! Z.to_nat i
  end.

Definition set_slot (p : ptr) (i : Z) (o : option T) (h : heap) : heap :=
  match p with
  | nullptr => h
  | Block b =>
      match blocks h !! b with
      | Some slots => mk_heap (<[b := <[Z.to_nat i := o]> slots]> (blocks h)) (leaked h)
      | None => h
      end
  end.

Definition add_leaked (n : nat) (h : heap) : heap :=
  mk_heap (blocks h) (leaked h + n)%nat.

(** [operator new(bytes)]: a block that is not live, with room for
    [bytes / sizeof(T)] elements, all unconstructed; [std::bad_alloc] when
    the request exceeds [PTRDIFF_MAX] or the allocator refuses it. *)
Definition operator_new (bytes : Z) : M ptr :=
  fun this h =>
    if (bytes <=? PTRDIFF_MAX) && may_alloc bytes then
      let b := fresh (dom (blocks h)) in
      Return (Block b) this
        (mk_heap (<[b := replicate (Z.to_nat (bytes / sizeof_T)) None]> (blocks h))
                 (leaked h))
    else Throw bad_alloc this h.

(** [operator delete(p)]: nothing for a null pointer; releasing a block
    that is not live is undefined.  Elements still constructed in the block
    are leaked. *)
Definition operator_delete (p : ptr) : M unit :=
  fun this h =>
    match p with
    | nullptr => Return tt this h
    | Block b =>
        match blocks h !! b with
        | Some slots =>
            Return tt this (mk_heap (delete b (blocks h)) (leaked h + count_live slots)%nat)
        | None => Undefined
        end
    end.

(** [new (p + i) T(v)]: copy-constructs [v] into slot [i] of [p]. *)
Definition construct_at (p : ptr) (i : Z) (v : T) : M unit :=
  fun this h =>
    match slot p i h with
    | None => Undefined
    | Some old =>
        if copy_ok v then
          match old with
          | None => Return tt this (set_slot p i (Some v) h)
          | Some _ => Return tt this (add_leaked 1 (set_slot p i (Some v) h))
          end
        else Throw copy_failure this h
    end.

(** [p[i].~T()]. *)
Definition destroy_at (p : ptr) (i : Z) : M unit :=
  fun this h =>
    match slot p i h with
    | Some (Some _) => Return tt this (set_slot p i None h)
    | _ => Undefined
    end.

(** Reading the element [p[i]]. *)
Definition read (p : ptr) (i : Z) : M T :=
  fun this h =>
    match slot p i h with
    | Some (Some v) => Return v this h
    | _ => Undefined
    end.

(** [p[i] = v]: copy assignment to a live element. *)
Definition assign (p : ptr) (i : Z) (v : T) : M unit :=
  fun this h =>
    match slot p i h with
    | Some (Some _) =>
        if copy_ok v then Return tt this (set_slot p i (Some v) h)
        else Throw copy_failure this h
    | _ => Undefined
    end.

(** [T tmp = v]: a local copy. *)
Definition copy_T (v : T) : M T :=
  fun this h => if copy_ok v then Return v this h else Throw copy_failure this h.

(** *** References to elements

    A [T const&] parameter refers to an object that the callee reads when
    it copies it.  The object is either outside the blocks of the heap (a
    temporary or a variable of the caller, which no call on the container
    touches), or the element in slot [i] of the block [p]. *)
Inductive const_ref : Type :=
| outside (v : T)
| element_at (p : ptr) (i : Z).

(** The value a reference designates in the heap [h], when the object it
    refers to is alive there. *)
Definition resolve (value : const_ref) (h : heap) : option T :=
  match value with
  | outside v => Some v
  | element_at p i =>
      match slot p i h with
      | Some (Some v) => Some v
      | _ => None
      end
  end.

(** Reading through a reference.  Reading an element whose lifetime has
    ended, or whose block was released, is undefined. *)
Definition read_ref (value : const_ref) : M T :=
  match value with
  | outside v => mret v
  | element_at p i => read p i
  end.

(** [new (p + i) T(value)]: the copy constructor reads its argument through
    the reference. *)
Definition construct_from (p : ptr) (i : Z) (value : const_ref) : M unit :=
  v ← read_ref value;
  construct_at p i v.

(** ** Member functions *)

(** [T& back() const]. *)
Definition back : M T :=
  this ← get_this;
  assert_ (0 <? sz this);;
  i ← ub (size_rem (size_add (size_sub (ind_end this) 1) (cap this)) (cap this));
  read (data this) i.

(** [T& front() const]. *)
Definition front : M T :=
  this ← get_this;
  assert_ (0 <? sz this);;
  read (data this) (ind_begin this).

(** [T& operator[](size_t ind) const]. *)
Definition operator_idx (ind : Z) : M T :=
  this ← get_this;
  assert_ (ind <? sz this);;
  i ← ub (size_rem (size_add (ind_begin this) ind) (cap this));
  read (data this) i.

(** [operator[]] where its result is passed on as a reference and not read
    at once, as in [push_back(oth[i])]: the reference
    [data[(ind_begin + ind) % cap]]. *)
Definition operator_idx_ref (ind : Z) : M const_ref :=
  this ← get_this;
  assert_ (ind <? sz this);;
  i ← ub (size_rem (size_add (ind_begin this) ind) (cap this));
  mret (element_at (data this) i).

(** [void pop_back()]. *)
Definition pop_back : M unit :=
  this ← get_this;
  assert_ (0 <? sz this);;
  modify_this (set_sz (size_sub (sz this) 1));;
  e ← ub (size_rem (size_add (size_sub (ind_end this) 1) (cap this)) (cap this));
  modify_this (set_ind_end e);;
  destroy_at (data this) e.

(** [void pop_front()]. *)
Definition pop_front : M unit :=
  this ← get_this;
  assert_ (0 <? sz this);;
  modify_this (set_sz (size_sub (sz this) 1));;
  destroy_at (data this) (ind_begin this);;
  b ← ub (size_rem (size_add (ind_begin this) 1) (cap this));
  modify_this (set_ind_begin b).

(** [void clear()]: [while (sz > 0) pop_back();], then the block is released
    and every field reset. *)
Definition clear : M unit :=
  this ← get_this;
  while_loop (Z.to_nat (sz this))
    (fun _ => this ← get_this; mret (0 <? sz this))
    (fun _ => pop_back) tt;;
  this ← get_this;
  operator_delete (data this);;
  modify_this (fun _ => circular_buffer_ctor).

(** [~circular_buffer()]. *)
Definition destructor : M unit := clear.

(** Leaving the scope of a local container [tmp]: the computation [o] ran
    with [tmp] as its object; [tmp] is destroyed, also when [o] ends with an
    exception, and execution goes on (or unwinds further) in [this].  An
    exception leaving a destructor calls [std::terminate]. *)
Definition leave_scope {A} (this : circular_buffer) (o : outcome A) : outcome A :=
  match o with
  | Return a tmp h =>
      match destructor tmp h with
      | Return _ _ h' => Return a this h'
      | Throw _ _ _ => Abort
      | Abort => Abort
      | Undefined => Undefined
      | OutOfFuel => OutOfFuel
      end
  | Throw e tmp h =>
      match destructor tmp h with
      | Return _ _ h' => Throw e this h'
      | Throw _ _ _ => Abort
      | Abort => Abort
      | Undefined => Undefined
      | OutOfFuel => OutOfFuel
      end
  | Abort => Abort
  | Undefined => Undefined
  | OutOfFuel => OutOfFuel
  end.

(** The loop of [reserve], run with [tmp] as the object; [src] is [*this]:
    [for (i = 0; i < sz; i++) {
       new (tmp.data + tmp.ind_end) T(data[(ind_begin + i) % cap]);
       tmp.ind_end++; tmp.sz++; }] *)
Definition reserve_loop (src : circular_buffer) : M Z :=
  while_loop (Z.to_nat (sz src))
    (fun i => mret (i <? sz src))
    (fun i =>
       tmp ← get_this;
       j ← ub (size_rem (size_add (ind_begin src) i) (cap src));
       v ← read (data src) j;
       construct_at (data tmp) (ind_end tmp) v;;
       modify_this (fun tmp => set_ind_end (size_add (ind_end tmp) 1) tmp);;
       modify_this (fun tmp => set_sz (size_add (sz tmp) 1) tmp);;
       mret (size_add i 1))
    0.

(** [void reserve(size_t n)]. *)
Definition reserve (n : Z) : M unit :=
  fun this h =>
    if sz this >=? n then Return tt this h
    else
      let tmp := set_cap n circular_buffer_ctor in
      let build : M circular_buffer :=
        p ← operator_new (size_mul n (sizeof_T));
        modify_this (set_data p);;
        reserve_loop this;;
        (* swap(tmp): the local object now holds the old state *)
        tmp ← get_this;
        let '(this', tmp') := swap this tmp in
        modify_this (fun _ => tmp');;
        mret this' in
      match leave_scope this (build tmp h) with
      | Return this' _ h' => Return tt this' h'
      | Throw e this h' => Throw e this h'
      | Abort => Abort
      | Undefined => Undefined
      | OutOfFuel => OutOfFuel
      end.

(** [void push_back(T const& value)]. *)
Definition push_back (value : const_ref) : M unit :=
  this ← get_this;
  (if empty this then reserve 4
   else if sz this =? size_sub (cap this) 1 then reserve (size_mul (cap this) 2)
   else mret tt);;
  this ← get_this;
  construct_from (data this) (ind_end this) value;;
  e ← ub (size_rem (size_add (ind_end this) 1) (cap this));
  modify_this (set_ind_end e);;
  modify_this (fun this => set_sz (size_add (sz this) 1) this).

(** [void push_front(const T &value)]. *)
Definition push_front (value : const_ref) : M unit :=
  this ← get_this;
  (if empty this then reserve 4
   else if sz this =? size_sub (cap this) 1 then reserve (size_mul (sz this) 2)
   else mret tt);;
  this ← get_this;
  b ← ub (size_rem (size_add (size_sub (ind_begin this) 1) (cap this)) (cap this));
  construct_from (data this) b value;;
  modify_this (set_ind_begin b);;
  modify_this (fun this => set_sz (size_add (sz this) 1) this).

(** A [const] member function called on another object [obj]. *)
Definition on_const {A} (obj : circular_buffer) (m : M A) : M A :=
  fun this h =>
    match m obj h with
    | Return a _ h' => Return a this h'
    | Throw e _ h' => Throw e this h'
    | Abort => Abort
    | Undefined => Undefined
    | OutOfFuel => OutOfFuel
    end.

(** [circular_buffer(circular_buffer const& oth) : circular_buffer()]: the
    object under construction starts as [circular_buffer()], whatever the
    raw memory [this] held.  The constructor delegates, so the object counts
    as constructed when the body runs, and an exception leaving the body
    runs its destructor.  [push_back(oth[i])] receives the reference that
    [oth[i]] returns. *)
Definition copy_ctor (oth : circular_buffer) : M unit :=
  fun _ h =>
    let body : M Z :=
      while_loop (Z.to_nat (size oth))
        (fun i => mret (i <? size oth))
        (fun i =>
           value ← on_const oth (operator_idx_ref i);
           push_back value;;
           mret (size_add i 1))
        0 in
    match body circular_buffer_ctor h with
    | Return _ this h' => Return tt this h'
    | Throw e this h' =>
        match destructor this h' with
        | Return _ this' h'' => Throw e this' h''
        | Throw _ _ _ => Abort
        | Abort => Abort
        | Undefined => Undefined
        | OutOfFuel => OutOfFuel
        end
    | Abort => Abort
    | Undefined => Undefined
    | OutOfFuel => OutOfFuel
    end.

(** [operator=(circular_buffer const& oth)]:
    [circular_buffer tmp(oth); swap(tmp); return *this;] *)
Definition copy_assign (oth : circular_buffer) : M unit :=
  fun this h =>
    match copy_ctor oth circular_buffer_ctor h with
    | Return _ tmp h1 =>
        let '(this', tmp') := swap this tmp in
        leave_scope this' (Return tt tmp' h1)
    | Throw e _ h1 => Throw e this h1
    | Abort => Abort
    | Undefined => Undefined
    | OutOfFuel => OutOfFuel
    end.

(** [*it]. *)
Definition deref (it : iterator) : M T :=
  read (basic_iterator.data it) (basic_iterator.ind it).

(** [*r] for a reverse iterator: [Iterator tmp = current; return *--tmp;] *)
Definition rderef (r : reverse_iterator.t) : M T :=
  tmp ← ub (basic_iterator.decr (reverse_iterator.current r));
  deref tmp.

(** The exchange inside the loops of [insert] and [erase]:
    [auto tmp = *it1; *it1 = *it2; *it2 = tmp;] *)
Definition exchange (it1 it2 : iterator) : M unit :=
  x ← deref it1;
  tmp ← copy_T x;
  y ← deref it2;
  assign (basic_iterator.data it1) (basic_iterator.ind it1) y;;
  assign (basic_iterator.data it2) (basic_iterator.ind it2) tmp.

(** [iterator insert(const_iterator pos, T const& value)]. *)
Definition insert (pos : iterator) (value : const_ref) : M iterator :=
  this ← get_this;
  if basic_iterator.eqb pos (begin_ this) then
    push_front value;;
    this ← get_this;
    mret (begin_ this)
  else if basic_iterator.eqb pos (end_ this) then
    push_back value;;
    this ← get_this;
    ub (basic_iterator.decr (end_ this))
  else
    p ← ub (basic_iterator.get_pos pos);
    if p <=? sz this / 2 then
      push_front value;;
      this ← get_this;
      let it1 := begin_ this in
      it2 ← ub (basic_iterator.incr (begin_ this));
      '(it1, it2) ← while_loop (Z.to_nat (cap this))
        (fun '(it1, it2) => mret (basic_iterator.neqb it2 pos))
        (fun '(it1, it2) =>
           exchange it1 it2;;
           it1 ← ub (basic_iterator.incr it1);
           it2 ← ub (basic_iterator.incr it2);
           mret (it1, it2))
        (it1, it2);
      mret it1
    else
      push_back value;;
      this ← get_this;
      e1 ← ub (basic_iterator.decr (end_ this));
      it1 ← ub (basic_iterator.decr e1);
      it2 ← ub (basic_iterator.decr (end_ this));
      '(it1, it2) ← while_loop (Z.to_nat (cap this))
        (fun '(it1, it2) => mret (basic_iterator.neqb it2 pos))
        (fun '(it1, it2) =>
           exchange it1 it2;;
           it1 ← ub (basic_iterator.decr it1);
           it2 ← ub (basic_iterator.decr it2);
           mret (it1, it2))
        (it1, it2);
      mret it2.

(** [iterator erase(const_iterator pos)]. *)
Definition erase (pos : iterator) : M iterator :=
  this ← get_this;
  p ← ub (basic_iterator.get_pos pos);
  assert_ (p <? sz this);;
  if basic_iterator.eqb pos (begin_ this) then
    pop_front;;
    this ← get_this;
    mret (begin_ this)
  else
    last ← ub (basic_iterator.decr (end_ this));
    if basic_iterator.eqb pos last then
      pop_back;;
      this ← get_this;
      ub (basic_iterator.decr (end_ this))
    else
      ind_pos_relative ← ub (basic_iterator.get_pos pos);
      ind_pos_mem ← ub (size_rem (size_add ind_pos_relative (ind_begin this)) (cap this));
      if ind_pos_relative <=? sz this / 2 then
        let it2 := basic_iterator.mk ind_pos_mem (cap this) (data this) (ind_begin this) in
        while_loop (Z.to_nat (cap this))
          (fun it2 => mret (basic_iterator.neqb it2 (begin_ this)))
          (fun it2 =>
             it1 ← ub (basic_iterator.minus it2 1);
             exchange it1 it2;;
             ub (basic_iterator.decr it2))
          it2;;
        pop_front;;
        this' ← get_this;
        ub (basic_iterator.plus
              (basic_iterator.mk ind_pos_mem (cap this') (data this') (ind_begin this')) 1)
      else
        let it1 := basic_iterator.mk ind_pos_mem (cap this) (data this) (ind_begin this) in
        it2 ← ub (basic_iterator.plus it1 1);
        while_loop (Z.to_nat (cap this))
          (fun '(it1, it2) => mret (basic_iterator.neqb it2 (end_ this)))
          (fun '(it1, it2) =>
             exchange it1 it2;;
             it1 ← ub (basic_iterator.incr it1);
             it2 ← ub (basic_iterator.incr it2);
             mret (it1, it2))
          (it1, it2);;
        pop_back;;
        this' ← get_this;
        mret (basic_iterator.mk ind_pos_mem (cap this') (data this') (ind_begin this')).


(** ** Abstraction: the sequence a container holds *)

(** [physical_slot(i) = (begin_index + i) mod capacity]. *)
Definition physical_slot (this : circular_buffer) (i : Z) : Z :=
  (ind_begin this + i) mod cap this.

(** [logical_position(j) = (j - begin_index + capacity) mod capacity]. *)
Definition logical_position (this : circular_buffer) (j : Z) : Z :=
  (j - ind_begin this + cap this) mod cap this.

(** The iterator of [this] at logical position [k]. *)
Definition iter_at (this : circular_buffer) (k : Z) : iterator :=
  basic_iterator.mk (physical_slot this k) (cap this) (data this) (ind_begin this).

(** An allocated container [this] that owns block [b] with slots [slots]
    and holds the sequence [l]: the slot of logical index [i] holds the
    [i]-th element of [l] for [i < length l] and is unconstructed for every
    other [i] below the capacity. *)
Record allocated (this : circular_buffer) (h : heap) (l : list T)
    (b : positive) (slots : list (option T)) : Prop := {
  al_data : data this = Block b;
  al_block : blocks h !! b = Some slots;
  al_length : Z.of_nat (length slots) = cap this;
  al_cap_min : 4 <= cap this;
  al_cap_max : cap this * sizeof_T <= PTRDIFF_MAX;
  al_sz : sz this = Z.of_nat (length l);
  al_room : sz this < cap this;
  al_begin : 0 <= ind_begin this < cap this;
  al_end : ind_end this = physical_slot this (sz this);
  al_slots : forall i : nat, Z.of_nat i < cap this ->
    slots !! Z.to_nat (physical_slot this (Z.of_nat i)) = Some (l !! i)
}.

(** [this] represents the sequence [l] in the heap [h]: it is either the
    default-constructed object, or an allocated one. *)
Definition repr (this : circular_buffer) (h : heap) (l : list T) : Prop :=
  (this = circular_buffer_ctor /\ l = []) \/
  exists b slots, allocated this h l b slots.

(** A block of [n] slots whose first slots hold the elements of [l], the
    others unconstructed: the layout [reserve] builds. *)
Definition block_of (l : list T) (n : nat) : list (option T) :=
  (Some <$> l) ++ replicate (n - length l) None.

(** The object [reserve(n)] builds in block [b] for the sequence [l]. *)
Definition reserved (l : list T) (n : Z) (b : positive) : circular_buffer :=
  mk_circular_buffer (Z.of_nat (length l)) n (Block b) 0 (Z.of_nat (length l)).

(** The heap once the block behind [p] is gone. *)
Definition release (p : ptr) (h : heap) : heap :=
  match p with
  | nullptr => h
  | Block b => mk_heap (delete b (blocks h)) (leaked h)
  end.

(** The heap [reserve(n)] leaves: a new block holds the sequence [l], the
    block that [this] owned is gone. *)
Definition reserved_heap (this : circular_buffer) (h : heap) (l : list T)
    (n : Z) : heap :=
  release (data this)
    (mk_heap (<[fresh (dom (blocks h)) := block_of l (Z.to_nat n)]> (blocks h))
             (leaked h)).

(** Whether [operator new] grants a block for [n] elements. *)
Definition grants (n : Z) : bool :=
  (n * sizeof_T <=? PTRDIFF_MAX) && may_alloc (n * sizeof_T).

(** The capacity a push reserves before it places its element, if any:
    [4] on an empty container, [full] when one free slot is left. *)
Definition growth (full : Z) (this : circular_buffer) : option Z :=
  if empty this then Some 4
  else if sz this =? cap this - 1 then Some full
  else None.

(** The capacity after a successful growth step. *)
Definition grown_cap (full : Z) (this : circular_buffer) : Z :=
  match growth full this with Some n => n | None => cap this end.

(** The outcome of the growth step of a push on a container that holds
    [l]: nothing to do, a successful [reserve], or its failure. *)
Definition grow_result (full : Z) (this : circular_buffer) (h : heap)
    (l : list T) : outcome unit :=
  match growth full this with
  | None => Return tt this h
  | Some n =>
      if grants n then
        if forallb copy_ok l
        then Return tt (reserved l n (fresh (dom (blocks h)))) (reserved_heap this h l n)
        else Throw copy_failure this h
      else Throw bad_alloc this h
  end.

(** The object after [push_back] placed its element: [ind_end] one step
    further, [sz] one more. *)
Definition placed_back (this : circular_buffer) : circular_buffer :=
  set_sz (sz this + 1) (set_ind_end (physical_slot this (sz this + 1)) this).

(** The object after [push_front] placed its element: [ind_begin] one step
    back, [sz] one more. *)
Definition placed_front (this : circular_buffer) : circular_buffer :=
  set_sz (sz this + 1) (set_ind_begin ((ind_begin this - 1) mod cap this) this).

(** What [push_back(v)] does to a container that holds [l]. *)
Definition push_back_result (v : T) (this : circular_buffer) (h : heap)
    (l : list T) : outcome unit :=
  match grow_result (2 * cap this) this h l with
  | Return _ this1 h1 =>
      if copy_ok v
      then Return tt (placed_back this1) (set_slot (data this1) (ind_end this1) (Some v) h1)
      else Throw copy_failure this1 h1
  | o => o
  end.

(** What [push_front(v)] does to a container that holds [l]. *)
Definition push_front_result (v : T) (this : circular_buffer) (h : heap)
    (l : list T) : outcome unit :=
  match grow_result (2 * sz this) this h l with
  | Return _ this1 h1 =>
      if copy_ok v
      then Return tt (placed_front this1)
             (set_slot (data this1) ((ind_begin this1 - 1) mod cap this1) (Some v) h1)
      else Throw copy_failure this1 h1
  | o => o
  end.

(** What [push_back(value)] and [push_front(value)] do with a reference:
    the object behind it is read after the growth step, in the heap that
    step has left. *)
Definition push_back_outcome (value : const_ref) (this : circular_buffer) (h : heap)
    (l : list T) : outcome unit :=
  match grow_result (2 * cap this) this h l with
  | Return _ this1 h1 =>
      match resolve value h1 with
      | Some v =>
          if copy_ok v
          then Return tt (placed_back this1)
                 (set_slot (data this1) (ind_end this1) (Some v) h1)
          else Throw copy_failure this1 h1
      | None => Undefined
      end
  | o => o
  end.

Definition push_front_outcome (value : const_ref) (this : circular_buffer) (h : heap)
    (l : list T) : outcome unit :=
  match grow_result (2 * sz this) this h l with
  | Return _ this1 h1 =>
      match resolve value h1 with
      | Some v =>
          if copy_ok v
          then Return tt (placed_front this1)
                 (set_slot (data this1) ((ind_begin this1 - 1) mod cap this1) (Some v) h1)
          else Throw copy_failure this1 h1
      | None => Undefined
      end
  | o => o
  end.

(** The states of the container that its own operations produce. *)
Definition wf (this : circular_buffer) (h : heap) : Prop :=
  exists l, repr this h l.

(** Invariant 1 of the data model. *)
Definition invariant_1 (this : circular_buffer) : Prop :=
  (0 < cap this -> 0 <= sz this < cap this) /\
  (cap this = 0 -> sz this = 0 /\ data this = nullptr) /\
  0 <= cap this.

(** Blocks other than the one [this] owns are the same in [h] and [h']. *)
Definition frame (this : circular_buffer) (h h' : heap) : Prop :=
  forall b, data this <> Block b -> is_Some (blocks h !! b) ->
    blocks h' !! b = blocks h !! b.

(** A member function took the container from [this] in [h] to [this'] in
    [h'], where it holds [l']: nothing leaked, the blocks of other owners are
    untouched, and the block it owns now is the old one or one that was not
    live before. *)
Record transition (this : circular_buffer) (h : heap)
    (this' : circular_buffer) (h' : heap) (l' : list T) : Prop := {
  tr_repr : repr this' h' l';
  tr_leaked : leaked h' = leaked h;
  tr_frame : frame this h h';
  tr_owner : data this' = data this \/ data this' = nullptr \/
             exists b, data this' = Block b /\ blocks h !! b = None
}.

(** Two containers that do not share a block. *)
Definition separate (this oth : circular_buffer) : Prop :=
  data this = nullptr \/ data this <> data oth.

(** Which slots of which blocks are constructed. *)
Definition constructed (o : option T) : bool :=
  match o with Some _ => true | None => false end.

Definition shape (h : heap) : gmap positive (list bool) :=
  (fun slots : list (option T) => constructed <$> slots) <$> blocks h.

(** Two heaps that differ at most in the values of live elements. *)
Definition same_shape (h h' : heap) : Prop :=
  shape h' = shape h /\ leaked h' = leaked h.

(** A computation that leaves the object as it is and changes at most the
    values of live elements, whether it returns or throws, and that fails
    no assertion. *)
Definition quiet {A} (m : M A) : Prop :=
  forall this h,
    match m this h with
    | Return _ this' h' | Throw _ this' h' => this' = this /\ same_shape h h'
    | Abort => False
    | Undefined | OutOfFuel => True
    end.

(** [P] holds in the state an operation leaves, when it leaves one. *)
Definition after {A} (P : circular_buffer -> heap -> Prop) (o : outcome A) : Prop :=
  match o with
  | Return _ this h | Throw _ this h => P this h
  | _ => True
  end.

(** The operation came to an end, by returning or by throwing. *)
Definition completes {A} (o : outcome A) : Prop :=
  match o with
  | Return _ _ _ | Throw _ _ _ => True
  | _ => False
  end.

(** The state an operation leaves is well formed and satisfies
    invariant 1. *)
Definition keeps_invariant_1 {A} (o : outcome A) : Prop :=
  after (fun this h => wf this h /\ invariant_1 this) o.

(** An operation that leaves the capacity as it is. *)
Definition capacity_kept {A} (this : circular_buffer) (o : outcome A) : Prop :=
  after (fun this' _ => cap this' = cap this) o.

(** What a push does to the capacity: on a non-empty container it never
    decreases; a push that returns on an empty container leaves capacity 4,
    whatever it was. *)
Definition capacity_after_push {A} (this : circular_buffer) (o : outcome A) : Prop :=
  match o with
  | Return _ this' _ =>
      (sz this = 0 -> cap this' = 4) /\ (0 < sz this -> cap this <= cap this')
  | Throw _ this' _ =>
      (sz this = 0 -> cap this' = 4 \/ cap this' = cap this) /\
      (0 < sz this -> cap this <= cap this')
  | _ => True
  end.

(** The state [(this1, h1)] in which a push places its element: the one
    [reserve(n)] returned when the push requests [n], the state the push
    started in when it requests nothing. *)
Definition reserved_by (request : option Z) (this : circular_buffer) (h : heap)
    (this1 : circular_buffer) (h1 : heap) : Prop :=
  match request with
  | Some n => reserve n this h = Return tt this1 h1
  | None => this1 = this /\ h1 = h
  end.

(** The growth step of a push on a container that holds [l] fails: the
    allocator refuses the block, or the copy of an element throws. *)
Definition growth_fails (full : Z) (this : circular_buffer) (l : list T) : bool :=
  match growth full this with
  | Some n => negb (grants n && forallb copy_ok l)
  | None => false
  end.

(** The exception a failing growth to [n] elements propagates. *)
Definition growth_exn (n : Z) : exn :=
  if grants n then copy_failure else bad_alloc.

(** The object a reference designates does not lie in the block [p]. *)
Definition apart (value : const_ref) (p : ptr) : Prop :=
  match value with
  | outside _ => True
  | element_at q _ => q <> p
  end.

(** The object a reference designates stays where it is through the growth
    step of a push that asks for [full] elements when the container is
    full: the push does not reallocate, or the object is not an element of
    the block the container owns. *)
Definition outlives_growth (value : const_ref) (full : Z)
    (this : circular_buffer) : Prop :=
  growth full this = None \/ apart value (data this).

(** The capacity that the push inside [insert(pos, ..)] asks for when the
    container is full: [insert] calls [push_front] for [pos == begin()] and
    for a position in the front half, [push_back] for [pos == end()] and
    for a position in the back half.  There is none where the position of
    [pos] is undefined. *)
Definition insert_growth (pos : iterator) (this : circular_buffer) : option Z :=
  if basic_iterator.eqb pos (begin_ this) then Some (2 * sz this)
  else if basic_iterator.eqb pos (end_ this) then Some (2 * cap this)
  else
    p ← basic_iterator.get_pos pos;
    Some (if p <=? sz this / 2 then 2 * sz this else 2 * cap this).

(** ** The plain list model of the four end operations *)

(** What a caller passes to a push: an object of its own, as in
    [c.push_back(v)], or an element of the container itself, as in
    [c.push_back(c[i])]. *)
Inductive argument : Type :=
| given (v : T)
| own_element (i : nat).

Inductive op : Type :=
| PushBack (a : argument)
| PushFront (a : argument)
| PopBack
| PopFront.

(** The value of an argument in the model: [c[i]] is the [i]-th element,
    and has no value for [i] at or above the length. *)
Definition model_argument (a : argument) (l : list T) : option T :=
  match a with
  | given v => Some v
  | own_element i => l !! i
  end.

(** One operation on the model; a pop needs a non-empty list. *)
Definition model_step (o : op) (l : list T) : option (list T) :=
  match o with
  | PushBack a => v ← model_argument a l; Some (l ++ [v])
  | PushFront a => v ← model_argument a l; Some (v :: l)
  | PopBack => match l with [] => None | _ => Some (removelast l) end
  | PopFront => match l with [] => None | _ :: l' => Some l' end
  end.

Fixpoint model_run (ops : list op) (l : list T) : option (list T) :=
  match ops with
  | [] => Some l
  | o :: ops' => l' ← model_step o l; model_run ops' l'
  end.

(** The reference the push receives for an argument. *)
Definition pass (a : argument) : M const_ref :=
  match a with
  | given v => mret (outside v)
  | own_element i => operator_idx_ref (Z.of_nat i)
  end.

(** The same operation on the container. *)
Definition step (o : op) : M unit :=
  match o with
  | PushBack a => value ← pass a; push_back value
  | PushFront a => value ← pass a; push_front value
  | PopBack => pop_back
  | PopFront => pop_front
  end.

Fixpoint run (ops : list op) : M unit :=
  match ops with
  | [] => mret tt
  | o :: ops' => step o;; run ops'
  end.


(** An operation that does not pass an element of the container itself. *)
Definition by_value (o : op) : bool :=
  match o with
  | PushBack (own_element _) | PushFront (own_element _) => false
  | _ => true
  end.

End Container.

Arguments heap T : clear implicits.
Arguments outcome T A : clear implicits.
Arguments M T A : clear implicits.
Arguments mk_heap {T} blocks leaked.
Arguments Return {T A} a this h.
Arguments Throw {T A} e this h.
Arguments Abort {T A}.
Arguments Undefined {T A}.
Arguments OutOfFuel {T A}.


(** ** Example element types, allocators and states *)

(** Four-byte elements whose copies never throw. *)
#[global] Instance int_element : Element Z :=
  {| sizeof_T := 4; copy_ok := fun _ => true;
     sizeof_T_pos := eq_refl; sizeof_T_bound := eq_refl |}.

(** Four-byte elements; copying the value [13] throws. *)
Definition fragile_element : Element Z :=
  {| sizeof_T := 4; copy_ok := fun v => negb (v =? 13);
     sizeof_T_pos := eq_refl; sizeof_T_bound := eq_refl |}.

(** An allocator that grants every request it can, and one that refuses
    more than 16 bytes. *)
#[global] Instance generous : Allocator := {| may_alloc := fun _ => true |}.
Definition tight : Allocator := {| may_alloc := fun n => n <=? 16 |}.

(** An allocator that grants 24 bytes, the six elements [push_front] asks
    for on a container of capacity 4, and refuses the 32 bytes of the eight
    elements [push_back] asks for. *)
Definition narrow : Allocator := {| may_alloc := fun n => n <=? 24 |}.

(** A heap without blocks. *)
Definition empty_heap : heap Z := mk_heap ∅ 0.

(** A container that holds [10; 20; 30] in a block of four slots, wrapped
    around the end of the block: the state after [push_back(20)],
    [push_back(30)], [push_front(10)] on a new container. *)
Definition wrapped : circular_buffer := mk_circular_buffer 3 4 (Block 1) 3 2.
Definition wrapped_heap : heap Z :=
  mk_heap {[ 1%positive := [Some 20; Some 30; None; Some 10] ]} 0.

(** The same container before [push_front(10)]. *)
Definition pair : circular_buffer := mk_circular_buffer 2 4 (Block 1) 0 2.
Definition pair_heap : heap Z :=
  mk_heap {[ 1%positive := [Some 20; Some 30; None; None] ]} 0.

(** The container [wrapped] with [13] in place of [20]: it holds
    [10; 13; 30]. *)
Definition unlucky_heap : heap Z :=
  mk_heap {[ 1%positive := [Some 13; Some 30; None; Some 10] ]} 0.

(** Two iterators into [wrapped]: [second] is at logical position 1 and
    physical index 0, [first] at logical position 0 and physical index 3. *)
Definition first : iterator := basic_iterator.mk 3 4 (Block 1) 3.
Definition second : iterator := basic_iterator.mk 0 4 (Block 1) 3.

(** The state of a container after the outcome [o], if it returned. *)
Definition state_of {A} (o : outcome Z A) : circular_buffer * heap Z :=
  match o with
  | Return _ this h => (this, h)
  | _ => (circular_buffer_ctor, empty_heap)
  end.

(** * Properties *)

(** ** Ring arithmetic on [size_t] *)

Lemma SIZE_MOD_eq : SIZE_MOD = 18446744073709551616.
Proof. reflexivity. Qed.

Lemma PTRDIFF_MAX_eq : PTRDIFF_MAX = 9223372036854775807.
Proof. reflexivity. Qed.

Lemma wrap_small z : 0 <= z < SIZE_MOD -> wrap z = z.
Proof. intros. unfold wrap. now apply Z.mod_small. Qed.

Lemma wrap_neg z : - SIZE_MOD <= z < 0 -> wrap z = z + SIZE_MOD.
Proof.
  intros. unfold wrap.
  rewrite <- (Z_mod_plus_full z 1 SIZE_MOD).
  replace (z + 1 * SIZE_MOD) with (z + SIZE_MOD) by lia.
  apply Z.mod_small. lia.
Qed.

Lemma wrap_over z : SIZE_MOD <= z < 2 * SIZE_MOD -> wrap z = z - SIZE_MOD.
Proof.
  intros. unfold wrap.
  rewrite <- (Z_mod_plus_full z (-1) SIZE_MOD).
  replace (z + -1 * SIZE_MOD) with (z - SIZE_MOD) by lia.
  apply Z.mod_small. lia.
Qed.

(** The three shapes of [x mod c] for [x] within one period of [0, c). *)
Lemma mod_cases c x :
  0 < c -> - c <= x < 2 * c ->
  (x < 0 /\ x mod c = x + c) \/
  (0 <= x < c /\ x mod c = x) \/
  (c <= x /\ x mod c = x - c).
Proof.
  intros Hc Hx.
  destruct (Z_lt_le_dec x 0) as [Hn | Hn].
  - left. split; [lia |].
    rewrite <- (Z_mod_plus_full x 1 c).
    replace (x + 1 * c) with (x + c) by lia. apply Z.mod_small. lia.
  - destruct (Z_lt_le_dec x c) as [Hs | Hs].
    + right; left. split; [lia |]. apply Z.mod_small. lia.
    + right; right. split; [lia |].
      rewrite <- (Z_mod_plus_full x (-1) c).
      replace (x + -1 * c) with (x - c) by lia. apply Z.mod_small. lia.
Qed.

Lemma mod_range c x : 0 < c -> 0 <= x mod c < c.
Proof. intros. now apply Z.mod_pos_bound. Qed.

(** [(i + k) % cap] on [size_t] is the mathematical remainder when nothing
    wraps. *)
Lemma size_rem_add c i k :
  0 < c -> 0 <= i -> 0 <= k -> i + k < SIZE_MOD ->
  size_rem (size_add i k) c = Some ((i + k) mod c).
Proof.
  intros Hc Hi Hk Hlt. unfold size_rem, size_add.
  destruct (Z.eqb_spec c 0); [lia |].
  now rewrite wrap_small by lia.
Qed.

(** [(i - 1 + cap) % cap] on [size_t]: for [i = 0] the subtraction wraps to
    [SIZE_MAX] and the addition wraps back. *)
Lemma size_rem_retreat c i :
  0 < c <= PTRDIFF_MAX -> 0 <= i < c ->
  size_rem (size_add (size_sub i 1) c) c = Some ((i - 1) mod c).
Proof.
  intros Hc Hi. unfold size_rem, size_add, size_sub.
  pose proof PTRDIFF_MAX_eq. pose proof SIZE_MOD_eq.
  destruct (Z.eqb_spec c 0); [lia |]. f_equal.
  destruct (Z.eq_dec i 0) as [-> | Hne].
  - rewrite (wrap_neg (0 - 1)) by lia.
    rewrite wrap_over by lia.
    replace (0 - 1 + SIZE_MOD + c - SIZE_MOD) with (0 - 1 + 1 * c) by lia.
    now rewrite Z_mod_plus_full.
  - rewrite (wrap_small (i - 1)) by lia.
    rewrite wrap_small by lia.
    replace (i - 1 + c) with (i - 1 + 1 * c) by lia.
    now rewrite Z_mod_plus_full.
Qed.

(** [(ind + cap - ind_begin) % cap]. *)
Lemma size_rem_get_pos c i b :
  0 < c <= PTRDIFF_MAX -> 0 <= i < c -> 0 <= b < c ->
  size_rem (size_sub (size_add i c) b) c = Some ((i - b) mod c).
Proof.
  intros Hc Hi Hb. unfold size_rem, size_add, size_sub.
  pose proof PTRDIFF_MAX_eq. pose proof SIZE_MOD_eq.
  destruct (Z.eqb_spec c 0); [lia |]. f_equal.
  rewrite (wrap_small (i + c)) by lia.
  rewrite wrap_small by lia.
  replace (i + c - b) with (i - b + 1 * c) by lia.
  now rewrite Z_mod_plus_full.
Qed.

(** Physical slots and logical positions are inverse to each other. *)
Lemma phys_logical c b i :
  0 < c -> 0 <= b < c -> 0 <= i < c -> ((b + i) mod c - b) mod c = i.
Proof.
  intros Hc Hb Hi.
  destruct (mod_cases c (b + i) Hc) as [[? E] | [[? E] | [? E]]]; [lia | | |]; rewrite E;
  destruct (mod_cases c (b + i - b) Hc) as [[? F] | [[? F] | [? F]]]; try lia;
  destruct (mod_cases c (b + i - c - b) Hc) as [[? G] | [[? G] | [? G]]]; try lia.
Qed.

Lemma logical_phys c b j :
  0 < c -> 0 <= b < c -> 0 <= j < c -> (b + (j - b) mod c) mod c = j.
Proof.
  intros Hc Hb Hj.
  destruct (mod_cases c (j - b) Hc) as [[? E] | [[? E] | [? E]]]; [lia | | |]; rewrite E;
  destruct (mod_cases c (b + (j - b + c)) Hc) as [[? F] | [[? F] | [? F]]]; try lia;
  destruct (mod_cases c (b + (j - b)) Hc) as [[? G] | [[? G] | [? G]]]; try lia.
Qed.

Lemma phys_inj c b i j :
  0 < c -> 0 <= b < c -> 0 <= i < c -> 0 <= j < c ->
  (b + i) mod c = (b + j) mod c -> i = j.
Proof.
  intros Hc Hb Hi Hj E.
  rewrite <- (phys_logical c b i), <- (phys_logical c b j) by lia.
  now rewrite E.
Qed.

Section Proofs.

Context {T : Type} {elt : Element T} {alloc : Allocator}.

Implicit Types (this tmp oth : circular_buffer) (h : heap T) (l : list T)
  (slots : list (option T)) (b : positive).

(** Unfolding one layer of the method monad. *)
Ltac munfold :=
  unfold mbind, M_bind, M_bind_def, mret, M_ret, M_ret_def, get_this,
    modify_this, assert_, ub, throw, undefined, out_of_fuel.

(** ** Well-formed states *)

Lemma allocated_cap_range this h l b slots :
  allocated this h l b slots -> 0 < cap this <= PTRDIFF_MAX.
Proof.
  intros A. pose proof (al_cap_min _ _ _ _ _ A). pose proof (al_cap_max _ _ _ _ _ A).
  pose proof sizeof_T_pos. split; [lia | nia].
Qed.

Lemma allocated_sz_nonneg this h l b slots :
  allocated this h l b slots -> 0 <= sz this.
Proof. intros A. rewrite (al_sz _ _ _ _ _ A). lia. Qed.

Lemma repr_ctor h : repr circular_buffer_ctor h [].
Proof. now left. Qed.

Lemma wf_ctor h : wf circular_buffer_ctor h.
Proof. exists []. apply repr_ctor. Qed.

Lemma repr_sz this h l : repr this h l -> sz this = Z.of_nat (length l).
Proof.
  intros [[-> ->] | (b & slots & A)]; [reflexivity |].
  apply (al_sz _ _ _ _ _ A).
Qed.

Lemma repr_invariant_1 this h l : repr this h l -> invariant_1 this.
Proof.
  intros [[-> ->] | (b & slots & A)]; unfold invariant_1; simpl.
  - repeat split; lia.
  - pose proof (allocated_cap_range _ _ _ _ _ A).
    pose proof (allocated_sz_nonneg _ _ _ _ _ A).
    pose proof (al_room _ _ _ _ _ A).
    repeat split; lia.
Qed.

(** The slot of a logical index, read through the heap. *)
Lemma allocated_slot this h l b slots (i : nat) :
  allocated this h l b slots -> Z.of_nat i < cap this ->
  slot (data this) (physical_slot this (Z.of_nat i)) h = Some (l !! i).
Proof.
  intros A Hi. unfold slot. rewrite (al_data _ _ _ _ _ A), (al_block _ _ _ _ _ A).
  simpl. now apply (al_slots _ _ _ _ _ A).
Qed.

Lemma physical_slot_range this i :
  0 < cap this -> 0 <= physical_slot this i < cap this.
Proof. intros. unfold physical_slot. now apply mod_range. Qed.

(** Stepping back from the slot of logical index [i + 1]. *)
Lemma physical_slot_pred this i :
  0 < cap this -> 0 <= ind_begin this < cap this -> 0 <= i < cap this - 1 ->
  (physical_slot this (i + 1) - 1) mod cap this = physical_slot this i.
Proof.
  intros Hc Hb Hi. unfold physical_slot.
  destruct (mod_cases (cap this) (ind_begin this + (i + 1)) Hc) as [[? E] | [[? E] | [? E]]];
    [lia | | |]; rewrite E;
  destruct (mod_cases (cap this) (ind_begin this + i) Hc) as [[? F] | [[? F] | [? F]]];
    try lia; rewrite F.
  - destruct (mod_cases (cap this) (ind_begin this + (i + 1) - 1) Hc) as [[? G] | [[? G] | [? G]]]; lia.
  - destruct (mod_cases (cap this) (ind_begin this + (i + 1) - cap this - 1) Hc) as [[? G] | [[? G] | [? G]]]; lia.
  - destruct (mod_cases (cap this) (ind_begin this + (i + 1) - cap this - 1) Hc) as [[? G] | [[? G] | [? G]]]; lia.
Qed.

(** Stepping forward from the slot of logical index [i]. *)
Lemma physical_slot_succ this i :
  0 < cap this -> 0 <= ind_begin this < cap this -> 0 <= i < cap this ->
  (physical_slot this i + 1) mod cap this = physical_slot this (i + 1).
Proof.
  intros Hc Hb Hi. unfold physical_slot.
  rewrite Z.add_assoc. now rewrite Zplus_mod_idemp_l.
Qed.

(** ** Updating one slot of the owned block *)

Lemma set_slot_block b slots i o h :
  blocks h !! b = Some slots ->
  set_slot (Block b) i o h
  = mk_heap (<[b := <[Z.to_nat i := o]> slots]> (blocks h)) (leaked h).
Proof. intros E. unfold set_slot. now rewrite E. Qed.

Lemma frame_set_slot this i o h : frame this h (set_slot (data this) i o h).
Proof.
  intros b' Hne _. unfold set_slot.
  destruct (data this) as [| b]; [reflexivity |].
  destruct (blocks h !! b) eqn:E; [| reflexivity].
  simpl. apply lookup_insert_ne. congruence.
Qed.

Lemma dom_set_slot p i o h : dom (blocks (set_slot p i o h)) = dom (blocks h).
Proof.
  unfold set_slot. destruct p as [| b]; [reflexivity |].
  destruct (blocks h !! b) eqn:E; [| reflexivity].
  simpl. apply set_eq. intros x. rewrite !elem_of_dom.
  destruct (decide (b = x)) as [-> | Hne].
  - rewrite lookup_insert_eq, E. split; eauto.
  - now rewrite lookup_insert_ne.
Qed.

Lemma leaked_set_slot p i o h : leaked (set_slot p i o h) = leaked h.
Proof.
  unfold set_slot. destruct p as [| b]; [reflexivity |].
  now destruct (blocks h !! b).
Qed.

(** Writing [o] into the slot of logical index [k], cursors aside: the
    sequence changes at index [k] only. *)
Lemma allocated_update this this' h l l' b slots (k : nat) o :
  allocated this h l b slots ->
  Z.of_nat k < cap this ->
  cap this' = cap this -> data this' = data this ->
  ind_begin this' = ind_begin this ->
  sz this' = Z.of_nat (length l') -> sz this' < cap this ->
  ind_end this' = physical_slot this (sz this') ->
  l' !! k = o ->
  (forall i, i <> k -> l' !! i = l !! i) ->
  allocated this' (set_slot (data this) (physical_slot this (Z.of_nat k)) o h) l' b
    (<[Z.to_nat (physical_slot this (Z.of_nat k)) := o]> slots).
Proof.
  intros A Hk Hcap Hdata Hbeg Hsz Hroom Hend Hat Hoth.
  pose proof (allocated_cap_range _ _ _ _ _ A) as Hc.
  pose proof (al_begin _ _ _ _ _ A) as Hb.
  rewrite (al_data _ _ _ _ _ A), (set_slot_block _ _ _ _ _ (al_block _ _ _ _ _ A)).
  assert (Hphys : forall i, physical_slot this' i = physical_slot this i).
  { intros i. unfold physical_slot. now rewrite Hcap, Hbeg. }
  constructor; simpl.
  - rewrite Hdata. apply (al_data _ _ _ _ _ A).
  - apply lookup_insert_eq.
  - rewrite length_insert, Hcap. apply (al_length _ _ _ _ _ A).
  - rewrite Hcap. apply (al_cap_min _ _ _ _ _ A).
  - rewrite Hcap. apply (al_cap_max _ _ _ _ _ A).
  - exact Hsz.
  - now rewrite Hcap.
  - now rewrite Hbeg, Hcap.
  - now rewrite Hphys.
  - intros i Hi. rewrite Hcap in Hi. rewrite Hphys.
    pose proof (physical_slot_range this (Z.of_nat i) ltac:(lia)) as Ri.
    pose proof (physical_slot_range this (Z.of_nat k) ltac:(lia)) as Rk.
    destruct (decide (i = k)) as [-> | Hne].
    + rewrite list_lookup_insert_eq.
      * now rewrite Hat.
      * pose proof (al_length _ _ _ _ _ A). lia.
    + rewrite list_lookup_insert_ne.
      * rewrite Hoth by exact Hne. now apply (al_slots _ _ _ _ _ A).
      * intros E. apply Hne.
        assert (Z.of_nat i = Z.of_nat k); [| lia].
        apply (phys_inj (cap this) (ind_begin this)); try lia.
        unfold physical_slot in *. lia.
Qed.

(** ** [pop_back] and [pop_front] *)

Lemma size_sub_1 z : 0 < z < SIZE_MOD -> size_sub z 1 = z - 1.
Proof. intros. unfold size_sub. apply wrap_small. lia. Qed.

Lemma size_add_1 z : 0 <= z <= PTRDIFF_MAX -> size_add z 1 = z + 1.
Proof.
  intros. unfold size_add. apply wrap_small.
  pose proof PTRDIFF_MAX_eq. pose proof SIZE_MOD_eq. lia.
Qed.

Lemma pop_back_allocated this h l v b slots :
  allocated this h (l ++ [v]) b slots ->
  let e := physical_slot this (sz this - 1) in
  let this' := set_ind_end e (set_sz (sz this - 1) this) in
  let h' := set_slot (data this) e None h in
  pop_back this h = Return tt this' h' /\
  allocated this' h' l b (<[Z.to_nat e := None]> slots).
Proof.
  intros A e this' h'.
  pose proof (allocated_cap_range _ _ _ _ _ A) as Hc.
  pose proof (al_begin _ _ _ _ _ A) as Hb.
  pose proof (al_room _ _ _ _ _ A) as Hroom.
  pose proof (al_sz _ _ _ _ _ A) as Hsz. rewrite length_app in Hsz. simpl in Hsz.
  pose proof PTRDIFF_MAX_eq. pose proof SIZE_MOD_eq.
  assert (He : size_rem (size_add (size_sub (ind_end this) 1) (cap this)) (cap this) = Some e).
  { rewrite size_rem_retreat.
    - rewrite (al_end _ _ _ _ _ A).
      replace (sz this) with (sz this - 1 + 1) at 1 by lia.
      f_equal. apply physical_slot_pred; lia.
    - lia.
    - rewrite (al_end _ _ _ _ _ A). apply physical_slot_range. lia. }
  assert (Hslot : slot (data this) e h = Some (Some v)).
  { subst e. replace (sz this - 1) with (Z.of_nat (length l)) by lia.
    rewrite (allocated_slot _ _ _ _ _ _ A) by lia.
    now rewrite list_lookup_middle. }
  split.
  - unfold pop_back. munfold.
    destruct (Z.ltb_spec 0 (sz this)); [| lia].
    simpl. rewrite He. unfold destroy_at. simpl. rewrite Hslot.
    rewrite size_sub_1 by lia. reflexivity.
  - subst e h'. replace (sz this - 1) with (Z.of_nat (length l)) by lia.
    eapply allocated_update; try eassumption; try reflexivity; simpl; try lia.
    + apply lookup_ge_None. lia.
    + intros i Hi. destruct (decide (i < length l)%nat).
      * now rewrite lookup_app_l.
      * rewrite !(proj2 (lookup_ge_None _ _)); [reflexivity | rewrite length_app; simpl; lia | lia].
Qed.

Lemma pop_front_allocated this h l v b slots :
  allocated this h (v :: l) b slots ->
  let this' := set_ind_begin (physical_slot this 1) (set_sz (sz this - 1) this) in
  let h' := set_slot (data this) (ind_begin this) None h in
  pop_front this h = Return tt this' h' /\
  allocated this' h' l b (<[Z.to_nat (ind_begin this) := None]> slots).
Proof.
  intros A this' h'.
  pose proof (allocated_cap_range _ _ _ _ _ A) as Hc.
  pose proof (al_begin _ _ _ _ _ A) as Hb.
  pose proof (al_room _ _ _ _ _ A) as Hroom.
  pose proof (al_sz _ _ _ _ _ A) as Hsz. simpl in Hsz.
  pose proof (al_length _ _ _ _ _ A) as Hlen.
  pose proof (al_cap_min _ _ _ _ _ A) as Hmin.
  pose proof (al_cap_max _ _ _ _ _ A) as Hmax.
  pose proof PTRDIFF_MAX_eq. pose proof SIZE_MOD_eq.
  assert (Hp0 : physical_slot this 0 = ind_begin this).
  { unfold physical_slot. rewrite Z.add_0_r. apply Z.mod_small. lia. }
  assert (Hslot : slot (data this) (ind_begin this) h = Some (Some v)).
  { rewrite <- Hp0. change 0 with (Z.of_nat 0).
    now rewrite (allocated_slot _ _ _ _ _ _ A) by lia. }
  split.
  - unfold pop_front. munfold.
    destruct (Z.ltb_spec 0 (sz this)); [| lia].
    simpl. unfold destroy_at. simpl. rewrite Hslot.
    rewrite size_rem_add by lia. rewrite size_sub_1 by lia. reflexivity.
  - subst this' h'.
    rewrite (al_data _ _ _ _ _ A), (set_slot_block _ _ _ _ _ (al_block _ _ _ _ _ A)).
    constructor; simpl; try lia.
    + apply (al_data _ _ _ _ _ A).
    + apply lookup_insert_eq.
    + now rewrite length_insert.
    + apply physical_slot_range. lia.
    + rewrite (al_end _ _ _ _ _ A). unfold physical_slot. simpl.
      rewrite Zplus_mod_idemp_l. f_equal. lia.
    + intros i Hi. unfold physical_slot at 1. simpl.
      unfold physical_slot at 1. rewrite Zplus_mod_idemp_l.
      destruct (decide (Z.of_nat i + 1 < cap this)) as [Hlt | Hge].
      * replace (ind_begin this + 1 + Z.of_nat i)
          with (ind_begin this + Z.of_nat (S i)) by lia.
        rewrite list_lookup_insert_ne.
        -- fold (physical_slot this (Z.of_nat (S i))).
           now rewrite (al_slots _ _ _ _ _ A) by lia.
        -- intros E.
           assert (Z.of_nat 0 = Z.of_nat (S i)); [| lia].
           apply (phys_inj (cap this) (ind_begin this)); try lia.
           change (Z.of_nat 0) with 0. rewrite Z.add_0_r, (Z.mod_small (ind_begin this)) by lia.
           pose proof (mod_range (cap this) (ind_begin this + Z.of_nat (S i)) ltac:(lia)).
           lia.
      * replace (ind_begin this + 1 + Z.of_nat i)
          with (ind_begin this + 1 * cap this) by lia.
        rewrite Z_mod_plus_full, Z.mod_small by lia.
        rewrite list_lookup_insert_eq by lia.
        f_equal. symmetry. apply lookup_ge_None. lia.
Qed.

(** ** Sequencing *)

Lemma bind_Return {A B} (m : M T A) (f : A -> M T B) this h a this' h' :
  m this h = Return a this' h' -> (m ≫= f) this h = f a this' h'.
Proof. intros E. unfold mbind, M_bind, M_bind_def. now rewrite E. Qed.

Lemma bind_abort_first {A B} (m : M T A) (f : A -> M T B) this h :
  m this h = Abort -> (m ≫= f) this h = Abort.
Proof. intros E. unfold mbind, M_bind, M_bind_def. now rewrite E. Qed.

Lemma bind_Throw {A B} (m : M T A) (f : A -> M T B) this h e this' h' :
  m this h = Throw e this' h' -> (m ≫= f) this h = Throw e this' h'.
Proof. intros E. unfold mbind, M_bind, M_bind_def. now rewrite E. Qed.

(** ** Placing an element when there is room *)

Lemma place_back_allocated (v : T) this h l b slots :
  allocated this h l b slots -> sz this + 1 < cap this ->
  let this' := set_sz (sz this + 1) (set_ind_end (physical_slot this (sz this + 1)) this) in
  let h' := set_slot (data this) (ind_end this) (Some v) h in
  (this ← get_this;
   construct_at (data this) (ind_end this) v;;
   e ← ub (size_rem (size_add (ind_end this) 1) (cap this));
   modify_this (set_ind_end e);;
   modify_this (fun this => set_sz (size_add (sz this) 1) this)) this h
  = (if copy_ok v then Return tt this' h' else Throw copy_failure this h) /\
  allocated this' h' (l ++ [v]) b (<[Z.to_nat (ind_end this) := Some v]> slots).
Proof.
  intros A Hroom this' h'.
  pose proof (allocated_cap_range _ _ _ _ _ A) as Hc.
  pose proof (al_begin _ _ _ _ _ A) as Hb.
  pose proof (al_sz _ _ _ _ _ A) as Hsz.
  pose proof (al_end _ _ _ _ _ A) as Hend.
  pose proof PTRDIFF_MAX_eq. pose proof SIZE_MOD_eq.
  pose proof (physical_slot_range this (sz this) ltac:(lia)) as Re.
  assert (Hslot : slot (data this) (ind_end this) h = Some None).
  { rewrite Hend, Hsz. rewrite (allocated_slot _ _ _ _ _ _ A) by lia.
    f_equal. apply lookup_ge_None. lia. }
  split.
  - munfold. unfold construct_at. simpl. rewrite Hslot.
    destruct (copy_ok v); [| reflexivity].
    rewrite size_rem_add by lia. simpl.
    rewrite size_add_1 by lia.
    rewrite Hend at 1. rewrite physical_slot_succ by lia. reflexivity.
  - subst this' h'. rewrite Hend, Hsz.
    eapply allocated_update; try eassumption; try reflexivity; simpl; try lia.
    + rewrite length_app. simpl. lia.
    + apply list_lookup_middle. reflexivity.
    + intros i Hi. destruct (decide (i < length l)%nat).
      * now rewrite lookup_app_l.
      * rewrite !(proj2 (lookup_ge_None _ _)); [reflexivity | lia | rewrite length_app; simpl; lia].
Qed.

Lemma place_front_allocated (v : T) this h l b slots :
  allocated this h l b slots -> sz this + 1 < cap this ->
  let b' := (ind_begin this - 1) mod cap this in
  let this' := set_sz (sz this + 1) (set_ind_begin b' this) in
  let h' := set_slot (data this) b' (Some v) h in
  (this ← get_this;
   b ← ub (size_rem (size_add (size_sub (ind_begin this) 1) (cap this)) (cap this));
   construct_at (data this) b v;;
   modify_this (set_ind_begin b);;
   modify_this (fun this => set_sz (size_add (sz this) 1) this)) this h
  = (if copy_ok v then Return tt this' h' else Throw copy_failure this h) /\
  allocated this' h' (v :: l) b (<[Z.to_nat b' := Some v]> slots).
Proof.
  intros A Hroom b' this' h'.
  pose proof (allocated_cap_range _ _ _ _ _ A) as Hc.
  pose proof (al_begin _ _ _ _ _ A) as Hb.
  pose proof (al_sz _ _ _ _ _ A) as Hsz.
  pose proof (al_end _ _ _ _ _ A) as Hend.
  pose proof (al_length _ _ _ _ _ A) as Hlen.
  pose proof (al_cap_min _ _ _ _ _ A) as Hmin.
  pose proof (al_cap_max _ _ _ _ _ A) as Hmax.
  pose proof PTRDIFF_MAX_eq. pose proof SIZE_MOD_eq.
  pose proof (mod_range (cap this) (ind_begin this - 1) ltac:(lia)) as Rb. fold b' in Rb.
  assert (Hb' : b' = physical_slot this (cap this - 1)).
  { subst b'. unfold physical_slot.
    replace (ind_begin this + (cap this - 1)) with (ind_begin this - 1 + 1 * cap this) by lia.
    now rewrite Z_mod_plus_full. }
  assert (Hslot : slot (data this) b' h = Some None).
  { rewrite Hb'. replace (cap this - 1) with (Z.of_nat (Z.to_nat (cap this - 1))) by lia.
    rewrite (allocated_slot _ _ _ _ _ _ A) by lia.
    f_equal. apply lookup_ge_None. lia. }
  split.
  - munfold. rewrite size_rem_retreat by lia. fold b'.
    unfold construct_at. simpl. rewrite Hslot.
    destruct (copy_ok v); [| reflexivity].
    simpl. rewrite size_add_1 by lia. reflexivity.
  - subst this' h'.
    rewrite (al_data _ _ _ _ _ A), (set_slot_block _ _ _ _ _ (al_block _ _ _ _ _ A)).
    constructor; simpl; try lia.
    + apply (al_data _ _ _ _ _ A).
    + apply lookup_insert_eq.
    + now rewrite length_insert.
    + rewrite Hend. unfold physical_slot. simpl. subst b'.
      rewrite Zplus_mod_idemp_l. f_equal. lia.
    + intros i Hi. unfold physical_slot at 1. simpl. subst b'.
      rewrite Zplus_mod_idemp_l.
      destruct i as [| i].
      * change (Z.of_nat 0) with 0. rewrite Z.add_0_r.
        rewrite list_lookup_insert_eq by lia. reflexivity.
      * replace (ind_begin this - 1 + Z.of_nat (S i))
          with (ind_begin this + Z.of_nat i) by lia.
        rewrite list_lookup_insert_ne.
        -- fold (physical_slot this (Z.of_nat i)).
           now rewrite (al_slots _ _ _ _ _ A) by lia.
        -- intros E.
           assert (cap this - 1 = Z.of_nat i); [| lia].
           apply (phys_inj (cap this) (ind_begin this)); try lia.
           fold (physical_slot this (cap this - 1)). rewrite <- Hb'.
           pose proof (mod_range (cap this) (ind_begin this + Z.of_nat i) ltac:(lia)).
           lia.
Qed.

(** ** Loops *)

Lemma while_loop_unfold {L} fuel (cond : L -> M T bool) (body : L -> M T L) (x : L) :
  while_loop fuel cond body x
  = (c ← cond x;
     if c : bool then
       match fuel with
       | O => out_of_fuel
       | S fuel' => x' ← body x; while_loop fuel' cond body x'
       end
     else mret x).
Proof. destruct fuel; reflexivity. Qed.

(** ** [clear] *)

(** The heap [h] with the slots of block [b] replaced. *)
Lemma set_slot_allocated this h l b slots i o :
  allocated this h l b slots ->
  set_slot (data this) i o h
  = mk_heap (<[b := <[Z.to_nat i := o]> slots]> (blocks h)) (leaked h).
Proof.
  intros A. rewrite (al_data _ _ _ _ _ A).
  apply set_slot_block, (al_block _ _ _ _ _ A).
Qed.

Lemma heap_insert_id h b slots :
  blocks h !! b = Some slots -> mk_heap (<[b := slots]> (blocks h)) (leaked h) = h.
Proof. intros E. destruct h as [bs lk]. simpl in *. now rewrite insert_id. Qed.

(** An allocated container that holds nothing has no constructed slot. *)
Lemma allocated_nil_count_live this h b slots :
  allocated this h [] b slots -> count_live slots = 0%nat.
Proof.
  intros A.
  pose proof (allocated_cap_range _ _ _ _ _ A) as Hc.
  pose proof (al_begin _ _ _ _ _ A) as Hb.
  pose proof (al_length _ _ _ _ _ A) as Hlen.
  assert (Hall : Forall (fun o => o = None) slots).
  { apply Forall_lookup. intros j o Hj.
    pose proof (lookup_lt_Some _ _ _ Hj) as Hlt.
    pose proof (al_slots _ _ _ _ _ A
                  (Z.to_nat ((Z.of_nat j - ind_begin this) mod cap this))) as S.
    pose proof (mod_range (cap this) (Z.of_nat j - ind_begin this) ltac:(lia)).
    rewrite Z2Nat.id in S by lia.
    unfold physical_slot in S. rewrite logical_phys in S by lia.
    rewrite Nat2Z.id in S. rewrite S in Hj by lia.
    rewrite lookup_nil in Hj. congruence. }
  unfold count_live. clear -Hall.
  induction Hall as [| o slots -> _ IH]; [reflexivity |].
  rewrite filter_cons_False; [exact IH |]. intros [? ?]. discriminate.
Qed.

Lemma clear_loop_allocated l : forall this h b slots (fuel : nat),
  allocated this h l b slots -> (length l <= fuel)%nat ->
  exists this' slots',
    while_loop fuel (fun _ : unit => this ← get_this; mret (0 <? sz this))
      (fun _ => pop_back) tt this h
    = Return tt this' (mk_heap (<[b := slots']> (blocks h)) (leaked h)) /\
    allocated this' (mk_heap (<[b := slots']> (blocks h)) (leaked h)) [] b slots' /\
    data this' = data this.
Proof.
  induction l as [| v l IH] using rev_ind; intros this h b slots fuel A Hfuel.
  - exists this, slots.
    rewrite (heap_insert_id _ _ _ (al_block _ _ _ _ _ A)).
    split; [| split; [exact A | reflexivity]].
    rewrite while_loop_unfold. munfold.
    pose proof (al_sz _ _ _ _ _ A) as Hsz. simpl in Hsz.
    rewrite Hsz. reflexivity.
  - rewrite length_app in Hfuel. simpl in Hfuel.
    destruct fuel as [| fuel]; [lia |].
    destruct (pop_back_allocated _ _ _ _ _ _ A) as [Epop A'].
    rewrite (set_slot_allocated _ _ _ _ _ _ _ A) in Epop, A'.
    destruct (IH _ _ _ _ fuel A' ltac:(lia)) as (this' & slots' & Eloop & A'' & Hdata).
    simpl in Eloop, A''. rewrite insert_insert_eq in Eloop, A''.
    exists this', slots'. split; [| split; [exact A'' | exact Hdata]].
    pose proof (al_sz _ _ _ _ _ A) as Hsz. rewrite length_app in Hsz. simpl in Hsz.
    rewrite while_loop_unfold.
    erewrite bind_Return with (a := true).
    + erewrite bind_Return by exact Epop. exact Eloop.
    + munfold. destruct (Z.ltb_spec 0 (sz this)); [reflexivity | lia].

Qed.

Lemma clear_repr this h l :
  repr this h l ->
  clear this h = Return tt circular_buffer_ctor (release (data this) h).
Proof.
  intros [[-> ->] | (b & slots & A)].
  - reflexivity.
  - unfold clear.
    erewrite bind_Return by reflexivity.
    destruct (clear_loop_allocated l this h b slots (Z.to_nat (sz this)) A)
      as (this' & slots' & Eloop & A' & Hdata).
    { rewrite (al_sz _ _ _ _ _ A). lia. }
    erewrite bind_Return by exact Eloop.
    erewrite bind_Return by reflexivity.
    rewrite Hdata, (al_data _ _ _ _ _ A).
    erewrite bind_Return.
    + reflexivity.
    + unfold operator_delete. simpl. rewrite lookup_insert_eq.
      rewrite (allocated_nil_count_live _ _ _ _ A').
      rewrite delete_insert_eq, Nat.add_0_r. reflexivity.
Qed.

(** ** [reserve] *)

Lemma block_of_length l (n : nat) : (length l <= n)%nat -> length (block_of l n) = n.
Proof.
  intros. unfold block_of. rewrite length_app, length_fmap, length_replicate. lia.
Qed.

Lemma block_of_lookup l (n i : nat) :
  (length l <= n)%nat -> (i < n)%nat -> block_of l n !! i = Some (l !! i).
Proof.
  intros Hl Hi. unfold block_of.
  destruct (decide (i < length l)%nat) as [Hlt | Hge].
  - rewrite lookup_app_l by (rewrite length_fmap; lia).
    rewrite list_lookup_fmap.
    destruct (lookup_lt_is_Some_2 l i Hlt) as [v ->]. reflexivity.
  - rewrite lookup_app_r by (rewrite length_fmap; lia).
    rewrite lookup_replicate_2 by (rewrite length_fmap; lia).
    f_equal. symmetry. apply lookup_ge_None. lia.
Qed.

Lemma block_of_nil (n : nat) : block_of (@nil T) n = replicate n None.
Proof. unfold block_of. simpl. now rewrite Nat.sub_0_r. Qed.

Lemma block_of_step l (k n : nat) v :
  l !! k = Some v -> (k < n)%nat ->
  <[k := Some v]> (block_of (take k l) n) = block_of (take (S k) l) n.
Proof.
  intros Hv Hk. unfold block_of.
  pose proof (lookup_lt_Some _ _ _ Hv) as Hlt.
  rewrite (take_S_r _ _ _ Hv), fmap_app, !length_app, !length_take. simpl.
  replace (k `min` length l)%nat with k by lia.
  replace (n - k)%nat with (S (n - (k + 1)))%nat by lia. simpl.
  rewrite <- app_assoc. simpl.
  replace k with (length (Some <$> take k l) + 0)%nat at 1
    by (rewrite length_fmap, length_take; lia).
  now rewrite insert_app_r.
Qed.

(** ** Storage primitives on a known slot *)

Lemma read_live p i v this h :
  slot p i h = Some (Some v) -> read p i this h = Return v this h.
Proof. intros E. unfold read. now rewrite E. Qed.

Lemma construct_at_free p i v this h :
  slot p i h = Some None ->
  construct_at p i v this h
  = if copy_ok v then Return tt this (set_slot p i (Some v) h)
    else Throw copy_failure this h.
Proof. intros E. unfold construct_at. now rewrite E. Qed.

Lemma destroy_at_live p i v this h :
  slot p i h = Some (Some v) ->
  destroy_at p i this h = Return tt this (set_slot p i None h).
Proof. intros E. unfold destroy_at. now rewrite E. Qed.

Lemma assign_live p i v w this h :
  slot p i h = Some (Some w) ->
  assign p i v this h
  = if copy_ok v then Return tt this (set_slot p i (Some v) h)
    else Throw copy_failure this h.
Proof. intros E. unfold assign. now rewrite E. Qed.

(** One iteration of the migration loop of [reserve]: the element of logical
    index [k] is copied into slot [k] of the new block, or its copy throws. *)
Lemma reserve_body_step src h l b slots n b' (k : nat) v :
  allocated src h l b slots -> blocks h !! b' = None ->
  Z.of_nat (length l) < n -> n <= PTRDIFF_MAX -> l !! k = Some v ->
  let tmp_at (j : nat) := mk_circular_buffer (Z.of_nat j) n (Block b') 0 (Z.of_nat j) in
  let h_at (j : nat) :=
    mk_heap (<[b' := block_of (take j l) (Z.to_nat n)]> (blocks h)) (leaked h) in
  (tmp ← get_this;
   j ← ub (size_rem (size_add (ind_begin src) (Z.of_nat k)) (cap src));
   v ← read (data src) j;
   construct_at (data tmp) (ind_end tmp) v;;
   modify_this (fun tmp => set_ind_end (size_add (ind_end tmp) 1) tmp);;
   modify_this (fun tmp => set_sz (size_add (sz tmp) 1) tmp);;
   mret (size_add (Z.of_nat k) 1)) (tmp_at k) (h_at k)
  = if copy_ok v then Return (Z.of_nat (S k)) (tmp_at (S k)) (h_at (S k))
    else Throw copy_failure (tmp_at k) (h_at k).
Proof.
  intros A Hfresh Hn Hmax Hv tmp_at h_at.
  pose proof (allocated_cap_range _ _ _ _ _ A) as Hc.
  pose proof (al_begin _ _ _ _ _ A) as Hb.
  pose proof (al_sz _ _ _ _ _ A) as Hsz.
  pose proof (al_room _ _ _ _ _ A) as Hroom.
  pose proof (lookup_lt_Some _ _ _ Hv) as Hk.
  pose proof PTRDIFF_MAX_eq. pose proof SIZE_MOD_eq.
  assert (Hne : b <> b').
  { intros ->. rewrite (al_block _ _ _ _ _ A) in Hfresh. discriminate. }
  assert (Hsrc : slot (data src) (physical_slot src (Z.of_nat k)) (h_at k) = Some (Some v)).
  { unfold slot. rewrite (al_data _ _ _ _ _ A). simpl.
    rewrite lookup_insert_ne by congruence. rewrite (al_block _ _ _ _ _ A). simpl.
    rewrite (al_slots _ _ _ _ _ A) by lia. now rewrite Hv. }
  assert (Hdst : slot (Block b') (Z.of_nat k) (h_at k) = Some None).
  { unfold slot. simpl. rewrite lookup_insert_eq. simpl. rewrite Nat2Z.id.
    rewrite block_of_lookup by (rewrite ?length_take; lia).
    f_equal. apply lookup_ge_None. rewrite length_take. lia. }
  assert (Hset : set_slot (Block b') (Z.of_nat k) (Some v) (h_at k) = h_at (S k)).
  { unfold set_slot, h_at. simpl. rewrite lookup_insert_eq.
    rewrite insert_insert_eq, Nat2Z.id.
    rewrite block_of_step by (try assumption; lia). reflexivity. }
  erewrite bind_Return by reflexivity.
  erewrite bind_Return
    by (unfold ub; rewrite size_rem_add by lia; reflexivity).
  erewrite bind_Return by (apply read_live, Hsrc).
  change (data (tmp_at k)) with (Block b').
  change (ind_end (tmp_at k)) with (Z.of_nat k).
  destruct (copy_ok v) eqn:Hcopy.
  - erewrite bind_Return
      by (rewrite construct_at_free by exact Hdst; rewrite Hcopy; reflexivity).
    rewrite Hset. munfold. simpl.
    rewrite !size_add_1 by lia.
    replace (Z.of_nat k + 1) with (Z.of_nat (S k)) by lia. reflexivity.
  - erewrite bind_Throw
      by (rewrite construct_at_free by exact Hdst; rewrite Hcopy; reflexivity).
    reflexivity.
Qed.

Lemma reserve_loop_steps src h l b slots n b' :
  allocated src h l b slots -> blocks h !! b' = None ->
  Z.of_nat (length l) < n -> n <= PTRDIFF_MAX ->
  let tmp_at (j : nat) := mk_circular_buffer (Z.of_nat j) n (Block b') 0 (Z.of_nat j) in
  let h_at (j : nat) :=
    mk_heap (<[b' := block_of (take j l) (Z.to_nat n)]> (blocks h)) (leaked h) in
  let loop (m : nat) :=
    while_loop m (fun i => mret (i <? sz src))
      (fun i =>
         tmp ← get_this;
         j ← ub (size_rem (size_add (ind_begin src) i) (cap src));
         v ← read (data src) j;
         construct_at (data tmp) (ind_end tmp) v;;
         modify_this (fun tmp => set_ind_end (size_add (ind_end tmp) 1) tmp);;
         modify_this (fun tmp => set_sz (size_add (sz tmp) 1) tmp);;
         mret (size_add i 1)) in
  forall (m k : nat), (k + m = length l)%nat ->
    (forallb copy_ok (drop k l) = true /\
     loop m (Z.of_nat k) (tmp_at k) (h_at k)
     = Return (Z.of_nat (length l)) (tmp_at (length l)) (h_at (length l)))
    \/
    (exists (j : nat) v, l !! j = Some v /\ copy_ok v = false /\
       loop m (Z.of_nat k) (tmp_at k) (h_at k) = Throw copy_failure (tmp_at j) (h_at j)).
Proof.
  intros A Hfresh Hn Hmax tmp_at h_at loop.
  pose proof (al_sz _ _ _ _ _ A) as Hsz.
  induction m as [| m IH]; intros k Hk.
  - left. rewrite Nat.add_0_r in Hk. subst k. split.
    + now rewrite drop_all.
    + unfold loop. rewrite while_loop_unfold.
      erewrite bind_Return with (a := false); [reflexivity |].
      munfold. rewrite Hsz.
      destruct (Z.ltb_spec (Z.of_nat (length l)) (Z.of_nat (length l))); [lia | reflexivity].
  - destruct (lookup_lt_is_Some_2 l k ltac:(lia)) as [v Hv].
    pose proof (reserve_body_step _ _ _ _ _ _ _ k v A Hfresh Hn Hmax Hv) as Estep.
    fold tmp_at in Estep. fold h_at in Estep.
    unfold loop. rewrite while_loop_unfold.
    erewrite bind_Return with (a := true).
    2:{ munfold. rewrite Hsz.
        destruct (Z.ltb_spec (Z.of_nat k) (Z.of_nat (length l))); [reflexivity | lia]. }
    destruct (copy_ok v) eqn:Hcopy.
    + erewrite bind_Return by exact Estep.
      destruct (IH (S k) ltac:(lia)) as [[Hall Eloop] | (j & w & Hw & Hbad & Eloop)].
      * left. split; [| exact Eloop].
        rewrite (drop_S _ _ _ Hv). simpl. now rewrite Hcopy, Hall.
      * right. exists j, w. auto.
    + right. exists k, v. split; [exact Hv | split; [exact Hcopy |]].
      erewrite bind_Throw by exact Estep. reflexivity.
Qed.

Lemma swap_eq a c : swap a c = (c, a).
Proof. destruct a, c. reflexivity. Qed.

Lemma fresh_block_free h : blocks h !! fresh (dom (blocks h)) = None.
Proof. apply not_elem_of_dom, is_fresh. Qed.

(** The object and block [reserve] builds represent the sequence. *)
Lemma reserved_allocated l n b (m : gmap positive (list (option T))) lk :
  4 <= n -> n * sizeof_T <= PTRDIFF_MAX -> Z.of_nat (length l) < n ->
  allocated (reserved l n b) (mk_heap (<[b := block_of l (Z.to_nat n)]> m) lk) l b
    (block_of l (Z.to_nat n)).
Proof.
  intros Hmin Hmax Hlen.
  constructor; simpl; try lia.
  - reflexivity.
  - apply lookup_insert_eq.
  - rewrite block_of_length by lia. lia.
  - unfold physical_slot. simpl. rewrite Z.mod_small by lia. reflexivity.
  - intros i Hi. unfold physical_slot. simpl.
    rewrite Z.mod_small by lia. rewrite Z.add_0_l, Nat2Z.id.
    apply block_of_lookup; lia.
Qed.

(** A representation only depends on the block the object owns. *)
Lemma repr_frame this h h' l :
  repr this h l ->
  (forall b, data this = Block b -> blocks h' !! b = blocks h !! b) ->
  repr this h' l.
Proof.
  intros [[-> ->] | (b & slots & A)] Hsame; [now left |].
  right. exists b, slots. destruct A. constructor; try assumption.
  now rewrite (Hsame b).
Qed.

Lemma reserve_loop_repr this h l n b' :
  repr this h l -> blocks h !! b' = None ->
  Z.of_nat (length l) < n -> n <= PTRDIFF_MAX ->
  let h_at (j : nat) :=
    mk_heap (<[b' := block_of (take j l) (Z.to_nat n)]> (blocks h)) (leaked h) in
  (forallb copy_ok l = true /\
   reserve_loop this (reserved (@nil T) n b') (h_at 0%nat)
   = Return (Z.of_nat (length l)) (reserved l n b') (h_at (length l)))
  \/
  (exists (j : nat) v, l !! j = Some v /\ copy_ok v = false /\
     reserve_loop this (reserved (@nil T) n b') (h_at 0%nat)
     = Throw copy_failure (reserved (take j l) n b') (h_at j)).
Proof.
  intros [[-> ->] | (b & slots & A)] Hfresh Hn Hmax h_at.
  - left. split; reflexivity.
  - pose proof (reserve_loop_steps _ _ _ _ _ _ _ A Hfresh Hn Hmax (length l) 0%nat eq_refl)
      as [[Hall E] | (j & v & Hv & Hbad & E)].
    + left. split; [exact Hall |].
      unfold reserve_loop.
      replace (Z.to_nat (sz this)) with (length l) by (rewrite (al_sz _ _ _ _ _ A); lia). exact E.
    + right. exists j, v. split; [exact Hv | split; [exact Hbad |]].
      unfold reserve_loop.
      replace (Z.to_nat (sz this)) with (length l) by (rewrite (al_sz _ _ _ _ _ A); lia).
      unfold reserved. rewrite length_take.
      pose proof (lookup_lt_Some _ _ _ Hv).
      replace (j `min` length l)%nat with j by lia. exact E.
Qed.

Lemma reserve_spec n this h l :
  repr this h l -> sz this < n -> 4 <= n -> n * sizeof_T < SIZE_MOD ->
  reserve n this h
  = if (n * sizeof_T <=? PTRDIFF_MAX) && may_alloc (n * sizeof_T) then
      if forallb copy_ok l
      then Return tt (reserved l n (fresh (dom (blocks h)))) (reserved_heap this h l n)
      else Throw copy_failure this h
    else Throw bad_alloc this h.
Proof.
  intros R Hsz Hmin Hwrap.
  pose proof sizeof_T_pos as Hs.
  pose proof (repr_sz _ _ _ R) as Hlen.
  assert (Emul : size_mul n sizeof_T = n * sizeof_T).
  { unfold size_mul. apply wrap_small. nia. }
  unfold reserve. rewrite Z.geb_leb.
  destruct (Z.leb_spec n (sz this)); [lia |].
  cbv zeta. rewrite Emul.
  set (b' := fresh (dom (blocks h))).
  destruct ((n * sizeof_T <=? PTRDIFF_MAX) && may_alloc (n * sizeof_T)) eqn:Hgrant.
  - apply andb_prop in Hgrant as Hg. destruct Hg as [Hle _].
    apply Z.leb_le in Hle.
    assert (Hmax : n <= PTRDIFF_MAX) by nia.
    erewrite bind_Return
      by (unfold operator_new; rewrite Hgrant; reflexivity).
    erewrite bind_Return by reflexivity.
    rewrite Z.div_mul by lia. rewrite <- block_of_nil.
    fold b'.
    change (set_data (Block b') (set_cap n circular_buffer_ctor)) with (reserved (@nil T) n b').
    destruct (reserve_loop_repr this h l n b' R (fresh_block_free h) ltac:(lia) Hmax)
      as [[Hall E] | (j & v & Hv & Hbad & E)].
    + rewrite Hall. rewrite take_0 in E.
      erewrite bind_Return by exact E.
      erewrite bind_Return by reflexivity.
      rewrite swap_eq. erewrite bind_Return by reflexivity.
      unfold mret, M_ret, M_ret_def, leave_scope, destructor.
      rewrite (clear_repr this _ l).
      * rewrite firstn_all. reflexivity.
      * apply (repr_frame _ h); [exact R |].
        intros b Hb. simpl. apply lookup_insert_ne.
        intros Eb. destruct R as [[-> _] | (b0 & slots & A)]; [discriminate |].
        rewrite (al_data _ _ _ _ _ A) in Hb. injection Hb as Hb.
        pose proof (fresh_block_free h) as F. fold b' in F.
        rewrite Eb, <- Hb, (al_block _ _ _ _ _ A) in F. discriminate.
    + assert (Hnot : forallb copy_ok l = false).
      { apply not_true_is_false. intros Hall.
        rewrite forallb_forall in Hall.
        rewrite (Hall v) in Hbad; [discriminate |].
        apply list_elem_of_In, list_elem_of_lookup. eauto. }
      rewrite Hnot. rewrite take_0 in E.
      erewrite bind_Throw by exact E.
      unfold leave_scope, destructor.
      pose proof (lookup_lt_Some _ _ _ Hv) as Hj.
      rewrite (clear_repr _ _ (take j l)).
      * simpl. rewrite delete_insert_eq.
        rewrite delete_id by apply fresh_block_free.
        destruct h; reflexivity.
      * right. exists b', (block_of (take j l) (Z.to_nat n)).
        apply reserved_allocated; [lia | lia | rewrite length_take; lia].
  - erewrite bind_Throw
      by (unfold operator_new; rewrite Hgrant; reflexivity).
    reflexivity.
Qed.

Lemma reserved_heap_repr this h l n :
  repr this h l -> 4 <= n -> n * sizeof_T <= PTRDIFF_MAX -> Z.of_nat (length l) < n ->
  allocated (reserved l n (fresh (dom (blocks h)))) (reserved_heap this h l n) l
    (fresh (dom (blocks h))) (block_of l (Z.to_nat n)).
Proof.
  intros R Hmin Hmax Hlen. unfold reserved_heap, release.
  destruct (data this) as [| b] eqn:Hdata.
  - now apply reserved_allocated.
  - pose proof (reserved_allocated l n (fresh (dom (blocks h))) (blocks h) (leaked h)
                  Hmin Hmax Hlen) as A.
    destruct A. constructor; try assumption. simpl.
    rewrite lookup_delete_ne; [apply lookup_insert_eq |].
    intros ->. destruct R as [[-> _] | (b0 & slots & A)]; [discriminate |].
    rewrite (al_data _ _ _ _ _ A) in Hdata. injection Hdata as ->.
    pose proof (fresh_block_free h) as F.
    rewrite (al_block _ _ _ _ _ A) in F. discriminate.
Qed.

Lemma reserved_heap_leaked this h l n : leaked (reserved_heap this h l n) = leaked h.
Proof. unfold reserved_heap, release. now destruct (data this). Qed.

Lemma reserved_heap_frame this h l n : frame this h (reserved_heap this h l n).
Proof.
  intros b Hne Hlive. unfold reserved_heap, release.
  assert (Hb : fresh (dom (blocks h)) <> b).
  { intros <-. rewrite fresh_block_free in Hlive. now destruct Hlive. }
  destruct (data this) as [| b0]; simpl.
  - now apply lookup_insert_ne.
  - rewrite lookup_delete_ne by congruence. now apply lookup_insert_ne.
Qed.

(** ** Growth before a push *)

(** The growth step shared by [push_back] and [push_front]; [N] is the
    value of the argument of the second [reserve], [full] what it stands
    for. *)
Lemma grow_eval N full this h l :
  repr this h l ->
  (0 < sz this -> sz this = cap this - 1 ->
   N = full /\ sz this + 1 < full /\ full * sizeof_T < SIZE_MOD) ->
  (if empty this then reserve 4
   else if sz this =? size_sub (cap this) 1 then reserve N
   else mret tt) this h
  = grow_result full this h l.
Proof.
  intros R HN. unfold grow_result, growth, empty.
  pose proof sizeof_T_bound as Hbound.
  pose proof PTRDIFF_MAX_eq. pose proof SIZE_MOD_eq.
  destruct (Z.eqb_spec (sz this) 0) as [Hz | Hnz].
  - rewrite (reserve_spec 4 this h l R) by lia. reflexivity.
  - destruct R as [[-> ->] | (b & slots & A)]; [simpl in Hnz; lia |].
    pose proof (allocated_cap_range _ _ _ _ _ A) as Hc.
    pose proof (allocated_sz_nonneg _ _ _ _ _ A) as Hs.
    pose proof (al_room _ _ _ _ _ A) as Hroom.
    pose proof (al_cap_min _ _ _ _ _ A) as Hmin.
    rewrite size_sub_1 by lia.
    destruct (Z.eqb_spec (sz this) (cap this - 1)) as [Hfull | Hnot].
    + destruct (HN ltac:(lia) Hfull) as (-> & HN1 & HN2).
      rewrite (reserve_spec full this h l) by (lia || (right; eauto)).
      reflexivity.
    + reflexivity.
Qed.

(** After a successful growth step the container is allocated, holds the
    same sequence and has room for one more element. *)
Lemma grow_result_Return full this h l this1 h1 :
  repr this h l ->
  (0 < sz this -> sz this = cap this - 1 -> sz this + 1 < full) ->
  grow_result full this h l = Return tt this1 h1 ->
  (exists b1 slots1, allocated this1 h1 l b1 slots1) /\
  sz this1 + 1 < cap this1 /\
  leaked h1 = leaked h /\ frame this h h1 /\
  (data this1 = data this \/ exists b1, data this1 = Block b1 /\ blocks h !! b1 = None) /\
  match growth full this with
  | None => this1 = this /\ h1 = h
  | Some n =>
      this1 = reserved l n (fresh (dom (blocks h))) /\ h1 = reserved_heap this h l n /\
      grants n = true /\ forallb copy_ok l = true
  end.
Proof.
  intros R Hfull. unfold grow_result.
  pose proof (repr_sz _ _ _ R) as Hlen.
  assert (Hn : forall n, growth full this = Some n -> 4 <= n /\ sz this + 1 < n).
  { unfold growth, empty. intros n.
    destruct (Z.eqb_spec (sz this) 0) as [Hz | Hnz].
    - intros [= <-]. lia.
    - destruct (Z.eqb_spec (sz this) (cap this - 1)) as [Hf | Hnf]; [| discriminate].
      intros [= <-].
      destruct R as [[-> ->] | (b & slots & A)]; [simpl in Hnz; lia |].
      pose proof (al_cap_min _ _ _ _ _ A).
      specialize (Hfull ltac:(lia) Hf). lia. }
  destruct (growth full this) as [n |] eqn:Hg.
  - destruct (Hn n eq_refl) as [Hmin Hroom].
    destruct (grants n) eqn:Hgr; [| discriminate].
    destruct (forallb copy_ok l) eqn:Hall; [| discriminate].
    intros [= <- <-].
    unfold grants in Hgr. apply andb_prop in Hgr as [Hle _]. apply Z.leb_le in Hle.
    pose proof (reserved_heap_repr this h l n R Hmin Hle ltac:(lia)) as A.
    split; [eauto |]. split; [simpl; lia |].
    split; [apply reserved_heap_leaked |].
    split; [apply reserved_heap_frame |].
    split; [right; eexists; split; [reflexivity | apply fresh_block_free] |].
    repeat split; reflexivity.
  - intros [= <- <-].
    unfold growth, empty in Hg.
    destruct (Z.eqb_spec (sz this) 0) as [Hz | Hnz]; [discriminate |].
    destruct (Z.eqb_spec (sz this) (cap this - 1)) as [Hf | Hnf]; [discriminate |].
    destruct R as [[-> ->] | (b & slots & A)]; [simpl in Hnz; lia |].
    pose proof (al_room _ _ _ _ _ A).
    split; [eauto |]. split; [lia |]. split; [reflexivity |].
    split; [intros ? ? ?; reflexivity |]. split; [now left |]. split; reflexivity.
Qed.

(** ** [push_back] and [push_front] *)

Lemma grow_result_cases full this h l :
  (exists this1 h1, grow_result full this h l = Return tt this1 h1) \/
  (exists e, grow_result full this h l = Throw e this h).
Proof.
  unfold grow_result.
  destruct (growth full this); [| left; eauto].
  destruct (grants _); [| right; eauto].
  destruct (forallb _ _); [left | right]; eauto.
Qed.

Lemma size_mul_2 z : 0 <= z <= PTRDIFF_MAX -> size_mul z 2 = 2 * z.
Proof.
  intros. unfold size_mul. pose proof PTRDIFF_MAX_eq. pose proof SIZE_MOD_eq.
  rewrite wrap_small; lia.
Qed.

(** Reading through a reference gives the value it designates, and is
    undefined where it designates none. *)
Lemma read_ref_eval value this h :
  read_ref value this h
  = match resolve value h with
    | Some v => Return v this h
    | None => Undefined
    end.
Proof.
  destruct value as [v | p i]; [reflexivity |].
  unfold read_ref, read, resolve. now destruct (slot p i h) as [[v |] |].
Qed.

Lemma construct_from_eval {A} p i value (k : unit -> M T A) this h :
  (construct_from p i value ≫= k) this h
  = match resolve value h with
    | Some v => (construct_at p i v ≫= k) this h
    | None => Undefined
    end.
Proof.
  unfold construct_from, mbind, M_bind, M_bind_def.
  rewrite read_ref_eval. now destruct (resolve value h).
Qed.

Lemma push_back_eval_ref value this h l :
  repr this h l -> push_back value this h = push_back_outcome value this h l.
Proof.
  intros R. unfold push_back, push_back_outcome.
  pose proof PTRDIFF_MAX_eq. pose proof SIZE_MOD_eq. pose proof sizeof_T_pos.
  assert (Hfull : 0 < sz this -> sz this = cap this - 1 ->
            size_mul (cap this) 2 = 2 * cap this /\ sz this + 1 < 2 * cap this /\
            2 * cap this * sizeof_T < SIZE_MOD).
  { intros Hpos Hf.
    destruct R as [[-> ->] | (b & slots & A)]; [simpl in Hpos; lia |].
    pose proof (allocated_cap_range _ _ _ _ _ A).
    pose proof (al_cap_max _ _ _ _ _ A).
    rewrite size_mul_2 by lia. lia. }
  erewrite bind_Return by reflexivity.
  pose proof (grow_eval _ _ this h l R Hfull) as Eg.
  destruct (grow_result_cases (2 * cap this) this h l) as [(this1 & h1 & E) | (e & E)];
    rewrite E in Eg |- *.
  - erewrite bind_Return by exact Eg.
    destruct (grow_result_Return _ _ _ _ _ _ R ltac:(intros; apply Hfull; assumption) E)
      as ((b1 & slots1 & A1) & Hroom & _).
    erewrite bind_Return by reflexivity.
    rewrite construct_from_eval.
    destruct (resolve value h1) as [v |]; [| reflexivity].
    apply (place_back_allocated v this1 h1 l b1 slots1 A1 Hroom).
  - erewrite bind_Throw by exact Eg. reflexivity.
Qed.

Lemma push_front_eval_ref value this h l :
  repr this h l -> push_front value this h = push_front_outcome value this h l.
Proof.
  intros R. unfold push_front, push_front_outcome.
  pose proof PTRDIFF_MAX_eq. pose proof SIZE_MOD_eq. pose proof sizeof_T_pos.
  assert (Hfull : 0 < sz this -> sz this = cap this - 1 ->
            size_mul (sz this) 2 = 2 * sz this /\ sz this + 1 < 2 * sz this /\
            2 * sz this * sizeof_T < SIZE_MOD).
  { intros Hpos Hf.
    destruct R as [[-> ->] | (b & slots & A)]; [simpl in Hpos; lia |].
    pose proof (allocated_cap_range _ _ _ _ _ A).
    pose proof (al_cap_max _ _ _ _ _ A).
    pose proof (al_cap_min _ _ _ _ _ A).
    rewrite size_mul_2 by lia. split; [reflexivity |]. split; [lia |]. nia. }
  erewrite bind_Return by reflexivity.
  pose proof (grow_eval _ _ this h l R Hfull) as Eg.
  destruct (grow_result_cases (2 * sz this) this h l) as [(this1 & h1 & E) | (e & E)];
    rewrite E in Eg |- *.
  - erewrite bind_Return by exact Eg.
    destruct (grow_result_Return _ _ _ _ _ _ R ltac:(intros; apply Hfull; assumption) E)
      as ((b1 & slots1 & A1) & Hroom & _).
    pose proof (allocated_cap_range _ _ _ _ _ A1) as Hc1.
    pose proof (al_begin _ _ _ _ _ A1) as Hb1.
    erewrite bind_Return by reflexivity.
    erewrite bind_Return
      by (unfold ub; rewrite size_rem_retreat by lia; reflexivity).
    rewrite construct_from_eval.
    destruct (resolve value h1) as [v |]; [| reflexivity].
    destruct (place_front_allocated v this1 h1 l b1 slots1 A1 Hroom) as [E1 _].
    etransitivity; [| exact E1]. symmetry.
    erewrite bind_Return by reflexivity.
    erewrite bind_Return
      by (unfold ub; rewrite size_rem_retreat by lia; reflexivity).
    reflexivity.
  - erewrite bind_Throw by exact Eg. reflexivity.
Qed.

(** A push of an object outside the heap. *)
Lemma push_back_eval v this h l :
  repr this h l -> push_back (outside v) this h = push_back_result v this h l.
Proof.
  intros R. rewrite (push_back_eval_ref _ this h l R).
  unfold push_back_outcome, push_back_result.
  now destruct (grow_result (2 * cap this) this h l).
Qed.

Lemma push_front_eval v this h l :
  repr this h l -> push_front (outside v) this h = push_front_result v this h l.
Proof.
  intros R. rewrite (push_front_eval_ref _ this h l R).
  unfold push_front_outcome, push_front_result.
  now destruct (grow_result (2 * sz this) this h l).
Qed.

(** ** Transitions *)

Lemma frame_refl this h : frame this h h.
Proof. intros b _ _. reflexivity. Qed.

Lemma transition_refl this h l : repr this h l -> transition this h this h l.
Proof.
  intros R. constructor; [exact R | reflexivity | apply frame_refl | now left].
Qed.

Lemma transition_trans this h this1 h1 l1 this2 h2 l2 :
  transition this h this1 h1 l1 -> transition this1 h1 this2 h2 l2 ->
  transition this h this2 h2 l2.
Proof.
  intros [R1 L1 F1 O1] [R2 L2 F2 O2].
  assert (Hlive : forall b, data this <> Block b -> is_Some (blocks h !! b) ->
            data this1 <> Block b).
  { intros b Hne Hl E. destruct O1 as [O | [O | (b1 & O & Hf)]].
    - congruence.
    - congruence.
    - rewrite O in E. injection E as ->. rewrite Hf in Hl. now destruct Hl. }
  constructor.
  - exact R2.
  - congruence.
  - intros b Hne Hl. rewrite F2.
    + now apply F1.
    + now apply Hlive.
    + now rewrite F1.
  - destruct O2 as [O | [O | (b2 & O & Hf)]].
    + rewrite O. exact O1.
    + right; now left.
    + destruct (decide (data this = Block b2)) as [E | Hne]; [left; congruence |].
      right; right. exists b2. split; [exact O |].
      destruct (blocks h !! b2) eqn:Hb; [| reflexivity].
      rewrite <- Hf. symmetry. rewrite <- Hb. apply F1; [exact Hne | rewrite Hb; eauto].
Qed.

(** A transition of one container leaves a separate container as it is. *)
Lemma transition_other this h this' h' l' oth lo :
  transition this h this' h' l' -> repr oth h lo -> separate oth this ->
  repr oth h' lo /\ separate oth this'.
Proof.
  intros [R' L' F' O'] Ro Hsep.
  destruct Ro as [[-> ->] | (bo & slots & Ao)].
  - split; [now left | now left].
  - assert (Hne : data this <> Block bo).
    { destruct Hsep as [Hn | Hn]; rewrite (al_data _ _ _ _ _ Ao) in Hn; congruence. }
    assert (Hlive : is_Some (blocks h !! bo)) by (rewrite (al_block _ _ _ _ _ Ao); eauto).
    split.
    + apply (repr_frame _ h); [right; eauto |].
      intros b Hb. rewrite (al_data _ _ _ _ _ Ao) in Hb. injection Hb as <-.
      now apply F'.
    + right. rewrite (al_data _ _ _ _ _ Ao).
      destruct O' as [O | [O | (b1 & O & Hf)]].
      * congruence.
      * congruence.
      * rewrite O. intros [= ->]. rewrite Hf in Hlive. now destruct Hlive.
Qed.

Lemma transition_set_slot this h this' l l' i o :
  repr this h l -> data this' = data this ->
  repr this' (set_slot (data this) i o h) l' ->
  transition this h this' (set_slot (data this) i o h) l'.
Proof.
  intros R Hd R'. constructor.
  - exact R'.
  - apply leaked_set_slot.
  - apply frame_set_slot.
  - now left.
Qed.

Lemma repr_allocated this h l b slots : allocated this h l b slots -> repr this h l.
Proof. intros A. right. eauto. Qed.

Lemma repr_nonempty this h l :
  repr this h l -> 0 < sz this -> exists b slots, allocated this h l b slots.
Proof.
  intros [[-> ->] | (b & slots & A)] Hpos; [simpl in Hpos; lia | eauto].
Qed.

(** [pop_back] on a non-empty container. *)
Lemma pop_back_spec this h l v :
  repr this h (l ++ [v]) ->
  exists this' h',
    pop_back this h = Return tt this' h' /\ transition this h this' h' l /\
    cap this' = cap this /\ ind_begin this' = ind_begin this /\ sz this' = sz this - 1.
Proof.
  intros R.
  destruct (repr_nonempty _ _ _ R) as (b & slots & A).
  { rewrite (repr_sz _ _ _ R), length_app. simpl. lia. }
  destruct (pop_back_allocated _ _ _ _ _ _ A) as [E A'].
  eexists _, _. split; [exact E |]. split; [| repeat split].
  eapply transition_set_slot; [exact R | reflexivity | eapply repr_allocated, A'].
Qed.

(** [pop_front] on a non-empty container. *)
Lemma pop_front_spec this h l v :
  repr this h (v :: l) ->
  exists this' h',
    pop_front this h = Return tt this' h' /\ transition this h this' h' l /\
    cap this' = cap this /\ ind_end this' = ind_end this /\ sz this' = sz this - 1.
Proof.
  intros R.
  destruct (repr_nonempty _ _ _ R) as (b & slots & A).
  { rewrite (repr_sz _ _ _ R). simpl. lia. }
  destruct (pop_front_allocated _ _ _ _ _ _ A) as [E A'].
  eexists _, _. split; [exact E |]. split; [| repeat split].
  eapply transition_set_slot; [exact R | reflexivity | eapply repr_allocated, A'].
Qed.

(** A pop on an empty container fails its assertion. *)
Lemma pop_back_empty this h : sz this <= 0 -> pop_back this h = Abort.
Proof.
  intros Hz. unfold pop_back. munfold.
  destruct (Z.ltb_spec 0 (sz this)); [lia | reflexivity].
Qed.

Lemma pop_front_empty this h : sz this <= 0 -> pop_front this h = Abort.
Proof.
  intros Hz. unfold pop_front. munfold.
  destruct (Z.ltb_spec 0 (sz this)); [lia | reflexivity].
Qed.

(** [clear] as a transition. *)
Lemma clear_spec this h l :
  repr this h l ->
  clear this h = Return tt circular_buffer_ctor (release (data this) h) /\
  transition this h circular_buffer_ctor (release (data this) h) [].
Proof.
  intros R. split; [now apply (clear_repr _ _ l) |].
  constructor.
  - apply repr_ctor.
  - unfold release. now destruct (data this).
  - intros b Hne _. unfold release. destruct (data this) as [| b0]; [reflexivity |].
    simpl. apply lookup_delete_ne. congruence.
  - right; now left.
Qed.

Lemma grow_result_transition full this h l this1 h1 :
  repr this h l ->
  (0 < sz this -> sz this = cap this - 1 -> sz this + 1 < full) ->
  grow_result full this h l = Return tt this1 h1 ->
  transition this h this1 h1 l /\ sz this1 + 1 < cap this1 /\
  sz this1 = sz this /\ cap this1 = grown_cap full this.
Proof.
  intros R Hfull E.
  destruct (grow_result_Return _ _ _ _ _ _ R Hfull E)
    as ((b1 & slots1 & A1) & Hroom & Hleak & Hframe & Hown & Hg).
  split; [| split; [exact Hroom |]].
  - constructor; [eapply repr_allocated, A1 | exact Hleak | exact Hframe |].
    destruct Hown as [O | O]; [now left | right; now right].
  - unfold grown_cap. destruct (growth full this) as [n |].
    + destruct Hg as (-> & _). simpl. split; [| reflexivity].
      symmetry. apply (repr_sz _ _ _ R).
    + destruct Hg as (-> & _). split; reflexivity.
Qed.

Lemma full_back this h l :
  repr this h l -> 0 < sz this -> sz this = cap this - 1 -> sz this + 1 < 2 * cap this.
Proof. lia. Qed.

Lemma full_front this h l :
  repr this h l -> 0 < sz this -> sz this = cap this - 1 -> sz this + 1 < 2 * sz this.
Proof.
  intros R Hpos Hf. destruct (repr_nonempty _ _ _ R Hpos) as (b & slots & A).
  pose proof (al_cap_min _ _ _ _ _ A). lia.
Qed.

Lemma place_back_transition v this h l b slots :
  allocated this h l b slots -> sz this + 1 < cap this ->
  transition this h (placed_back this) (set_slot (data this) (ind_end this) (Some v) h)
    (l ++ [v]).
Proof.
  intros A Hroom.
  destruct (place_back_allocated v _ _ _ _ _ A Hroom) as [_ A'].
  eapply transition_set_slot;
    [eapply repr_allocated, A | reflexivity | eapply repr_allocated, A'].
Qed.

Lemma place_front_transition v this h l b slots :
  allocated this h l b slots -> sz this + 1 < cap this ->
  transition this h (placed_front this)
    (set_slot (data this) ((ind_begin this - 1) mod cap this) (Some v) h) (v :: l).
Proof.
  intros A Hroom.
  destruct (place_front_allocated v _ _ _ _ _ A Hroom) as [_ A'].
  eapply transition_set_slot;
    [eapply repr_allocated, A | reflexivity | eapply repr_allocated, A'].
Qed.

(** [push_back]: the element is appended, or the push throws and the
    container still holds what it held. *)
Lemma push_back_spec v this h l :
  repr this h l ->
  match push_back (outside v) this h with
  | Return _ this' h' =>
      transition this h this' h' (l ++ [v]) /\ copy_ok v = true /\
      sz this' = sz this + 1 /\ cap this' = grown_cap (2 * cap this) this
  | Throw e this' h' =>
      transition this h this' h' l /\
      (this' = this /\ h' = h \/
       copy_ok v = false /\ cap this' = grown_cap (2 * cap this) this)
  | _ => False
  end.
Proof.
  intros R. rewrite (push_back_eval v this h l R). unfold push_back_result.
  destruct (grow_result_cases (2 * cap this) this h l) as [(this1 & h1 & E) | (e & E)];
    rewrite E.
  - destruct (grow_result_transition _ _ _ _ _ _ R (full_back _ _ _ R) E)
      as (Tr & Hroom & Hsz & Hcap).
    destruct (grow_result_Return _ _ _ _ _ _ R (full_back _ _ _ R) E)
      as ((b1 & slots1 & A1) & _).
    destruct (copy_ok v) eqn:Hcopy.
    + split; [| split; [reflexivity | split]].
      * eapply transition_trans; [exact Tr |].
        eapply place_back_transition; eassumption.
      * simpl. lia.
      * simpl. exact Hcap.
    + split; [exact Tr | right; split; [reflexivity | exact Hcap]].
  - split; [now apply transition_refl | now left].
Qed.

(** [push_front]: the element is prepended, or the push throws and the
    container still holds what it held. *)
Lemma push_front_spec v this h l :
  repr this h l ->
  match push_front (outside v) this h with
  | Return _ this' h' =>
      transition this h this' h' (v :: l) /\ copy_ok v = true /\
      sz this' = sz this + 1 /\ cap this' = grown_cap (2 * sz this) this
  | Throw e this' h' =>
      transition this h this' h' l /\
      (this' = this /\ h' = h \/
       copy_ok v = false /\ cap this' = grown_cap (2 * sz this) this)
  | _ => False
  end.
Proof.
  intros R. rewrite (push_front_eval v this h l R). unfold push_front_result.
  destruct (grow_result_cases (2 * sz this) this h l) as [(this1 & h1 & E) | (e & E)];
    rewrite E.
  - destruct (grow_result_transition _ _ _ _ _ _ R (full_front _ _ _ R) E)
      as (Tr & Hroom & Hsz & Hcap).
    destruct (grow_result_Return _ _ _ _ _ _ R (full_front _ _ _ R) E)
      as ((b1 & slots1 & A1) & _).
    destruct (copy_ok v) eqn:Hcopy.
    + split; [| split; [reflexivity | split]].
      * eapply transition_trans; [exact Tr |].
        eapply place_front_transition; eassumption.
      * simpl. lia.
      * simpl. exact Hcap.
    + split; [exact Tr | right; split; [reflexivity | exact Hcap]].
  - split; [now apply transition_refl | now left].
Qed.

(** *** Pushes of a reference *)

(** A reference that designates an object outside the block of the
    container designates the same object after the growth step. *)
Lemma resolve_grow full value this h l this1 h1 w :
  grow_result full this h l = Return tt this1 h1 ->
  resolve value h = Some w ->
  growth full this = None \/ apart value (data this) ->
  resolve value h1 = Some w.
Proof.
  unfold grow_result. intros E Hw Hcase.
  destruct (growth full this) as [n |]; [| now injection E as <- <-].
  destruct Hcase as [Hn | Hap]; [discriminate |].
  destruct (grants n); [| discriminate]. destruct (forallb copy_ok l); [| discriminate].
  injection E as <- <-.
  destruct value as [v | p i]; [exact Hw |].
  unfold resolve, slot in *. destruct p as [| b0]; [discriminate |].
  destruct (blocks h !! b0) as [slots0 |] eqn:Hb0; [| discriminate].
  rewrite (reserved_heap_frame this h l n b0 (not_eq_sym Hap)) by now rewrite Hb0.
  now rewrite Hb0.
Qed.

(** After a reallocation, a reference to an element of the block that the
    container owned designates nothing: the block is gone. *)
Lemma resolve_released full this h l n this1 h1 i :
  repr this h l -> growth full this = Some n ->
  grow_result full this h l = Return tt this1 h1 ->
  resolve (element_at (data this) i) h1 = None.
Proof.
  intros R Hg E. unfold grow_result in E. rewrite Hg in E.
  destruct (grants n); [| discriminate]. destruct (forallb copy_ok l); [| discriminate].
  injection E as <- <-.
  unfold resolve, slot, reserved_heap, release.
  destruct (data this) as [| b0]; [reflexivity |].
  simpl. now rewrite lookup_delete_eq.
Qed.

(** A push given a reference to an object that outlives its growth step
    is the push of that object. *)
Lemma push_back_as_outside value v this h l :
  repr this h l -> resolve value h = Some v ->
  outlives_growth value (2 * cap this) this ->
  push_back value this h = push_back (outside v) this h.
Proof.
  intros R Hv Hcase.
  rewrite (push_back_eval_ref value this h l R), (push_back_eval_ref (outside v) this h l R).
  unfold push_back_outcome.
  destruct (grow_result (2 * cap this) this h l) as [[] this1 h1 | | | |] eqn:E;
    try reflexivity.
  now rewrite (resolve_grow _ _ _ _ _ _ _ _ E Hv Hcase).
Qed.

Lemma push_front_as_outside value v this h l :
  repr this h l -> resolve value h = Some v ->
  outlives_growth value (2 * sz this) this ->
  push_front value this h = push_front (outside v) this h.
Proof.
  intros R Hv Hcase.
  rewrite (push_front_eval_ref value this h l R), (push_front_eval_ref (outside v) this h l R).
  unfold push_front_outcome.
  destruct (grow_result (2 * sz this) this h l) as [[] this1 h1 | | | |] eqn:E;
    try reflexivity.
  now rewrite (resolve_grow _ _ _ _ _ _ _ _ E Hv Hcase).
Qed.

(** [push_back] with any reference: an element is appended, or the push
    throws and the container still holds what it held; the behaviour is
    undefined only with a reference to an element. *)
Lemma push_back_spec_ref value this h l :
  repr this h l ->
  match push_back value this h with
  | Return _ this' h' =>
      exists v, transition this h this' h' (l ++ [v]) /\ copy_ok v = true /\
        sz this' = sz this + 1 /\ cap this' = grown_cap (2 * cap this) this /\
        (forall w, resolve value h = Some w ->
           growth (2 * cap this) this = None \/ apart value (data this) -> w = v)
  | Throw e this' h' =>
      transition this h this' h' l /\
      (this' = this /\ h' = h \/ cap this' = grown_cap (2 * cap this) this)
  | Undefined =>
      (exists p i, value = element_at p i) /\
      (forall w, resolve value h = Some w ->
         growth (2 * cap this) this = None \/ apart value (data this) -> False)
  | Abort | OutOfFuel => False
  end.
Proof.
  intros R. rewrite (push_back_eval_ref value this h l R). unfold push_back_outcome.
  destruct (grow_result_cases (2 * cap this) this h l) as [(this1 & h1 & E) | (e & E)];
    rewrite E.
  - destruct (grow_result_transition _ _ _ _ _ _ R (full_back _ _ _ R) E)
      as (Tr & Hroom & Hsz & Hcap).
    destruct (grow_result_Return _ _ _ _ _ _ R (full_back _ _ _ R) E)
      as ((b1 & slots1 & A1) & _).
    destruct (resolve value h1) as [v |] eqn:Hv.
    2:{ split; [destruct value as [v | p i]; [discriminate | eauto] |].
        intros w Hw Hcase. rewrite (resolve_grow _ _ _ _ _ _ _ _ E Hw Hcase) in Hv.
        discriminate. }
    destruct (copy_ok v) eqn:Hcopy.
    + exists v. split; [| split; [exact Hcopy | split; [| split]]].
      * eapply transition_trans; [exact Tr |].
        eapply place_back_transition; eassumption.
      * simpl. lia.
      * simpl. exact Hcap.
      * intros w Hw Hcase. rewrite (resolve_grow _ _ _ _ _ _ _ _ E Hw Hcase) in Hv.
        congruence.
    + split; [exact Tr | right; exact Hcap].
  - split; [now apply transition_refl | now left].
Qed.

Lemma push_front_spec_ref value this h l :
  repr this h l ->
  match push_front value this h with
  | Return _ this' h' =>
      exists v, transition this h this' h' (v :: l) /\ copy_ok v = true /\
        sz this' = sz this + 1 /\ cap this' = grown_cap (2 * sz this) this /\
        (forall w, resolve value h = Some w ->
           growth (2 * sz this) this = None \/ apart value (data this) -> w = v)
  | Throw e this' h' =>
      transition this h this' h' l /\
      (this' = this /\ h' = h \/ cap this' = grown_cap (2 * sz this) this)
  | Undefined =>
      (exists p i, value = element_at p i) /\
      (forall w, resolve value h = Some w ->
         growth (2 * sz this) this = None \/ apart value (data this) -> False)
  | Abort | OutOfFuel => False
  end.
Proof.
  intros R. rewrite (push_front_eval_ref value this h l R). unfold push_front_outcome.
  destruct (grow_result_cases (2 * sz this) this h l) as [(this1 & h1 & E) | (e & E)];
    rewrite E.
  - destruct (grow_result_transition _ _ _ _ _ _ R (full_front _ _ _ R) E)
      as (Tr & Hroom & Hsz & Hcap).
    destruct (grow_result_Return _ _ _ _ _ _ R (full_front _ _ _ R) E)
      as ((b1 & slots1 & A1) & _).
    destruct (resolve value h1) as [v |] eqn:Hv.
    2:{ split; [destruct value as [v | p i]; [discriminate | eauto] |].
        intros w Hw Hcase. rewrite (resolve_grow _ _ _ _ _ _ _ _ E Hw Hcase) in Hv.
        discriminate. }
    destruct (copy_ok v) eqn:Hcopy.
    + exists v. split; [| split; [exact Hcopy | split; [| split]]].
      * eapply transition_trans; [exact Tr |].
        eapply place_front_transition; eassumption.
      * simpl. lia.
      * simpl. exact Hcap.
      * intros w Hw Hcase. rewrite (resolve_grow _ _ _ _ _ _ _ _ E Hw Hcase) in Hv.
        congruence.
    + split; [exact Tr | right; exact Hcap].
  - split; [now apply transition_refl | now left].
Qed.

(** ** Element access *)

Lemma operator_idx_spec this h l (i : nat) v :
  repr this h l -> l !! i = Some v ->
  operator_idx (Z.of_nat i) this h = Return v this h.
Proof.
  intros R Hv. pose proof (lookup_lt_Some _ _ _ Hv) as Hi.
  destruct (repr_nonempty _ _ _ R) as (b & slots & A).
  { rewrite (repr_sz _ _ _ R). lia. }
  pose proof (allocated_cap_range _ _ _ _ _ A) as Hc.
  pose proof (al_begin _ _ _ _ _ A) as Hb.
  pose proof (al_sz _ _ _ _ _ A) as Hsz.
  pose proof (al_room _ _ _ _ _ A) as Hroom.
  pose proof PTRDIFF_MAX_eq. pose proof SIZE_MOD_eq.
  unfold operator_idx.
  erewrite bind_Return by reflexivity.
  erewrite bind_Return
    by (unfold assert_; destruct (Z.ltb_spec (Z.of_nat i) (sz this)); [reflexivity | lia]).
  erewrite bind_Return
    by (unfold ub; rewrite size_rem_add by lia; reflexivity).
  apply read_live. fold (physical_slot this (Z.of_nat i)).
  rewrite (allocated_slot _ _ _ _ _ _ A) by lia. now rewrite Hv.
Qed.

Lemma operator_idx_out_of_range this h i :
  sz this <= i -> operator_idx i this h = Abort.
Proof.
  intros Hi. unfold operator_idx. munfold.
  destruct (Z.ltb_spec i (sz this)); [lia | reflexivity].
Qed.

(** [operator[]] as a reference: the reference to the slot of the element,
    which designates the element. *)
Lemma operator_idx_ref_spec this h l (i : nat) v :
  repr this h l -> l !! i = Some v ->
  operator_idx_ref (Z.of_nat i) this h
  = Return (element_at (data this) (physical_slot this (Z.of_nat i))) this h /\
  resolve (element_at (data this) (physical_slot this (Z.of_nat i))) h = Some v.
Proof.
  intros R Hv. pose proof (lookup_lt_Some _ _ _ Hv) as Hi.
  destruct (repr_nonempty _ _ _ R) as (b & slots & A).
  { rewrite (repr_sz _ _ _ R). lia. }
  pose proof (allocated_cap_range _ _ _ _ _ A) as Hc.
  pose proof (al_begin _ _ _ _ _ A) as Hb.
  pose proof (al_sz _ _ _ _ _ A) as Hsz.
  pose proof (al_room _ _ _ _ _ A) as Hroom.
  pose proof PTRDIFF_MAX_eq. pose proof SIZE_MOD_eq.
  split.
  - unfold operator_idx_ref.
    erewrite bind_Return by reflexivity.
    erewrite bind_Return
      by (unfold assert_; destruct (Z.ltb_spec (Z.of_nat i) (sz this)); [reflexivity | lia]).
    erewrite bind_Return
      by (unfold ub; rewrite size_rem_add by lia; reflexivity).
    reflexivity.
  - unfold resolve. rewrite (allocated_slot _ _ _ _ _ _ A) by lia. now rewrite Hv.
Qed.

Lemma operator_idx_ref_out_of_range this h i :
  sz this <= i -> operator_idx_ref i this h = Abort.
Proof.
  intros Hi. unfold operator_idx_ref. munfold.
  destruct (Z.ltb_spec i (sz this)); [lia | reflexivity].
Qed.

Lemma front_spec this h l v :
  repr this h (v :: l) -> front this h = Return v this h.
Proof.
  intros R.
  destruct (repr_nonempty _ _ _ R) as (b & slots & A).
  { rewrite (repr_sz _ _ _ R). simpl. lia. }
  pose proof (allocated_cap_range _ _ _ _ _ A) as Hc.
  pose proof (al_begin _ _ _ _ _ A) as Hb.
  pose proof (al_sz _ _ _ _ _ A) as Hsz. simpl in Hsz.
  unfold front.
  erewrite bind_Return by reflexivity.
  erewrite bind_Return
    by (unfold assert_; destruct (Z.ltb_spec 0 (sz this)); [reflexivity | lia]).
  apply read_live.
  assert (E0 : physical_slot this (Z.of_nat 0) = ind_begin this).
  { unfold physical_slot. simpl. rewrite Z.add_0_r. apply Z.mod_small. lia. }
  rewrite <- E0. now rewrite (allocated_slot _ _ _ _ _ _ A) by lia.
Qed.

Lemma back_spec this h l v :
  repr this h (l ++ [v]) -> back this h = Return v this h.
Proof.
  intros R.
  destruct (repr_nonempty _ _ _ R) as (b & slots & A).
  { rewrite (repr_sz _ _ _ R), length_app. simpl. lia. }
  pose proof (allocated_cap_range _ _ _ _ _ A) as Hc.
  pose proof (al_begin _ _ _ _ _ A) as Hb.
  pose proof (al_room _ _ _ _ _ A) as Hroom.
  pose proof (al_sz _ _ _ _ _ A) as Hsz. rewrite length_app in Hsz. simpl in Hsz.
  unfold back.
  erewrite bind_Return by reflexivity.
  erewrite bind_Return
    by (unfold assert_; destruct (Z.ltb_spec 0 (sz this)); [reflexivity | lia]).
  erewrite bind_Return.
  2:{ unfold ub. rewrite size_rem_retreat.
      - reflexivity.
      - lia.
      - rewrite (al_end _ _ _ _ _ A). apply physical_slot_range. lia. }
  apply read_live. rewrite (al_end _ _ _ _ _ A).
  replace (sz this) with (sz this - 1 + 1) at 1 by lia.
  rewrite physical_slot_pred by lia.
  replace (sz this - 1) with (Z.of_nat (length l)) by lia.
  rewrite (allocated_slot _ _ _ _ _ _ A) by lia.
  now rewrite list_lookup_middle.
Qed.

Lemma front_empty this h : sz this <= 0 -> front this h = Abort.
Proof.
  intros Hz. unfold front. munfold.
  destruct (Z.ltb_spec 0 (sz this)); [lia | reflexivity].
Qed.

Lemma back_empty this h : sz this <= 0 -> back this h = Abort.
Proof.
  intros Hz. unfold back. munfold.
  destruct (Z.ltb_spec 0 (sz this)); [lia | reflexivity].
Qed.

(** ** When a push returns *)

Lemma growth_bound full this n :
  growth full this = Some n ->
  n = 4 \/ (sz this <> 0 /\ sz this = cap this - 1 /\ n = full).
Proof.
  unfold growth, empty. destruct (Z.eqb_spec (sz this) 0); [intros [= <-]; now left |].
  destruct (Z.eqb_spec (sz this) (cap this - 1)); [| discriminate].
  intros [= <-]. now right.
Qed.

Lemma growth_range full this h l n :
  repr this h l -> growth full this = Some n ->
  (full = 2 * cap this \/ full = 2 * sz this) ->
  4 <= n <= Z.max 4 (2 * (sz this + 1)).
Proof.
  intros R Hn Hfull.
  destruct (growth_bound _ _ _ Hn) as [-> | (Hnz & Hf & ->)]; [lia |].
  pose proof (repr_sz _ _ _ R).
  destruct (repr_nonempty _ _ _ R ltac:(lia)) as (b & slots & A).
  pose proof (al_cap_min _ _ _ _ _ A). lia.
Qed.

Lemma push_back_returns v this h l :
  repr this h l -> forallb copy_ok l = true -> copy_ok v = true ->
  (forall n, growth (2 * cap this) this = Some n -> grants n = true) ->
  exists this' h', push_back (outside v) this h = Return tt this' h'.
Proof.
  intros R Hall Hv Hg. rewrite (push_back_eval v this h l R).
  unfold push_back_result, grow_result.
  destruct (growth (2 * cap this) this) as [n |].
  - rewrite (Hg n eq_refl), Hall, Hv. eauto.
  - rewrite Hv. eauto.
Qed.

Lemma push_front_returns v this h l :
  repr this h l -> forallb copy_ok l = true -> copy_ok v = true ->
  (forall n, growth (2 * sz this) this = Some n -> grants n = true) ->
  exists this' h', push_front (outside v) this h = Return tt this' h'.
Proof.
  intros R Hall Hv Hg. rewrite (push_front_eval v this h l R).
  unfold push_front_result, grow_result.
  destruct (growth (2 * sz this) this) as [n |].
  - rewrite (Hg n eq_refl), Hall, Hv. eauto.
  - rewrite Hv. eauto.
Qed.

(** ** The container against the list model *)







(** ** Refinement of the list model *)


(** C8.  For two iterators into the same ring with the same snapshot of
    [ind_begin], [a < b] holds exactly when the logical position of [a] is
    below that of [b], and [a - b] is the difference of the logical
    positions, where the logical position is
    [(ind - ind_begin + cap) mod cap]; the physical indices are not
    compared. *)
Theorem iterator_order_by_logical_position (a b : iterator) :
  basic_iterator.valid a -> basic_iterator.valid b ->
  basic_iterator.cap a = basic_iterator.cap b ->
  basic_iterator.ind_begin a = basic_iterator.ind_begin b ->
  basic_iterator.get_pos a = Some (basic_iterator.logical_position a) /\
  basic_iterator.ltb a b
  = Some (basic_iterator.logical_position a <? basic_iterator.logical_position b) /\
  basic_iterator.diff a b
  = Some (basic_iterator.logical_position a - basic_iterator.logical_position b).
Proof.
  intros (Hca & Hia & Hba) (Hcb & Hib & Hbb) Hcap Hbeg.
  pose proof PTRDIFF_MAX_eq. pose proof SIZE_MOD_eq.
  assert (Hpos : forall c, basic_iterator.valid c ->
            basic_iterator.get_pos c = Some (basic_iterator.logical_position c)).
  { intros c (Hc & Hi & Hb). unfold basic_iterator.get_pos, basic_iterator.logical_position.
    rewrite size_rem_get_pos by lia. f_equal.
    replace (basic_iterator.ind c - basic_iterator.ind_begin c + basic_iterator.cap c)
      with (basic_iterator.ind c - basic_iterator.ind_begin c + 1 * basic_iterator.cap c)
      by lia.
    now rewrite Z_mod_plus_full. }
  pose proof (Hpos a ltac:(repeat split; lia)) as Ea.
  pose proof (Hpos b ltac:(repeat split; lia)) as Eb.
  split; [exact Ea |].
  unfold basic_iterator.ltb, basic_iterator.diff. rewrite Ea, Eb. simpl.
  split; [reflexivity |]. f_equal.
  pose proof (mod_range (basic_iterator.cap a)
                (basic_iterator.ind a - basic_iterator.ind_begin a + basic_iterator.cap a)
                ltac:(lia)) as Ra.
  pose proof (mod_range (basic_iterator.cap b)
                (basic_iterator.ind b - basic_iterator.ind_begin b + basic_iterator.cap b)
                ltac:(lia)) as Rb.
  fold (basic_iterator.logical_position a) in Ra.
  fold (basic_iterator.logical_position b) in Rb.
  unfold to_ptrdiff, size_sub.
  destruct (Z_lt_le_dec (basic_iterator.logical_position a)
              (basic_iterator.logical_position b)) as [Hlt | Hge].
  - rewrite wrap_neg by lia.
    destruct (Z.leb_spec (basic_iterator.logical_position a
                          - basic_iterator.logical_position b + SIZE_MOD) PTRDIFF_MAX);
      lia.
  - rewrite wrap_small by lia.
    destruct (Z.leb_spec (basic_iterator.logical_position a
                          - basic_iterator.logical_position b) PTRDIFF_MAX);
      lia.
Qed.

(** C9.  [swap], as a member and as a free function, exchanges the complete
    states of the two containers: each object ends with the five fields of
    the other, hence with its storage and its element sequence.  The heap
    is not an argument of [swap]: no element is copied, constructed or
    destroyed. *)
Theorem swap_exchanges_states (a c : circular_buffer) (h : heap T) (la lc : list T) :
  swap a c = (c, a) /\ free_swap a c = (c, a) /\
  (repr a h la -> repr c h lc ->
   repr (fst (swap a c)) h lc /\ repr (snd (swap a c)) h la).
Proof.
  split; [apply swap_eq |]. split; [apply swap_eq |].
  intros Ra Rc. rewrite swap_eq. simpl. split; assumption.
Qed.

(** C10.  [clear()] on a container that holds [l] returns with the
    default-constructed state; its block is gone from the heap and nothing
    is leaked, that is, every live element was destroyed before the block
    was released.  The capacity is not kept: the next [push_back], of
    whatever object [v] that is still there, obtains a block that was not
    live and has capacity 4. *)
Theorem clear_resets (this : circular_buffer) (h : heap T) (l : list T)
    (value : const_ref) (v : T) :
  repr this h l ->
  let h' := release (data this) h in
  clear this h = Return tt circular_buffer_ctor h' /\
  (forall b, data this = Block b -> blocks h' !! b = None) /\
  leaked h' = leaked h /\
  (grants 4 = true -> resolve value h' = Some v -> copy_ok v = true ->
   exists h'',
     push_back value circular_buffer_ctor h'
     = Return tt (mk_circular_buffer 1 4 (Block (fresh (dom (blocks h')))) 0 1) h'' /\
     blocks h' !! fresh (dom (blocks h')) = None /\
     repr (mk_circular_buffer 1 4 (Block (fresh (dom (blocks h')))) 0 1) h'' [v]).
Proof.
  intros R h'. split; [now apply (clear_repr _ _ l) |]. split; [| split].
  - intros b Hb. subst h'. rewrite Hb. simpl. apply lookup_delete_eq.
  - subst h'. unfold release. now destruct (data this).
  - intros Hg Hres Hv.
    rewrite (push_back_as_outside value v circular_buffer_ctor h' [] (repr_ctor h') Hres)
      by (right; destruct value as [w | q i]; simpl;
          [exact I | intros ->; discriminate Hres]).
    pose proof (push_back_spec v circular_buffer_ctor h' [] (repr_ctor h')) as S.
    rewrite (push_back_eval v circular_buffer_ctor h' [] (repr_ctor h')) in S |- *.
    unfold push_back_result, grow_result, growth in S |- *. simpl in S |- *.
    rewrite Hg, Hv in S |- *.
    eexists. split; [reflexivity |]. split; [apply fresh_block_free |].
    apply S.
Qed.

(** ** Computations that only exchange values *)

Lemma same_shape_refl h : same_shape h h.
Proof. split; reflexivity. Qed.

Lemma same_shape_trans h1 h2 h3 :
  same_shape h1 h2 -> same_shape h2 h3 -> same_shape h1 h3.
Proof. intros [S1 L1] [S2 L2]. split; congruence. Qed.

Lemma quiet_ret {A} (a : A) : quiet (mret a : M T A).
Proof. intros this h. simpl. split; [reflexivity | apply same_shape_refl]. Qed.

Lemma quiet_ub {A} (o : option A) : quiet (ub o : M T A).
Proof.
  intros this h. unfold ub. destruct o; [| exact I].
  split; [reflexivity | apply same_shape_refl].
Qed.

Lemma quiet_bind {A B} (m : M T A) (f : A -> M T B) :
  quiet m -> (forall a, quiet (f a)) -> quiet (m ≫= f).
Proof.
  intros Hm Hf this h. specialize (Hm this h).
  unfold mbind, M_bind, M_bind_def.
  destruct (m this h) as [a this1 h1 | e this1 h1 | | |]; try exact Hm.
  destruct Hm as [-> S1]. specialize (Hf a this h1).
  destruct (f a this h1) as [c this2 h2 | e this2 h2 | | |]; try exact Hf.
  - destruct Hf as [-> S2]. split; [reflexivity | eapply same_shape_trans; eassumption].
  - destruct Hf as [-> S2]. split; [reflexivity | eapply same_shape_trans; eassumption].
Qed.

Lemma quiet_while {L} (cond : L -> M T bool) (body : L -> M T L) fuel :
  (forall x, quiet (cond x)) -> (forall x, quiet (body x)) ->
  forall x, quiet (while_loop fuel cond body x).
Proof.
  intros Hc Hb. induction fuel as [| fuel IH]; intros x.
  - rewrite while_loop_unfold. apply quiet_bind; [apply Hc |].
    intros [|]; [intros this h; exact I | apply quiet_ret].
  - rewrite while_loop_unfold. apply quiet_bind; [apply Hc |].
    intros [|]; [| apply quiet_ret].
    apply quiet_bind; [apply Hb | apply IH].
Qed.

Lemma quiet_read p i : quiet (read p i : M T T).
Proof.
  intros this h. unfold read.
  destruct (slot p i h) as [[v |] |]; try exact I.
  split; [reflexivity | apply same_shape_refl].
Qed.

Lemma quiet_copy_T v : quiet (copy_T v : M T T).
Proof.
  intros this h. unfold copy_T.
  destruct (copy_ok v); (split; [reflexivity | apply same_shape_refl]).
Qed.

(** Overwriting a live element keeps the shape. *)
Lemma same_shape_set_live p i v w h :
  slot p i h = Some (Some w) -> same_shape h (set_slot p i (Some v) h).
Proof.
  intros Hs. split; [| apply leaked_set_slot].
  unfold slot, set_slot in *. destruct p as [| b]; [discriminate |].
  destruct (blocks h !! b) as [slots |] eqn:Hb; [| discriminate].
  simpl in Hs. unfold shape. simpl.
  rewrite fmap_insert, list_fmap_insert.
  apply insert_id. rewrite lookup_fmap, Hb. simpl. f_equal.
  symmetry. apply list_insert_id. rewrite list_lookup_fmap, Hs. reflexivity.
Qed.

Lemma quiet_assign p i v : quiet (assign p i v : M T unit).
Proof.
  intros this h. unfold assign.
  destruct (slot p i h) as [[w |] |] eqn:Hs; try exact I.
  destruct (copy_ok v).
  - split; [reflexivity | eapply same_shape_set_live, Hs].
  - split; [reflexivity | apply same_shape_refl].
Qed.

Lemma quiet_exchange it1 it2 : quiet (exchange it1 it2 : M T unit).
Proof.
  unfold exchange, deref.
  apply quiet_bind; [apply quiet_read | intros x].
  apply quiet_bind; [apply quiet_copy_T | intros tmp].
  apply quiet_bind; [apply quiet_read | intros y].
  apply quiet_bind; [apply quiet_assign | intros _].
  apply quiet_assign.
Qed.

Lemma list_of_function (g : nat -> option T) (n : nat) :
  (forall i, (i < n)%nat -> is_Some (g i)) ->
  exists l, length l = n /\ forall i, (i < n)%nat -> l !! i = g i.
Proof.
  induction n as [| n IH]; intros Hg.
  - exists []. split; [reflexivity | intros i Hi; lia].
  - destruct IH as (l & Hlen & Hl); [intros i Hi; apply Hg; lia |].
    destruct (Hg n ltac:(lia)) as [v Hv].
    exists (l ++ [v]). split; [rewrite length_app; simpl; lia |].
    intros i Hi. destruct (decide (i = n)) as [-> | Hne].
    + rewrite <- Hlen at 1. rewrite list_lookup_middle by reflexivity. now rewrite Hv.
    + rewrite lookup_app_l by lia. apply Hl. lia.
Qed.

Lemma same_shape_lookup h h' b slots :
  same_shape h h' -> blocks h !! b = Some slots ->
  exists slots', blocks h' !! b = Some slots' /\
    constructed <$> slots' = constructed <$> slots.
Proof.
  intros [S _] Hb.
  assert (E : shape h' !! b = shape h !! b) by now rewrite S.
  unfold shape in E. rewrite !lookup_fmap, Hb in E. simpl in E.
  destruct (blocks h' !! b) as [slots' |]; [| discriminate].
  simpl in E. injection E as E. eauto.
Qed.

(** A well-formed container stays well-formed when only values of live
    elements change. *)
Lemma wf_same_shape this h h' : wf this h -> same_shape h h' -> wf this h'.
Proof.
  intros (l & [[-> ->] | (b & slots & A)]) S; [apply wf_ctor |].
  destruct (same_shape_lookup _ _ _ _ S (al_block _ _ _ _ _ A)) as (slots' & Hb' & Hc).
  pose proof (allocated_cap_range _ _ _ _ _ A) as Hcap.
  pose proof (al_sz _ _ _ _ _ A) as Hsz.
  pose proof (al_room _ _ _ _ _ A) as Hroom.
  assert (Hsame : forall j : nat, constructed <$> (slots' !! j) = constructed <$> (slots !! j)).
  { intros j. rewrite <- !list_lookup_fmap. now rewrite Hc. }
  destruct (list_of_function
              (fun i => mjoin (slots' !! Z.to_nat (physical_slot this (Z.of_nat i))))
              (length l)) as (l' & Hlen & Hl').
  { intros i Hi.
    specialize (Hsame (Z.to_nat (physical_slot this (Z.of_nat i)))).
    rewrite (al_slots _ _ _ _ _ A) in Hsame by lia.
    destruct (lookup_lt_is_Some_2 l i Hi) as [x Hx]. rewrite Hx in Hsame.
    destruct (slots' !! _) as [[y |] |]; simpl in *; try discriminate. eauto. }
  exists l'. right. exists b, slots'. destruct A. constructor; try assumption.
  - rewrite <- al_length0. rewrite <- (length_fmap constructed slots'), Hc.
    now rewrite length_fmap.
  - now rewrite Hlen.
  - intros i Hi.
    specialize (Hsame (Z.to_nat (physical_slot this (Z.of_nat i)))).
    rewrite al_slots0 in Hsame by lia.
    destruct (decide (i < length l)%nat) as [Hlt | Hge].
    + rewrite (Hl' i Hlt).
      destruct (lookup_lt_is_Some_2 l i Hlt) as [x Hx]. rewrite Hx in Hsame.
      destruct (slots' !! _) as [[y |] |]; simpl in *; try discriminate. reflexivity.
    + rewrite (proj2 (lookup_ge_None l i)) in Hsame by lia.
      rewrite (proj2 (lookup_ge_None l' i)) by lia.
      destruct (slots' !! _) as [[y |] |]; simpl in *; try discriminate. reflexivity.
Qed.

Lemma quiet_get_this : quiet (get_this : M T circular_buffer).
Proof. intros this h. simpl. split; [reflexivity | apply same_shape_refl]. Qed.

Ltac solve_quiet :=
  repeat first
    [ apply quiet_ret
    | apply quiet_ub
    | apply quiet_get_this
    | apply quiet_exchange
    | apply quiet_while; intros
    | apply quiet_bind; [| intros]
    | match goal with x : (_ * _)%type |- _ => destruct x end ].

Lemma bind_congr {A B} (m m' : M T A) (f : A -> M T B) this h :
  m this h = m' this h -> (m ≫= f) this h = (m' ≫= f) this h.
Proof. unfold mbind, M_bind, M_bind_def. now intros ->. Qed.

(** [insert] given a reference to an object that outlives the growth step
    of the push it calls is the [insert] of that object. *)
Lemma insert_as_outside pos value v this h l :
  repr this h l -> resolve value h = Some v ->
  (forall full, insert_growth pos this = Some full -> outlives_growth value full this) ->
  insert pos value this h = insert pos (outside v) this h.
Proof.
  intros R Hv Hcase. unfold insert, insert_growth in *.
  erewrite !bind_Return by reflexivity.
  destruct (basic_iterator.eqb pos (begin_ this)).
  { apply bind_congr, (push_front_as_outside _ _ _ _ _ R Hv), Hcase. reflexivity. }
  destruct (basic_iterator.eqb pos (end_ this)).
  { apply bind_congr, (push_back_as_outside _ _ _ _ _ R Hv), Hcase. reflexivity. }
  unfold ub at 1 3.
  destruct (basic_iterator.get_pos pos) as [p |]; [| reflexivity].
  erewrite !bind_Return by reflexivity. simpl in Hcase.
  destruct (p <=? sz this / 2).
  - apply bind_congr, (push_front_as_outside _ _ _ _ _ R Hv), Hcase. reflexivity.
  - apply bind_congr, (push_back_as_outside _ _ _ _ _ R Hv), Hcase. reflexivity.
Qed.

(** What a push leaves, for any reference it is given. *)
Lemma push_back_wf value this h :
  wf this h ->
  match push_back value this h with
  | Return _ this' h' =>
      wf this' h' /\ sz this' = sz this + 1 /\ cap this' = grown_cap (2 * cap this) this
  | Throw _ this' h' =>
      wf this' h' /\
      (this' = this /\ h' = h \/ cap this' = grown_cap (2 * cap this) this)
  | Abort => False
  | Undefined | OutOfFuel => True
  end.
Proof.
  intros (l & R). pose proof (push_back_spec_ref value this h l R) as P.
  destruct (push_back value this h); try exact I; try contradiction.
  - destruct P as (v & Tr & _ & Hs & Hc & _). split; [eexists; apply Tr | now split].
  - destruct P as (Tr & Hc). split; [eexists; apply Tr | exact Hc].
Qed.

Lemma push_front_wf value this h :
  wf this h ->
  match push_front value this h with
  | Return _ this' h' =>
      wf this' h' /\ sz this' = sz this + 1 /\ cap this' = grown_cap (2 * sz this) this
  | Throw _ this' h' =>
      wf this' h' /\
      (this' = this /\ h' = h \/ cap this' = grown_cap (2 * sz this) this)
  | Abort => False
  | Undefined | OutOfFuel => True
  end.
Proof.
  intros (l & R). pose proof (push_front_spec_ref value this h l R) as P.
  destruct (push_front value this h); try exact I; try contradiction.
  - destruct P as (v & Tr & _ & Hs & Hc & _). split; [eexists; apply Tr | now split].
  - destruct P as (Tr & Hc). split; [eexists; apply Tr | exact Hc].
Qed.

(** A push followed by a computation that only exchanges values. *)
Lemma push_then_quiet {A} (push : M T unit) (tail : unit -> M T A) full this h :
  match push this h with
  | Return _ this' h' =>
      wf this' h' /\ sz this' = sz this + 1 /\ cap this' = grown_cap full this
  | Throw _ this' h' =>
      wf this' h' /\ (this' = this /\ h' = h \/ cap this' = grown_cap full this)
  | Abort => False
  | Undefined | OutOfFuel => True
  end ->
  quiet (tail tt) ->
  match (push ≫= tail) this h with
  | Return _ this' h' =>
      wf this' h' /\ sz this' = sz this + 1 /\ cap this' = grown_cap full this
  | Throw _ this' h' =>
      wf this' h' /\ (cap this' = cap this \/ cap this' = grown_cap full this)
  | Abort => False
  | Undefined | OutOfFuel => True
  end.
Proof.
  intros Hpush Hq. unfold mbind, M_bind, M_bind_def.
  destruct (push this h) as [[] this1 h1 | e this1 h1 | | |]; try exact Hpush.
  - destruct Hpush as (W1 & Hsz & Hcap).
    specialize (Hq this1 h1).
    destruct (tail tt this1 h1) as [a this2 h2 | e this2 h2 | | |]; try exact Hq.
    + destruct Hq as [-> S]. split; [eapply wf_same_shape; eassumption |]. now split.
    + destruct Hq as [-> S]. split; [eapply wf_same_shape; eassumption |]. now right.
  - destruct Hpush as (W1 & Hc). split; [exact W1 |].
    destruct Hc as [[-> _] | Hc]; [now left | now right].
Qed.

(** [insert]: when it comes to an end, the container is well formed and its
    capacity is the one the push inside has left. *)
Lemma insert_after pos value this h :
  wf this h ->
  match insert pos value this h with
  | Return _ this' h' =>
      wf this' h' /\ sz this' = sz this + 1 /\
      (cap this' = grown_cap (2 * cap this) this \/
       cap this' = grown_cap (2 * sz this) this)
  | Throw _ this' h' =>
      wf this' h' /\
      (cap this' = cap this \/ cap this' = grown_cap (2 * cap this) this \/
       cap this' = grown_cap (2 * sz this) this)
  | Abort => False
  | Undefined | OutOfFuel => True
  end.
Proof.
  intros W. unfold insert.
  erewrite bind_Return by reflexivity.
  assert (Hfront : forall A (tail : unit -> M T A), quiet (tail tt) ->
            match (push_front value ≫= tail) this h with
            | Return _ this' h' =>
                wf this' h' /\ sz this' = sz this + 1 /\
                (cap this' = grown_cap (2 * cap this) this \/
                 cap this' = grown_cap (2 * sz this) this)
            | Throw _ this' h' =>
                wf this' h' /\
                (cap this' = cap this \/ cap this' = grown_cap (2 * cap this) this \/
                 cap this' = grown_cap (2 * sz this) this)
            | Abort => False
            | Undefined | OutOfFuel => True
            end).
  { intros A tail Hq.
    pose proof (push_then_quiet (push_front value) tail (2 * sz this) this h
                  (push_front_wf value this h W) Hq) as P.
    destruct ((push_front value ≫= tail) this h); try exact P.
    - destruct P as (W' & Hs & Hc). auto.
    - destruct P as (W' & [Hc | Hc]); auto. }
  assert (Hback : forall A (tail : unit -> M T A), quiet (tail tt) ->
            match (push_back value ≫= tail) this h with
            | Return _ this' h' =>
                wf this' h' /\ sz this' = sz this + 1 /\
                (cap this' = grown_cap (2 * cap this) this \/
                 cap this' = grown_cap (2 * sz this) this)
            | Throw _ this' h' =>
                wf this' h' /\
                (cap this' = cap this \/ cap this' = grown_cap (2 * cap this) this \/
                 cap this' = grown_cap (2 * sz this) this)
            | Abort => False
            | Undefined | OutOfFuel => True
            end).
  { intros A tail Hq.
    pose proof (push_then_quiet (push_back value) tail (2 * cap this) this h
                  (push_back_wf value this h W) Hq) as P.
    destruct ((push_back value ≫= tail) this h); try exact P.
    - destruct P as (W' & Hs & Hc). auto.
    - destruct P as (W' & [Hc | Hc]); auto. }
  destruct (basic_iterator.eqb pos (begin_ this)); [apply Hfront; solve_quiet |].
  destruct (basic_iterator.eqb pos (end_ this)); [apply Hback; solve_quiet |].
  unfold ub at 1.
  destruct (basic_iterator.get_pos pos) as [p |]; [| exact I].
  erewrite bind_Return by reflexivity.
  destruct (p <=? sz this / 2); [apply Hfront | apply Hback]; solve_quiet.
Qed.

Lemma pop_back_total this h :
  wf this h ->
  match pop_back this h with
  | Return _ this' h' =>
      wf this' h' /\ cap this' = cap this /\ sz this' = sz this - 1 /\ 0 < sz this
  | Abort => sz this <= 0
  | _ => False
  end.
Proof.
  intros (l & R). pose proof (repr_sz _ _ _ R) as Hsz.
  destruct l as [| x l0] using rev_ind.
  - rewrite pop_back_empty by (simpl in Hsz; lia). simpl in Hsz. lia.
  - destruct (pop_back_spec _ _ _ _ R) as (this' & h' & E & Tr & Hc & _ & Hs).
    rewrite E. rewrite length_app in Hsz. simpl in Hsz.
    split; [eexists; apply Tr |]. repeat split; lia.
Qed.

Lemma pop_front_total this h :
  wf this h ->
  match pop_front this h with
  | Return _ this' h' =>
      wf this' h' /\ cap this' = cap this /\ sz this' = sz this - 1 /\ 0 < sz this
  | Abort => sz this <= 0
  | _ => False
  end.
Proof.
  intros (l & R). pose proof (repr_sz _ _ _ R) as Hsz.
  destruct l as [| x l0].
  - rewrite pop_front_empty by (simpl in Hsz; lia). simpl in Hsz. lia.
  - destruct (pop_front_spec _ _ _ _ R) as (this' & h' & E & Tr & Hc & _ & Hs).
    rewrite E. simpl in Hsz.
    split; [eexists; apply Tr |]. repeat split; lia.
Qed.

(** Exchanges, then a pop, then a computation that changes nothing. *)
Lemma quiet_pop_quiet {A B} (pre : M T A) (pop : M T unit) (tail : unit -> M T B)
    this h :
  wf this h -> quiet pre ->
  (forall this1 h1, wf this1 h1 ->
     match pop this1 h1 with
     | Return _ this' h' =>
         wf this' h' /\ cap this' = cap this1 /\ sz this' = sz this1 - 1 /\ 0 < sz this1
     | Abort => sz this1 <= 0
     | _ => False
     end) ->
  quiet (tail tt) ->
  match (pre ≫= fun _ => pop ≫= tail) this h with
  | Return _ this' h' =>
      wf this' h' /\ cap this' = cap this /\ sz this' = sz this - 1 /\ 0 < sz this
  | Throw _ this' h' => wf this' h' /\ cap this' = cap this
  | Abort => sz this <= 0
  | Undefined | OutOfFuel => True
  end.
Proof.
  intros W Hpre Hpop Htail. unfold mbind, M_bind, M_bind_def.
  specialize (Hpre this h).
  destruct (pre this h) as [a this1 h1 | e this1 h1 | | |]; try exact Hpre.
  - destruct Hpre as [-> S].
    assert (W1 : wf this h1) by (eapply wf_same_shape; eassumption).
    specialize (Hpop this h1 W1).
    destruct (pop this h1) as [[] this2 h2 | e this2 h2 | | |]; try contradiction.
    + destruct Hpop as (W2 & Hc & Hs & Hpos).
      specialize (Htail this2 h2).
      destruct (tail tt this2 h2) as [c this3 h3 | e this3 h3 | | |]; try exact Htail.
      * destruct Htail as [-> S3]. split; [eapply wf_same_shape; eassumption |].
        repeat split; assumption.
      * destruct Htail as [-> S3]. split; [eapply wf_same_shape; eassumption |].
        assumption.
      * contradiction.
    + exact Hpop.
  - destruct Hpre as [-> S]. split; [eapply wf_same_shape; eassumption | reflexivity].
  - contradiction.
Qed.

(** [erase]: when it comes to an end, the container is well formed, its
    capacity is unchanged, and an assertion fails only for a position that
    is not below the size. *)
Lemma erase_after pos this h :
  wf this h ->
  match erase pos this h with
  | Return _ this' h' =>
      wf this' h' /\ cap this' = cap this /\ sz this' = sz this - 1
  | Throw _ this' h' => wf this' h' /\ cap this' = cap this
  | Abort =>
      exists p, basic_iterator.get_pos pos = Some p /\ (sz this <= p \/ sz this <= 0)
  | Undefined | OutOfFuel => True
  end.
Proof.
  intros W. unfold erase.
  erewrite bind_Return by reflexivity.
  unfold ub at 1.
  destruct (basic_iterator.get_pos pos) as [p |] eqn:Hp; [| exact I].
  erewrite bind_Return by reflexivity.
  unfold assert_ at 1.
  destruct (Z.ltb_spec p (sz this)) as [Hlt | Hge].
  2:{ unfold mbind, M_bind, M_bind_def. eauto. }
  erewrite bind_Return by reflexivity.
  assert (Hgen : forall A B (pre : M T A) (pop : M T unit) (tail : unit -> M T B),
            quiet pre -> pop = pop_front \/ pop = pop_back -> quiet (tail tt) ->
            match (pre ≫= fun _ => pop ≫= tail) this h with
            | Return _ this' h' =>
                wf this' h' /\ cap this' = cap this /\ sz this' = sz this - 1
            | Throw _ this' h' => wf this' h' /\ cap this' = cap this
            | Abort => exists p0, Some p = Some p0 /\ (sz this <= p0 \/ sz this <= 0)
            | Undefined | OutOfFuel => True
            end).
  { intros A B pre pop tail Hpre Hpop Htail.
    pose proof (quiet_pop_quiet pre pop tail this h W Hpre) as P.
    destruct ((pre ≫= fun _ => pop ≫= tail) this h).
    - destruct P as (? & ? & ? & ?); auto.
      intros this1 h1 W1. destruct Hpop as [-> | ->];
        [apply pop_front_total | apply pop_back_total]; assumption.
    - apply P; auto.
      intros this1 h1 W1. destruct Hpop as [-> | ->];
        [apply pop_front_total | apply pop_back_total]; assumption.
    - exists p. split; [reflexivity | right]. apply P; auto.
      intros this1 h1 W1. destruct Hpop as [-> | ->];
        [apply pop_front_total | apply pop_back_total]; assumption.
    - exact I.
    - exact I. }
  destruct (basic_iterator.eqb pos (begin_ this)).
  { exact (Hgen unit _ (mret tt) pop_front
             (fun _ => this ← get_this; mret (begin_ this))
             (quiet_ret tt) (or_introl eq_refl) ltac:(solve_quiet)). }
  unfold ub at 1.
  destruct (basic_iterator.decr (end_ this)) as [last |]; [| exact I].
  erewrite bind_Return by reflexivity.
  destruct (basic_iterator.eqb pos last).
  { exact (Hgen unit _ (mret tt) pop_back
             (fun _ => this ← get_this; ub (basic_iterator.decr (end_ this)))
             (quiet_ret tt) (or_intror eq_refl) ltac:(solve_quiet)). }
  erewrite bind_Return by reflexivity.
  unfold ub at 1.
  destruct (size_rem (size_add p (ind_begin this)) (cap this)) as [m |]; [| exact I].
  erewrite bind_Return by reflexivity.
  destruct (p <=? sz this / 2).
  - apply Hgen; [solve_quiet | now left | solve_quiet].
  - unfold ub at 1.
    destruct (basic_iterator.plus _ 1) as [it2 |]; [| exact I].
    erewrite bind_Return by reflexivity.
    apply Hgen; [solve_quiet | now right | solve_quiet].
Qed.

(** ** Copy construction and copy assignment *)

Lemma separate_ctor this h l : repr this h l -> separate this circular_buffer_ctor.
Proof.
  intros [[-> ->] | (b & slots & A)]; [now left |].
  right. rewrite (al_data _ _ _ _ _ A). discriminate.
Qed.

Lemma copy_loop oth h0 lo :
  repr oth h0 lo ->
  forall (m k : nat) this h, (k + m = length lo)%nat ->
    transition circular_buffer_ctor h0 this h (take k lo) ->
    match while_loop m (fun i => mret (i <? size oth))
            (fun i => value ← on_const oth (operator_idx_ref i);
                      push_back value;;
                      mret (size_add i 1))
            (Z.of_nat k) this h with
    | Return _ this' h' => transition circular_buffer_ctor h0 this' h' lo
    | Throw _ this' h' =>
        exists j, transition circular_buffer_ctor h0 this' h' (take j lo)
    | _ => False
    end.
Proof.
  intros Ro. pose proof (repr_sz _ _ _ Ro) as Hsz.
  induction m as [| m IH]; intros k this h Hk Tr.
  - rewrite Nat.add_0_r in Hk. subst k. rewrite firstn_all in Tr.
    rewrite while_loop_unfold.
    erewrite bind_Return with (a := false); [exact Tr |].
    munfold. unfold size. rewrite Hsz.
    destruct (Z.ltb_spec (Z.of_nat (length lo)) (Z.of_nat (length lo))); [lia | reflexivity].
  - destruct (lookup_lt_is_Some_2 lo k ltac:(lia)) as [v Hv].
    rewrite while_loop_unfold.
    erewrite bind_Return with (a := true).
    2:{ munfold. unfold size. rewrite Hsz.
        destruct (Z.ltb_spec (Z.of_nat k) (Z.of_nat (length lo))); [reflexivity | lia]. }
    destruct (transition_other _ _ _ _ _ _ _ Tr Ro (separate_ctor _ _ _ Ro)) as [Ro' Hsep].
    destruct (operator_idx_ref_spec oth h lo k v Ro' Hv) as [Eref Hres].
    set (value := element_at (data oth) (physical_slot oth (Z.of_nat k))) in *.
    assert (Hap : apart value (data this)).
    { unfold value. simpl. destruct Hsep as [Hn | Hn]; [| exact Hn].
      destruct (repr_nonempty _ _ _ Ro ltac:(lia)) as (bo & slots & Ao).
      rewrite (al_data _ _ _ _ _ Ao) in Hn. discriminate. }
    assert (Ebody :
      (value ← on_const oth (operator_idx_ref (Z.of_nat k));
       push_back value;; mret (size_add (Z.of_nat k) 1)) this h
      = match push_back value this h with
        | Return _ t h' => Return (size_add (Z.of_nat k) 1) t h'
        | Throw e t h' => Throw e t h'
        | Abort => Abort
        | Undefined => Undefined
        | OutOfFuel => OutOfFuel
        end).
    { erewrite bind_Return with (a := value) (this' := this) (h' := h).
      - unfold mbind, M_bind, M_bind_def. now destruct (push_back value this h).
      - unfold on_const. now rewrite Eref. }
    pose proof (push_back_spec_ref value this h (take k lo) (tr_repr _ _ _ _ _ Tr)) as P.
    destruct (push_back value this h) as [[] this1 h1 | e this1 h1 | | |] eqn:E;
      try contradiction.
    + erewrite bind_Return by exact Ebody.
      destruct P as (v' & Tr1 & _ & _ & _ & Hsame).
      rewrite <- (Hsame v Hres (or_intror Hap)) in Tr1.
      rewrite <- (take_S_r _ _ _ Hv) in Tr1.
      destruct (repr_nonempty _ _ _ Ro ltac:(lia)) as (bo & slots & Ao).
      pose proof (allocated_cap_range _ _ _ _ _ Ao).
      pose proof (al_room _ _ _ _ _ Ao).
      rewrite size_add_1 by lia.
      replace (Z.of_nat k + 1) with (Z.of_nat (S k)) by lia.
      apply IH; [lia |].
      eapply transition_trans; [exact Tr | exact Tr1].
    + erewrite bind_Throw by exact Ebody.
      exists k. eapply transition_trans; [exact Tr | apply P].
    + destruct P as [_ P]. destruct (P v Hres (or_intror Hap)).
Qed.

(** The copy constructor builds a container that holds the sequence of
    [oth]; when a copy or an allocation fails, what was built is destroyed
    again. *)
Lemma copy_ctor_spec oth this0 h lo :
  repr oth h lo ->
  match copy_ctor oth this0 h with
  | Return _ this' h' => transition circular_buffer_ctor h this' h' lo
  | Throw _ this' h' =>
      this' = circular_buffer_ctor /\
      transition circular_buffer_ctor h circular_buffer_ctor h' []
  | _ => False
  end.
Proof.
  intros Ro. unfold copy_ctor.
  pose proof (copy_loop oth h lo Ro (length lo) 0%nat circular_buffer_ctor h eq_refl
                (transition_refl _ _ _ (repr_ctor h))) as L.
  unfold size in *. rewrite (repr_sz _ _ _ Ro), Nat2Z.id.
  rewrite (repr_sz _ _ _ Ro) in L.
  change (Z.of_nat 0) with 0 in L.
  match type of L with
  | match ?o with _ => _ end => destruct o as [a this1 h1 | e this1 h1 | | |]
  end; try contradiction.
  - exact L.
  - destruct L as [j Tr].
    destruct (clear_spec _ _ _ (tr_repr _ _ _ _ _ Tr)) as [E Tc].
    unfold destructor. rewrite E. split; [reflexivity |].
    eapply transition_trans; eassumption.
Qed.

Lemma copy_assign_spec oth this h l lo :
  repr this h l -> repr oth h lo ->
  match copy_assign oth this h with
  | Return _ this' h' => repr this' h' lo /\ leaked h' = leaked h
  | Throw _ this' h' => this' = this /\ repr this h' l /\ leaked h' = leaked h
  | _ => False
  end.
Proof.
  intros R Ro. unfold copy_assign.
  pose proof (copy_ctor_spec oth circular_buffer_ctor h lo Ro) as C.
  destruct (copy_ctor oth circular_buffer_ctor h) as [[] tmp h1 | e tmp h1 | | |];
    try contradiction.
  - destruct (transition_other _ _ _ _ _ _ _ C R (separate_ctor _ _ _ R)) as [R1 Hsep].
    rewrite swap_eq. unfold leave_scope, destructor.
    rewrite (clear_repr _ _ _ R1). split.
    + apply (repr_frame _ h1); [apply C |].
      intros b Hb. unfold release.
      destruct (data this) as [| b0] eqn:Hd; [reflexivity |].
      simpl. apply lookup_delete_ne.
      destruct Hsep as [Hn | Hn]; congruence.
    + rewrite <- (tr_leaked _ _ _ _ _ C). unfold release. now destruct (data this).
  - destruct C as [-> C].
    destruct (transition_other _ _ _ _ _ _ _ C R (separate_ctor _ _ _ R)) as [R1 _].
    split; [reflexivity |]. split; [exact R1 | apply C].
Qed.

Lemma wf_invariant_1 this h : wf this h -> invariant_1 this.
Proof. intros (l & R). apply (repr_invariant_1 _ _ _ R). Qed.

Lemma keeps_invariant_1_intro {A} (o : outcome T A) :
  after (fun this h => wf this h) o -> keeps_invariant_1 o.
Proof.
  unfold keeps_invariant_1, after.
  destruct o; try exact (fun x => x); intros W; (split; [exact W | exact (wf_invariant_1 _ _ W)]).
Qed.

(** C2.  From a well-formed state, every public operation that comes to an
    end, by returning or by throwing, leaves a well-formed state, and a
    well-formed state satisfies invariant 1: [0 <= sz < cap] whenever
    [cap > 0], and [sz = 0] with no storage when [cap = 0].  The
    default-constructed state is well formed.  Pushes, [clear] and the
    copies always come to an end, pops do on a non-empty container. *)
Theorem invariant_1_preserved (this : circular_buffer) (h : heap T) :
  wf this h ->
  invariant_1 this /\
  wf circular_buffer_ctor h /\
  (forall value,
     (is_Some (resolve value h) -> outlives_growth value (2 * cap this) this ->
      completes (push_back value this h)) /\
     keeps_invariant_1 (push_back value this h)) /\
  (forall value,
     (is_Some (resolve value h) -> outlives_growth value (2 * sz this) this ->
      completes (push_front value this h)) /\
     keeps_invariant_1 (push_front value this h)) /\
  ((0 < sz this -> completes (pop_back this h)) /\ keeps_invariant_1 (pop_back this h)) /\
  ((0 < sz this -> completes (pop_front this h)) /\ keeps_invariant_1 (pop_front this h)) /\
  (forall pos value, keeps_invariant_1 (insert pos value this h)) /\
  (forall pos, keeps_invariant_1 (erase pos this h)) /\
  (completes (clear this h) /\ keeps_invariant_1 (clear this h)) /\
  (forall oth raw, wf oth h ->
     completes (copy_ctor oth raw h) /\ keeps_invariant_1 (copy_ctor oth raw h)) /\
  (forall oth, wf oth h ->
     completes (copy_assign oth this h) /\ keeps_invariant_1 (copy_assign oth this h)).
Proof.
  intros W. split; [now apply (wf_invariant_1 _ h) |]. split; [apply wf_ctor |].
  destruct W as (l & R).
  assert (W : wf this h) by (exists l; exact R).
  split; [intros value; split |].
  { intros (w & Hw) Hcase. pose proof (push_back_spec_ref value this h l R) as P.
    destruct (push_back value this h); try contradiction; try exact I.
    destruct P as (_ & P). exact (P w Hw Hcase). }
  { apply keeps_invariant_1_intro.
    pose proof (push_back_wf value this h W) as P.
    destruct (push_back value this h); try contradiction; simpl; try exact I; apply P. }
  split; [intros value; split |].
  { intros (w & Hw) Hcase. pose proof (push_front_spec_ref value this h l R) as P.
    destruct (push_front value this h); try contradiction; try exact I.
    destruct P as (_ & P). exact (P w Hw Hcase). }
  { apply keeps_invariant_1_intro.
    pose proof (push_front_wf value this h W) as P.
    destruct (push_front value this h); try contradiction; simpl; try exact I; apply P. }
  split; [split |].
  { intros Hpos. pose proof (pop_back_total this h W) as P.
    destruct (pop_back this h); try contradiction; try exact I. lia. }
  { apply keeps_invariant_1_intro.
    pose proof (pop_back_total this h W) as P.
    destruct (pop_back this h); try contradiction; simpl; try exact I. apply P. }
  split; [split |].
  { intros Hpos. pose proof (pop_front_total this h W) as P.
    destruct (pop_front this h); try contradiction; try exact I. lia. }
  { apply keeps_invariant_1_intro.
    pose proof (pop_front_total this h W) as P.
    destruct (pop_front this h); try contradiction; simpl; try exact I. apply P. }
  split.
  { intros pos value. apply keeps_invariant_1_intro.
    pose proof (insert_after pos value this h W) as P.
    destruct (insert pos value this h); simpl; try exact I; apply P. }
  split.
  { intros pos. apply keeps_invariant_1_intro.
    pose proof (erase_after pos this h W) as P.
    destruct (erase pos this h); simpl; try exact I; apply P. }
  split; [split |].
  { rewrite (clear_repr _ _ _ R). exact I. }
  { apply keeps_invariant_1_intro. rewrite (clear_repr _ _ _ R). simpl. apply wf_ctor. }
  split.
  { intros oth raw (lo & Ro).
    pose proof (copy_ctor_spec oth raw h lo Ro) as P. split.
    - destruct (copy_ctor oth raw h); try contradiction; exact I.
    - apply keeps_invariant_1_intro.
      destruct (copy_ctor oth raw h); try contradiction; simpl.
      + eexists. apply P.
      + destruct P as [-> _]. apply wf_ctor. }
  intros oth (lo & Ro).
  pose proof (copy_assign_spec oth this h l lo R Ro) as P. split.
  - destruct (copy_assign oth this h); try contradiction; exact I.
  - apply keeps_invariant_1_intro.
    destruct (copy_assign oth this h); try contradiction; simpl.
    + eexists. apply P.
    + destruct P as (-> & R1 & _). eexists. exact R1.
Qed.

(** ** Capacity *)

Lemma grown_cap_facts full this h l :
  repr this h l -> full = 2 * cap this \/ full = 2 * sz this ->
  (sz this = 0 -> grown_cap full this = 4) /\
  (0 < sz this -> cap this <= grown_cap full this).
Proof.
  intros R Hfull. unfold grown_cap, growth, empty.
  destruct (Z.eqb_spec (sz this) 0) as [Hz | Hnz]; [split; [reflexivity | lia] |].
  split; [lia |]. intros Hpos.
  destruct (repr_nonempty _ _ _ R Hpos) as (b & slots & A).
  pose proof (al_cap_min _ _ _ _ _ A).
  destruct (Z.eqb_spec (sz this) (cap this - 1)); lia.
Qed.

(** C4, as the code has it.  [pop_back], [pop_front] and [erase] leave the
    capacity as it is.  [push_back], [push_front] and [insert] never
    decrease the capacity of a non-empty container; on an empty container
    they reallocate, and when they return the capacity is 4, whatever it
    was before. *)
Theorem capacity_after_operations (this : circular_buffer) (h : heap T) :
  wf this h ->
  capacity_kept this (pop_back this h) /\
  capacity_kept this (pop_front this h) /\
  (forall pos, capacity_kept this (erase pos this h)) /\
  (forall value, capacity_after_push this (push_back value this h)) /\
  (forall value, capacity_after_push this (push_front value this h)) /\
  (forall pos value, capacity_after_push this (insert pos value this h)).
Proof.
  intros W. pose proof W as (l & R).
  pose proof (grown_cap_facts (2 * cap this) this h l R (or_introl eq_refl)) as [Gb0 Gb1].
  pose proof (grown_cap_facts (2 * sz this) this h l R (or_intror eq_refl)) as [Gf0 Gf1].
  split.
  { pose proof (pop_back_total this h W) as P. unfold capacity_kept.
    destruct (pop_back this h); try contradiction; simpl; try exact I. apply P. }
  split.
  { pose proof (pop_front_total this h W) as P. unfold capacity_kept.
    destruct (pop_front this h); try contradiction; simpl; try exact I. apply P. }
  split.
  { intros pos. pose proof (erase_after pos this h W) as P. unfold capacity_kept.
    destruct (erase pos this h); simpl; try exact I; apply P. }
  split.
  { intros value. pose proof (push_back_wf value this h W) as P.
    destruct (push_back value this h); try contradiction; simpl; try exact I.
    - destruct P as (_ & _ & ->). auto.
    - destruct P as (_ & [[-> _] | ->]); split; auto; lia. }
  split.
  { intros value. pose proof (push_front_wf value this h W) as P.
    destruct (push_front value this h); try contradiction; simpl; try exact I.
    - destruct P as (_ & _ & ->). auto.
    - destruct P as (_ & [[-> _] | ->]); split; auto; lia. }
  intros pos value. pose proof (insert_after pos value this h W) as P.
  destruct (insert pos value this h); simpl; try exact I.
  - destruct P as (_ & _ & [-> | ->]); auto.
  - destruct P as (_ & [-> | [-> | ->]]); split; auto; lia.
Qed.

(** ** Failure during growth *)

Lemma growth_fails_result full this h l :
  growth_fails full this l = true ->
  exists n, growth full this = Some n /\
    grow_result full this h l = Throw (growth_exn n) this h.
Proof.
  unfold growth_fails, grow_result, growth_exn.
  destruct (growth full this) as [n |]; [| discriminate].
  intros Hf. exists n. split; [reflexivity |].
  destruct (grants n); [| reflexivity].
  simpl in Hf. destruct (forallb copy_ok l); [discriminate | reflexivity].
Qed.

Lemma push_back_growth_fails value this h l :
  repr this h l -> growth_fails (2 * cap this) this l = true ->
  exists n, growth (2 * cap this) this = Some n /\
    push_back value this h = Throw (growth_exn n) this h.
Proof.
  intros R Hf. destruct (growth_fails_result _ this h l Hf) as (n & Hn & E).
  exists n. split; [exact Hn |].
  rewrite (push_back_eval_ref value this h l R). unfold push_back_outcome. now rewrite E.
Qed.

Lemma push_front_growth_fails value this h l :
  repr this h l -> growth_fails (2 * sz this) this l = true ->
  exists n, growth (2 * sz this) this = Some n /\
    push_front value this h = Throw (growth_exn n) this h.
Proof.
  intros R Hf. destruct (growth_fails_result _ this h l Hf) as (n & Hn & E).
  exists n. split; [exact Hn |].
  rewrite (push_front_eval_ref value this h l R). unfold push_front_outcome. now rewrite E.
Qed.

(** C6.  When the allocation or the copy of an element fails during a
    growth reallocation, in [reserve] itself or in the [push_back],
    [push_front] or [insert] that calls it, the exception reaches the
    caller and the object and the heap are exactly what they were: the
    container is in its prior state, the new block is released, and no
    element is leaked, so the elements already built in the new block were
    destroyed before it was released.  The outcome is an exception, not
    undefined behaviour: nothing is released twice.  For [insert] it is
    the growth of the one push it calls that counts, and the reference the
    operation was given, to whatever object, is not read. *)
Theorem growth_failure_leaves_state (this : circular_buffer) (h : heap T) (l : list T) :
  repr this h l ->
  (forall n, sz this < n -> 4 <= n -> n * sizeof_T < SIZE_MOD ->
     grants n && forallb copy_ok l = false ->
     reserve n this h = Throw (growth_exn n) this h) /\
  (forall value, growth_fails (2 * cap this) this l = true ->
     exists n, growth (2 * cap this) this = Some n /\
       push_back value this h = Throw (growth_exn n) this h) /\
  (forall value, growth_fails (2 * sz this) this l = true ->
     exists n, growth (2 * sz this) this = Some n /\
       push_front value this h = Throw (growth_exn n) this h) /\
  (forall pos value full,
     insert_growth pos this = Some full ->
     growth_fails full this l = true ->
     exists n, growth full this = Some n /\
       insert pos value this h = Throw (growth_exn n) this h).
Proof.
  intros R. split; [| split; [| split]].
  - intros n Hsz Hmin Hwrap Hfail.
    rewrite (reserve_spec n this h l R Hsz Hmin Hwrap). unfold growth_exn.
    fold (grants n). destruct (grants n); [| reflexivity].
    simpl in Hfail. now rewrite Hfail.
  - intros value. now apply push_back_growth_fails.
  - intros value. now apply push_front_growth_fails.
  - intros pos value full Hfull Hfail.
    unfold insert_growth in Hfull. unfold insert. erewrite bind_Return by reflexivity.
    destruct (basic_iterator.eqb pos (begin_ this)).
    { injection Hfull as <-.
      destruct (push_front_growth_fails value this h l R Hfail) as (n & Hn & E).
      exists n. split; [exact Hn |]. now erewrite bind_Throw by exact E. }
    destruct (basic_iterator.eqb pos (end_ this)).
    { injection Hfull as <-.
      destruct (push_back_growth_fails value this h l R Hfail) as (n & Hn & E).
      exists n. split; [exact Hn |]. now erewrite bind_Throw by exact E. }
    unfold ub at 1.
    destruct (basic_iterator.get_pos pos) as [p |]; [| discriminate].
    simpl in Hfull. erewrite bind_Return by reflexivity.
    destruct (p <=? sz this / 2); injection Hfull as <-.
    + destruct (push_front_growth_fails value this h l R Hfail) as (n & Hn & E).
      exists n. split; [exact Hn |]. now erewrite bind_Throw by exact E.
    + destruct (push_back_growth_fails value this h l R Hfail) as (n & Hn & E).
      exists n. split; [exact Hn |]. now erewrite bind_Throw by exact E.
Qed.

(** ** Where a push places its element *)

Lemma grow_result_reserve full this h l n :
  repr this h l -> full = 2 * cap this \/ full = 2 * sz this ->
  growth full this = Some n ->
  grow_result full this h l = reserve n this h.
Proof.
  intros R Hfull Hn. unfold grow_result. rewrite Hn.
  pose proof (growth_range _ _ _ _ _ R Hn Hfull) as Hr.
  pose proof sizeof_T_bound. pose proof sizeof_T_pos.
  pose proof PTRDIFF_MAX_eq. pose proof SIZE_MOD_eq.
  rewrite (reserve_spec n this h l R); [reflexivity | | lia |].
  - destruct (growth_bound _ _ _ Hn) as [-> | (Hnz & Hf & ->)].
    + unfold growth, empty in Hn.
      destruct (Z.eqb_spec (sz this) 0); [lia |].
      destruct (Z.eqb_spec (sz this) (cap this - 1)); [| discriminate].
      injection Hn as Hn. pose proof (repr_sz _ _ _ R).
      destruct (repr_nonempty _ _ _ R ltac:(lia)) as (b & slots & A).
      pose proof (al_cap_min _ _ _ _ _ A). lia.
    + pose proof (repr_sz _ _ _ R).
      destruct (repr_nonempty _ _ _ R ltac:(lia)) as (b & slots & A).
      pose proof (al_cap_min _ _ _ _ _ A). lia.
  - destruct (growth_bound _ _ _ Hn) as [-> | (Hnz & Hf & ->)]; [lia |].
    pose proof (repr_sz _ _ _ R).
    destruct (repr_nonempty _ _ _ R ltac:(lia)) as (b & slots & A).
    pose proof (al_cap_max _ _ _ _ _ A). pose proof (al_cap_min _ _ _ _ _ A).
    destruct Hfull as [-> | ->]; nia.
Qed.

Lemma reserved_by_grow_result full this h l this1 h1 :
  repr this h l -> full = 2 * cap this \/ full = 2 * sz this ->
  reserved_by (growth full this) this h this1 h1 ->
  grow_result full this h l = Return tt this1 h1.
Proof.
  intros R Hfull Hr. unfold reserved_by in Hr.
  destruct (growth full this) as [n |] eqn:Hn.
  - now rewrite (grow_result_reserve full this h l n R Hfull Hn).
  - destruct Hr as [-> ->]. unfold grow_result. now rewrite Hn.
Qed.

(** C5, as the code has it.  A push on an empty container first calls
    [reserve(4)]; on a non-empty container with [sz = cap - 1],
    [push_back] first calls [reserve(2 * cap)] and [push_front]
    [reserve(2 * sz)]; otherwise nothing is reserved.  The push then
    copies the object [v] its reference designates, which has to be there
    still: the push did not reallocate, or [v] is not an element of the
    container itself.  In the state [(this1, h1)] the growth step leaves,
    [push_back] constructs the copy in the slot [ind_end] itself, moves
    [ind_end] one step forward modulo [cap] and adds one to [sz];
    [push_front] constructs it in the slot before [ind_begin], moves
    [ind_begin] there and adds one to [sz]. *)
Theorem push_growth_and_placement (value : const_ref) (v : T)
    (this : circular_buffer) (h : heap T) (l : list T) :
  repr this h l -> resolve value h = Some v -> copy_ok v = true ->
  growth (2 * cap this) this
  = (if sz this =? 0 then Some 4
     else if sz this =? cap this - 1 then Some (2 * cap this) else None) /\
  growth (2 * sz this) this
  = (if sz this =? 0 then Some 4
     else if sz this =? cap this - 1 then Some (2 * sz this) else None) /\
  (forall this1 h1,
     reserved_by (growth (2 * cap this) this) this h this1 h1 ->
     outlives_growth value (2 * cap this) this ->
     let h' := set_slot (data this1) (ind_end this1) (Some v) h1 in
     push_back value this h
     = Return tt
         (mk_circular_buffer (sz this1 + 1) (cap this1) (data this1) (ind_begin this1)
            ((ind_end this1 + 1) mod cap this1)) h' /\
     slot (data this1) (ind_end this1) h1 = Some None /\
     slot (data this1) (ind_end this1) h' = Some (Some v)) /\
  (forall this1 h1,
     reserved_by (growth (2 * sz this) this) this h this1 h1 ->
     outlives_growth value (2 * sz this) this ->
     let before := (ind_begin this1 - 1) mod cap this1 in
     let h' := set_slot (data this1) before (Some v) h1 in
     push_front value this h
     = Return tt
         (mk_circular_buffer (sz this1 + 1) (cap this1) (data this1) before
            (ind_end this1)) h' /\
     slot (data this1) before h1 = Some None /\
     slot (data this1) before h' = Some (Some v)).
Proof.
  intros R Hres0 Hv. split; [reflexivity |]. split; [reflexivity |]. split.
  - intros this1 h1 Hr Hout h'.
    pose proof (reserved_by_grow_result _ _ _ _ _ _ R (or_introl eq_refl) Hr) as E.
    pose proof (resolve_grow _ _ _ _ _ _ _ _ E Hres0 Hout) as Hres.
    destruct (grow_result_Return _ _ _ _ _ _ R (full_back _ _ _ R) E)
      as ((b1 & slots1 & A1) & Hroom & _).
    pose proof (allocated_cap_range _ _ _ _ _ A1) as Hc.
    pose proof (al_begin _ _ _ _ _ A1) as Hb.
    pose proof (allocated_sz_nonneg _ _ _ _ _ A1) as Hs.
    pose proof (al_sz _ _ _ _ _ A1) as Hsz.
    destruct (place_back_allocated v _ _ _ _ _ A1 Hroom) as [_ A2].
    split; [| split].
    + rewrite (push_back_eval_ref value this h l R). unfold push_back_outcome.
      rewrite E, Hres, Hv. unfold placed_back, set_sz, set_ind_end. simpl.
      rewrite (al_end _ _ _ _ _ A1) at 2.
      now rewrite physical_slot_succ by lia.
    + rewrite (al_end _ _ _ _ _ A1), Hsz.
      rewrite (allocated_slot _ _ _ _ _ _ A1) by lia.
      f_equal. apply lookup_ge_None. lia.
    + pose proof (allocated_slot _ _ _ _ _ (length l) A2) as S. simpl in S.
      unfold physical_slot in S. simpl in S.
      rewrite list_lookup_middle in S by reflexivity.
      rewrite <- Hsz in S.
      change ((ind_begin this1 + sz this1) mod cap this1)
        with (physical_slot this1 (sz this1)) in S.
      rewrite <- (al_end _ _ _ _ _ A1) in S.
      subst h'. apply S. lia.
  - intros this1 h1 Hr Hout before h'.
    pose proof (reserved_by_grow_result _ _ _ _ _ _ R (or_intror eq_refl) Hr) as E.
    pose proof (resolve_grow _ _ _ _ _ _ _ _ E Hres0 Hout) as Hres.
    destruct (grow_result_Return _ _ _ _ _ _ R (full_front _ _ _ R) E)
      as ((b1 & slots1 & A1) & Hroom & _).
    pose proof (allocated_cap_range _ _ _ _ _ A1) as Hc.
    pose proof (al_begin _ _ _ _ _ A1) as Hb.
    pose proof (allocated_sz_nonneg _ _ _ _ _ A1) as Hs.
    pose proof (al_sz _ _ _ _ _ A1) as Hsz.
    destruct (place_front_allocated v _ _ _ _ _ A1 Hroom) as [_ A2].
    assert (Hbefore : before = physical_slot this1 (cap this1 - 1)).
    { subst before. unfold physical_slot.
      replace (ind_begin this1 + (cap this1 - 1))
        with (ind_begin this1 - 1 + 1 * cap this1) by lia.
      now rewrite Z_mod_plus_full. }
    split; [| split].
    + rewrite (push_front_eval_ref value this h l R). unfold push_front_outcome.
      rewrite E, Hres, Hv. reflexivity.
    + rewrite Hbefore.
      replace (cap this1 - 1) with (Z.of_nat (Z.to_nat (cap this1 - 1))) by lia.
      rewrite (allocated_slot _ _ _ _ _ _ A1) by lia.
      f_equal. apply lookup_ge_None. lia.
    + pose proof (allocated_slot _ _ _ _ _ 0%nat A2) as S. simpl in S.
      unfold physical_slot in S. simpl in S.
      rewrite Z.add_0_r, Z.mod_small in S
        by (apply mod_range; lia).
      apply S. lia.
Qed.

(** ** [insert] at an interior position of a container with one free slot *)

Lemma while_never_returns {L} (Inv : L -> Prop) (cond : L -> M T bool)
    (body : L -> M T L) :
  (forall x this h, Inv x -> cond x this h = Return true this h) ->
  (forall x this h x' this' h', Inv x -> body x this h = Return x' this' h' -> Inv x') ->
  forall fuel x this h, Inv x ->
    forall r this' h', while_loop fuel cond body x this h <> Return r this' h'.
Proof.
  intros Hc Hb. induction fuel as [| fuel IH]; intros x this h Hx r this' h'.
  - rewrite while_loop_unfold. erewrite bind_Return by (now apply Hc). discriminate.
  - rewrite while_loop_unfold. erewrite bind_Return by (now apply Hc).
    unfold mbind, M_bind, M_bind_def.
    destruct (body x this h) as [x1 this1 h1 | | | |] eqn:E; try discriminate.
    apply IH. eapply Hb; eassumption.
Qed.

Lemma bind_never_returns {A B} (m : M T A) (f : A -> M T B) this h :
  (forall a this' h', m this h <> Return a this' h') ->
  forall c this' h', (m ≫= f) this h <> Return c this' h'.
Proof.
  intros Hm c this' h'. unfold mbind, M_bind, M_bind_def.
  destruct (m this h) as [a this1 h1 | | | |] eqn:E; try discriminate.
  exfalso. eapply Hm. reflexivity.
Qed.

(** A push that has to grow leaves the container in another block. *)
Lemma grow_result_moves full this h l this1 h1 :
  repr this h l -> 0 < sz this -> sz this = cap this - 1 ->
  grow_result full this h l = Return tt this1 h1 ->
  data this1 <> data this.
Proof.
  intros R Hpos Hfull. unfold grow_result, growth, empty.
  destruct (Z.eqb_spec (sz this) 0); [lia |].
  destruct (Z.eqb_spec (sz this) (cap this - 1)); [| lia].
  destruct (grants full); [| discriminate].
  destruct (forallb copy_ok l); [| discriminate].
  intros [= <- _]. simpl.
  destruct (repr_nonempty _ _ _ R Hpos) as (b & slots & A).
  rewrite (al_data _ _ _ _ _ A). intros [= E].
  pose proof (fresh_block_free h) as F. rewrite E, (al_block _ _ _ _ _ A) in F.
  discriminate.
Qed.

Lemma incr_data a a' : basic_iterator.incr a = Some a' ->
  basic_iterator.data a' = basic_iterator.data a.
Proof.
  unfold basic_iterator.incr.
  destruct (size_rem _ _); [| discriminate]. now intros [= <-].
Qed.

Lemma decr_data a a' : basic_iterator.decr a = Some a' ->
  basic_iterator.data a' = basic_iterator.data a.
Proof.
  unfold basic_iterator.decr.
  destruct (size_rem _ _); [| discriminate]. now intros [= <-].
Qed.

Lemma neqb_other_block a c :
  basic_iterator.data a <> basic_iterator.data c -> basic_iterator.neqb a c = true.
Proof.
  intros Hne. unfold basic_iterator.neqb, basic_iterator.eqb, ptr_eqb.
  rewrite bool_decide_eq_false_2 by exact Hne. now rewrite andb_false_r.
Qed.

(** X11.  On a non-empty container with exactly one free slot, [insert] at
    a position of the container that is neither [begin()] nor [end()] never
    returns: the push inside reallocates (or throws), [pos] still points
    into the old block, and the loop that waits for [it2 == pos] cannot
    end.  This holds whatever object the reference designates. *)
Lemma insert_full_interior_never_returns pos value this h l :
  repr this h l -> 0 < sz this -> sz this = cap this - 1 ->
  basic_iterator.data pos = data this ->
  basic_iterator.eqb pos (begin_ this) = false ->
  basic_iterator.eqb pos (end_ this) = false ->
  forall it this' h', insert pos value this h <> Return it this' h'.
Proof.
  intros R Hpos Hfull Hdata Hb He it this' h'.
  unfold insert. erewrite bind_Return by reflexivity. rewrite Hb, He.
  destruct (basic_iterator.get_pos pos) as [p |]; [| discriminate].
  erewrite bind_Return by reflexivity. revert it this' h'.
  assert (Hloop_f : forall this1 h1 (it1 it2 : iterator),
            basic_iterator.data it2 <> basic_iterator.data pos ->
            forall r t h',
              while_loop (Z.to_nat (cap this1))
                (fun '(it1, it2) => mret (basic_iterator.neqb it2 pos))
                (fun '(it1, it2) =>
                   exchange it1 it2;;
                   it1 ← ub (basic_iterator.incr it1);
                   it2 ← ub (basic_iterator.incr it2);
                   mret (it1, it2))
                (it1, it2) this1 h1 <> Return r t h').
  { intros this1 h1 it1 it2 Hne.
    apply (while_never_returns
             (fun x : iterator * iterator =>
                basic_iterator.data (snd x) <> basic_iterator.data pos)).
    - intros [a c] t0 h0 Hx. simpl in Hx. munfold. now rewrite neqb_other_block.
    - intros [a c] t0 h0 [a' c'] t1 h2 Hx. simpl in *. munfold.
      destruct (exchange a c t0 h0); try discriminate.
      destruct (basic_iterator.incr a); try discriminate.
      destruct (basic_iterator.incr c) as [c1 |] eqn:Ec; try discriminate.
      intros [= _ <- _ _]. now rewrite (incr_data _ _ Ec).
    - exact Hne. }
  assert (Hloop_b : forall this1 h1 (it1 it2 : iterator),
            basic_iterator.data it2 <> basic_iterator.data pos ->
            forall r t h',
              while_loop (Z.to_nat (cap this1))
                (fun '(it1, it2) => mret (basic_iterator.neqb it2 pos))
                (fun '(it1, it2) =>
                   exchange it1 it2;;
                   it1 ← ub (basic_iterator.decr it1);
                   it2 ← ub (basic_iterator.decr it2);
                   mret (it1, it2))
                (it1, it2) this1 h1 <> Return r t h').
  { intros this1 h1 it1 it2 Hne.
    apply (while_never_returns
             (fun x : iterator * iterator =>
                basic_iterator.data (snd x) <> basic_iterator.data pos)).
    - intros [a c] t0 h0 Hx. simpl in Hx. munfold. now rewrite neqb_other_block.
    - intros [a c] t0 h0 [a' c'] t1 h2 Hx. simpl in *. munfold.
      destruct (exchange a c t0 h0); try discriminate.
      destruct (basic_iterator.decr a); try discriminate.
      destruct (basic_iterator.decr c) as [c1 |] eqn:Ec; try discriminate.
      intros [= _ <- _ _]. now rewrite (decr_data _ _ Ec).
    - exact Hne. }
  destruct (p <=? sz this / 2).
  - intros it this' h'.
    unfold mbind at 1, M_bind, M_bind_def.
    rewrite (push_front_eval_ref value this h l R). unfold push_front_outcome.
    destruct (grow_result_cases (2 * sz this) this h l) as [(this1 & h1 & E) | (e & E)];
      rewrite E; [| discriminate].
    pose proof (grow_result_moves _ _ _ _ _ _ R Hpos Hfull E) as Hmv.
    destruct (resolve value h1) as [v |]; [| discriminate].
    destruct (copy_ok v); [| discriminate].
    erewrite bind_Return by reflexivity.
    destruct (basic_iterator.incr (begin_ (placed_front this1))) as [it2 |] eqn:Ei;
      [| discriminate].
    erewrite bind_Return by reflexivity.
    apply bind_never_returns.
    apply Hloop_f. rewrite (incr_data _ _ Ei). simpl. congruence.
  - intros it this' h'.
    unfold mbind at 1, M_bind, M_bind_def.
    rewrite (push_back_eval_ref value this h l R). unfold push_back_outcome.
    destruct (grow_result_cases (2 * cap this) this h l) as [(this1 & h1 & E) | (e & E)];
      rewrite E; [| discriminate].
    pose proof (grow_result_moves _ _ _ _ _ _ R Hpos Hfull E) as Hmv.
    destruct (resolve value h1) as [v |]; [| discriminate].
    destruct (copy_ok v); [| discriminate].
    erewrite bind_Return by reflexivity.
    destruct (basic_iterator.decr (end_ (placed_back this1))) as [e1 |] eqn:Ee;
      [| discriminate].
    erewrite bind_Return by reflexivity.
    destruct (basic_iterator.decr e1) as [it1 |]; [| discriminate].
    erewrite bind_Return by reflexivity.
    erewrite bind_Return by reflexivity.
    apply bind_never_returns.
    apply Hloop_b. rewrite (decr_data _ _ Ee). simpl. congruence.
Qed.

(** ** Contract checks *)

Lemma erase_out_of_range pos this h p :
  basic_iterator.get_pos pos = Some p -> sz this <= p -> erase pos this h = Abort.
Proof.
  intros Hp Hge. unfold erase. erewrite bind_Return by reflexivity.
  rewrite Hp. erewrite bind_Return by reflexivity.
  unfold assert_ at 1. destruct (Z.ltb_spec p (sz this)); [lia | reflexivity].
Qed.

(** X12.  The assertions of the accessors, of the pops and of [erase] fail
    exactly on a violated precondition, as far as the position of the
    iterator is defined: on an empty container [front], [back], [pop_back]
    and [pop_front] abort, [operator[]] aborts for an index that is not
    below the size, and [erase] aborts for a position that is not below the
    size; on a well-formed container none of them aborts when its
    precondition holds. *)
Lemma contract_checks this h :
  (sz this <= 0 ->
   front this h = Abort /\ back this h = Abort /\
   pop_back this h = Abort /\ pop_front this h = Abort) /\
  (forall i, sz this <= i -> operator_idx i this h = Abort) /\
  (forall pos p, basic_iterator.get_pos pos = Some p -> sz this <= p ->
     erase pos this h = Abort) /\
  (wf this h -> 0 < sz this ->
   (exists v, front this h = Return v this h) /\
   (exists v, back this h = Return v this h) /\
   (exists this' h', pop_back this h = Return tt this' h') /\
   (exists this' h', pop_front this h = Return tt this' h')) /\
  (wf this h -> forall i, 0 <= i < sz this ->
     exists v, operator_idx i this h = Return v this h) /\
  (wf this h -> forall pos p, basic_iterator.get_pos pos = Some p -> 0 <= p < sz this ->
     erase pos this h <> Abort).
Proof.
  split; [| split; [| split; [| split; [| split]]]].
  - intros Hz.
    split; [now apply front_empty |]. split; [now apply back_empty |].
    split; [now apply pop_back_empty | now apply pop_front_empty].
  - intros i Hi. now apply operator_idx_out_of_range.
  - intros pos p. apply erase_out_of_range.
  - intros (l & R) Hpos. pose proof (repr_sz _ _ _ R) as Hsz.
    destruct l as [| x l0]; [simpl in Hsz; lia |].
    split; [exists x; now apply (front_spec _ _ l0) |].
    destruct (pop_front_spec _ _ _ _ R) as (t1 & h1 & E1 & _).
    assert (Hlast : exists l1 y, x :: l0 = l1 ++ [y]).
    { exists (removelast (x :: l0)), (List.last (x :: l0) x).
      apply app_removelast_last. discriminate. }
    destruct Hlast as (l1 & y & El). rewrite El in R.
    destruct (pop_back_spec _ _ _ _ R) as (t2 & h2 & E2 & _).
    split; [exists y; now apply (back_spec _ _ l1) |]. split; eauto.
  - intros (l & R) i Hi. pose proof (repr_sz _ _ _ R) as Hsz.
    destruct (lookup_lt_is_Some_2 l (Z.to_nat i) ltac:(lia)) as [v Hv].
    exists v. rewrite <- (Z2Nat.id i) by lia. now apply (operator_idx_spec _ _ l).
  - intros W pos p Hp Hr E. pose proof (erase_after pos this h W) as P.
    rewrite E in P. destruct P as (p0 & Hp0 & Hbad).
    rewrite Hp in Hp0. injection Hp0 as <-. lia.
Qed.

(** C7, at the input where the code misses the claim.  [erase(begin())] on
    a container that never allocated evaluates [pos.get_pos()], that is
    [(0 + 0 - 0) % 0], inside its assertion: the behaviour is undefined
    before the assertion can fail.  The same holds for [end()], which is
    the same iterator. *)
Theorem erase_unallocated_undefined (h : heap T) :
  basic_iterator.get_pos (begin_ circular_buffer_ctor) = None /\
  end_ circular_buffer_ctor = begin_ circular_buffer_ctor /\
  erase (begin_ circular_buffer_ctor) circular_buffer_ctor h = Undefined.
Proof. repeat split. Qed.

(** ** Iterators at logical positions *)

Section IterAt.

Variables (this : circular_buffer).
Hypothesis Hcap : 0 < cap this <= PTRDIFF_MAX.
Hypothesis Hbegin : 0 <= ind_begin this < cap this.

Lemma physical_slot_0 : physical_slot this 0 = ind_begin this.
Proof. unfold physical_slot. rewrite Z.add_0_r. apply Z.mod_small. lia. Qed.

Lemma begin_iter_at : begin_ this = iter_at this 0.
Proof. unfold begin_, iter_at. now rewrite physical_slot_0. Qed.

Lemma incr_iter_at k :
  0 <= k < cap this -> basic_iterator.incr (iter_at this k) = Some (iter_at this (k + 1)).
Proof.
  intros Hk. unfold basic_iterator.incr, iter_at. simpl.
  pose proof PTRDIFF_MAX_eq. pose proof SIZE_MOD_eq.
  pose proof (physical_slot_range this k ltac:(lia)).
  rewrite size_rem_add by lia. simpl.
  now rewrite physical_slot_succ by lia.
Qed.

Lemma plus_1_iter_at k :
  0 <= k < cap this -> basic_iterator.plus (iter_at this k) 1 = Some (iter_at this (k + 1)).
Proof. apply incr_iter_at. Qed.

Lemma decr_iter_at k :
  0 <= k < cap this - 1 ->
  basic_iterator.decr (iter_at this (k + 1)) = Some (iter_at this k).
Proof.
  intros Hk. unfold basic_iterator.decr, iter_at. simpl.
  pose proof (physical_slot_range this (k + 1) ltac:(lia)).
  rewrite size_rem_retreat by lia. simpl.
  now rewrite physical_slot_pred by lia.
Qed.

Lemma minus_1_iter_at k :
  0 <= k < cap this - 1 ->
  basic_iterator.minus (iter_at this (k + 1)) 1 = Some (iter_at this k).
Proof. apply decr_iter_at. Qed.

Lemma get_pos_iter_at k :
  0 <= k < cap this -> basic_iterator.get_pos (iter_at this k) = Some k.
Proof.
  intros Hk. unfold basic_iterator.get_pos, iter_at. simpl.
  pose proof (physical_slot_range this k ltac:(lia)).
  rewrite size_rem_get_pos by lia. f_equal.
  unfold physical_slot. now apply phys_logical.
Qed.

Lemma eqb_iter_at j k :
  0 <= j < cap this -> 0 <= k < cap this ->
  basic_iterator.eqb (iter_at this j) (iter_at this k) = (j =? k).
Proof.
  intros Hj Hk. unfold basic_iterator.eqb, iter_at, ptr_eqb. simpl.
  rewrite bool_decide_eq_true_2 by reflexivity. rewrite andb_true_r.
  destruct (Z.eqb_spec j k) as [-> | Hne]; [apply Z.eqb_refl |].
  apply Z.eqb_neq. intros E. apply Hne.
  apply (phys_inj (cap this) (ind_begin this)); try lia. exact E.
Qed.

End IterAt.

(** ** Exchanging two live elements *)

Lemma allocated_range this h l b slots :
  allocated this h l b slots ->
  0 < cap this <= PTRDIFF_MAX /\ 0 <= ind_begin this < cap this /\
  sz this = Z.of_nat (length l) /\ sz this < cap this.
Proof.
  intros A. split; [eapply allocated_cap_range, A |].
  split; [apply (al_begin _ _ _ _ _ A) |].
  split; [apply (al_sz _ _ _ _ _ A) | apply (al_room _ _ _ _ _ A)].
Qed.

(** Overwriting the element of logical index [k]. *)
Lemma assign_allocated this h l b slots (k : nat) x v :
  allocated this h l b slots -> l !! k = Some x -> copy_ok v = true ->
  exists slots',
    assign (data this) (physical_slot this (Z.of_nat k)) v this h
    = Return tt this (set_slot (data this) (physical_slot this (Z.of_nat k)) (Some v) h) /\
    allocated this (set_slot (data this) (physical_slot this (Z.of_nat k)) (Some v) h)
      (<[k := v]> l) b slots'.
Proof.
  intros A Hx Hv. destruct (allocated_range _ _ _ _ _ A) as (Hc & Hb & Hsz & Hroom).
  pose proof (lookup_lt_Some _ _ _ Hx) as Hk.
  eexists. split.
  - erewrite assign_live.
    + now rewrite Hv.
    + rewrite (allocated_slot _ _ _ _ _ _ A) by lia. now rewrite Hx.
  - eapply allocated_update; try eassumption; try reflexivity; try lia.
    + rewrite length_insert. exact Hsz.
    + apply (al_end _ _ _ _ _ A).
    + now apply list_lookup_insert_eq.
    + intros i Hi. now apply list_lookup_insert_ne.
Qed.

Lemma exchange_allocated this h l b slots (i j : nat) x y :
  allocated this h l b slots -> l !! i = Some x -> l !! j = Some y ->
  copy_ok x = true -> copy_ok y = true ->
  exists h' slots',
    exchange (iter_at this (Z.of_nat i)) (iter_at this (Z.of_nat j)) this h
    = Return tt this h' /\
    allocated this h' (<[j := x]> (<[i := y]> l)) b slots'.
Proof.
  intros A Hx Hy Cx Cy. destruct (allocated_range _ _ _ _ _ A) as (Hc & Hb & Hsz & Hroom).
  pose proof (lookup_lt_Some _ _ _ Hx) as Hi.
  pose proof (lookup_lt_Some _ _ _ Hy) as Hj.
  destruct (assign_allocated _ _ _ _ _ i x y A Hx Cy) as (slots1 & E1 & A1).
  assert (Hy1 : exists w, <[i := y]> l !! j = Some w).
  { apply lookup_lt_is_Some_2. now rewrite length_insert. }
  destruct Hy1 as [w Hw].
  destruct (assign_allocated _ _ _ _ _ j w x A1 Hw Cx) as (slots2 & E2 & A2).
  eexists _, slots2. split; [| exact A2].
  unfold exchange, deref, iter_at. simpl.
  erewrite bind_Return.
  2:{ apply read_live. rewrite (allocated_slot _ _ _ _ _ _ A) by lia. now rewrite Hx. }
  erewrite bind_Return by (unfold copy_T; rewrite Cx; reflexivity).
  erewrite bind_Return.
  2:{ apply read_live. rewrite (allocated_slot _ _ _ _ _ _ A) by lia. now rewrite Hy. }
  erewrite bind_Return by exact E1.
  exact E2.
Qed.

(** Moving [v] one place up or down in [take j l ++ v :: drop j l]. *)
Lemma take_drop_lookup_at l (j : nat) (v : T) :
  (j <= length l)%nat -> (take j l ++ v :: drop j l) !! j = Some v.
Proof.
  intros Hj. rewrite lookup_app_r by (rewrite length_take; lia).
  rewrite length_take. replace (j - j `min` length l)%nat with 0%nat by lia. reflexivity.
Qed.

Lemma take_drop_lookup_next l (j : nat) (v y : T) :
  l !! j = Some y -> (take j l ++ v :: drop j l) !! S j = Some y.
Proof.
  intros Hy. pose proof (lookup_lt_Some _ _ _ Hy).
  rewrite lookup_app_r by (rewrite length_take; lia).
  rewrite length_take. replace (S j - j `min` length l)%nat with 1%nat by lia.
  simpl. rewrite lookup_drop. now rewrite Nat.add_0_r.
Qed.

Lemma take_drop_up l (j : nat) (v y : T) :
  l !! j = Some y ->
  <[S j := v]> (<[j := y]> (take j l ++ v :: drop j l))
  = take (S j) l ++ v :: drop (S j) l.
Proof.
  intros Hy. pose proof (lookup_lt_Some _ _ _ Hy) as Hj.
  rewrite (take_S_r _ _ _ Hy), (drop_S _ _ _ Hy).
  assert (Hlen : length (take j l) = j) by (rewrite length_take; lia).
  rewrite <- app_assoc. simpl.
  replace j with (length (take j l) + 0)%nat at 2 by lia.
  rewrite insert_app_r. simpl.
  replace (S j) with (length (take j l) + 1)%nat at 1 by lia.
  rewrite insert_app_r. reflexivity.
Qed.

Lemma take_drop_down l (j : nat) (v y : T) :
  l !! j = Some y ->
  <[S j := y]> (<[j := v]> (take (S j) l ++ v :: drop (S j) l))
  = take j l ++ v :: drop j l.
Proof.
  intros Hy. pose proof (lookup_lt_Some _ _ _ Hy) as Hj.
  rewrite (take_S_r _ _ _ Hy), (drop_S _ _ _ Hy).
  assert (Hlen : length (take j l) = j) by (rewrite length_take; lia).
  rewrite <- app_assoc. simpl.
  replace j with (length (take j l) + 0)%nat at 2 by lia.
  rewrite insert_app_r. simpl.
  replace (S j) with (length (take j l) + 1)%nat at 1 by lia.
  rewrite insert_app_r. reflexivity.
Qed.

(** ** The loops of [insert] and [erase] *)

Lemma forallb_lookup (l : list T) (i : nat) y :
  forallb copy_ok l = true -> l !! i = Some y -> copy_ok y = true.
Proof.
  intros Hall Hy. rewrite forallb_forall in Hall. apply Hall.
  apply list_elem_of_In, list_elem_of_lookup. eauto.
Qed.

Lemma neqb_iter_at this stop (j k : nat) :
  0 < cap this <= PTRDIFF_MAX -> 0 <= ind_begin this < cap this ->
  Z.of_nat j < cap this -> Z.of_nat k < cap this ->
  basic_iterator.data stop = data this ->
  basic_iterator.ind stop = physical_slot this (Z.of_nat k) ->
  basic_iterator.neqb (iter_at this (Z.of_nat j)) stop = negb (Nat.eqb j k).
Proof.
  intros Hc Hb Hj Hk Hd Hi. unfold basic_iterator.neqb, basic_iterator.eqb, ptr_eqb.
  f_equal. simpl. rewrite Hd, Hi.
  rewrite bool_decide_eq_true_2 by reflexivity. rewrite andb_true_r.
  destruct (Nat.eqb_spec j k) as [-> | Hne]; [apply Z.eqb_refl |].
  apply Z.eqb_neq. intros E. apply Hne.
  assert (Z.of_nat j = Z.of_nat k); [| lia].
  apply (phys_inj (cap this) (ind_begin this)); try lia. exact E.
Qed.

(** The forward loop: [v] moves up from index [j] to index [k]. *)
Lemma bubble_up this b L v stop (k : nat) :
  basic_iterator.data stop = data this ->
  basic_iterator.ind stop = physical_slot this (Z.of_nat (S k)) ->
  (k <= length L)%nat -> Z.of_nat (length L) + 1 < cap this ->
  forallb copy_ok L = true -> copy_ok v = true ->
  forall (m j : nat) h slots (fuel : nat),
    (j + m = k)%nat -> (m <= fuel)%nat ->
    allocated this h (take j L ++ v :: drop j L) b slots ->
    exists h' slots',
      while_loop fuel
        (fun '(it1, it2) => mret (basic_iterator.neqb it2 stop))
        (fun '(it1, it2) =>
           exchange it1 it2;;
           it1 ← ub (basic_iterator.incr it1);
           it2 ← ub (basic_iterator.incr it2);
           mret (it1, it2))
        (iter_at this (Z.of_nat j), iter_at this (Z.of_nat (S j))) this h
      = Return (iter_at this (Z.of_nat k), iter_at this (Z.of_nat (S k))) this h' /\
      allocated this h' (take k L ++ v :: drop k L) b slots'.
Proof.
  intros Hd Hi Hk Hroom Hall Hv.
  induction m as [| m IH]; intros j h slots fuel Hj Hfuel A;
    destruct (allocated_range _ _ _ _ _ A) as (Hc & Hb & _ & _).
  - rewrite Nat.add_0_r in Hj. subst j. exists h, slots. split; [| exact A].
    rewrite while_loop_unfold.
    erewrite bind_Return with (a := false); [reflexivity |].
    munfold. rewrite (neqb_iter_at this stop (S k) (S k)) by (assumption || lia).
    now rewrite Nat.eqb_refl.
  - destruct fuel as [| fuel]; [lia |].
    destruct (lookup_lt_is_Some_2 L j ltac:(lia)) as [y Hy].
    destruct (exchange_allocated this h _ b slots j (S j) v y A
                (take_drop_lookup_at L j v ltac:(lia))
                (take_drop_lookup_next L j v y Hy) Hv (forallb_lookup _ _ _ Hall Hy))
      as (h1 & slots1 & Ex & A1).
    rewrite (take_drop_up L j v y Hy) in A1.
    destruct (IH (S j) h1 slots1 fuel ltac:(lia) ltac:(lia) A1) as (h' & slots' & El & A').
    exists h', slots'. split; [| exact A'].
    rewrite while_loop_unfold.
    erewrite bind_Return with (a := true).
    2:{ munfold. rewrite (neqb_iter_at this stop (S j) (S k)) by (assumption || lia).
        destruct (Nat.eqb_spec (S j) (S k)); [lia | reflexivity]. }
    erewrite bind_Return; [exact El |].
    erewrite bind_Return by exact Ex.
    erewrite bind_Return
      by (unfold ub; rewrite incr_iter_at by (assumption || lia); reflexivity).
    erewrite bind_Return
      by (unfold ub; rewrite incr_iter_at by (assumption || lia); reflexivity).
    replace (Z.of_nat j + 1) with (Z.of_nat (S j)) by lia.
    replace (Z.of_nat (S j) + 1) with (Z.of_nat (S (S j))) by lia.
    reflexivity.
Qed.

(** The backward loop on a pair of iterators: [v] moves down from index
    [S j] to index [S k]. *)
Lemma bubble_down this b L v stop (k : nat) :
  basic_iterator.data stop = data this ->
  basic_iterator.ind stop = physical_slot this (Z.of_nat (S k)) ->
  Z.of_nat (length L) + 1 < cap this ->
  forallb copy_ok L = true -> copy_ok v = true ->
  forall (m j : nat) h slots (fuel : nat),
    (j = k + m)%nat -> (m <= fuel)%nat -> (S j <= length L)%nat ->
    allocated this h (take (S j) L ++ v :: drop (S j) L) b slots ->
    exists h' slots',
      while_loop fuel
        (fun '(it1, it2) => mret (basic_iterator.neqb it2 stop))
        (fun '(it1, it2) =>
           exchange it1 it2;;
           it1 ← ub (basic_iterator.decr it1);
           it2 ← ub (basic_iterator.decr it2);
           mret (it1, it2))
        (iter_at this (Z.of_nat j), iter_at this (Z.of_nat (S j))) this h
      = Return (iter_at this (Z.of_nat k), iter_at this (Z.of_nat (S k))) this h' /\
      allocated this h' (take (S k) L ++ v :: drop (S k) L) b slots'.
Proof.
  intros Hd Hi Hroom Hall Hv.
  induction m as [| m IH]; intros j h slots fuel Hj Hfuel Hlen A;
    destruct (allocated_range _ _ _ _ _ A) as (Hc & Hb & _ & _).
  - rewrite Nat.add_0_r in Hj. subst j. exists h, slots. split; [| exact A].
    rewrite while_loop_unfold.
    erewrite bind_Return with (a := false); [reflexivity |].
    munfold. rewrite (neqb_iter_at this stop (S k) (S k)) by (assumption || lia).
    now rewrite Nat.eqb_refl.
  - destruct fuel as [| fuel]; [lia |].
    destruct j as [| j]; [lia |].
    destruct (lookup_lt_is_Some_2 L (S j) ltac:(lia)) as [y Hy].
    assert (Hy' : (take (S (S j)) L ++ v :: drop (S (S j)) L) !! S j = Some y).
    { rewrite lookup_app_l by (rewrite length_take; lia).
      rewrite lookup_take_lt by lia. exact Hy. }
    destruct (exchange_allocated this h _ b slots (S j) (S (S j)) y v A Hy'
                (take_drop_lookup_at L (S (S j)) v ltac:(lia))
                (forallb_lookup _ _ _ Hall Hy) Hv)
      as (h1 & slots1 & Ex & A1).
    rewrite (take_drop_down L (S j) v y Hy) in A1.
    destruct (IH j h1 slots1 fuel ltac:(lia) ltac:(lia) ltac:(lia) A1)
      as (h' & slots' & El & A').
    exists h', slots'. split; [| exact A'].
    rewrite while_loop_unfold.
    erewrite bind_Return with (a := true).
    2:{ munfold. rewrite (neqb_iter_at this stop (S (S j)) (S k)) by (assumption || lia).
        destruct (Nat.eqb_spec (S (S j)) (S k)); [lia | reflexivity]. }
    erewrite bind_Return; [exact El |].
    erewrite bind_Return by exact Ex.
    replace (Z.of_nat (S j)) with (Z.of_nat j + 1) by lia.
    replace (Z.of_nat (S (S j))) with (Z.of_nat j + 1 + 1) by lia.
    erewrite bind_Return
      by (unfold ub; rewrite decr_iter_at by (assumption || lia); reflexivity).
    erewrite bind_Return
      by (unfold ub; rewrite decr_iter_at by (assumption || lia); reflexivity).
    reflexivity.
Qed.

(** The backward loop of [erase]: [v] moves down from index [j] to the
    front. *)
Lemma bubble_front this b L v :
  Z.of_nat (length L) + 1 < cap this ->
  forallb copy_ok L = true -> copy_ok v = true ->
  forall (j : nat) h slots (fuel : nat),
    (j <= fuel)%nat -> (j <= length L)%nat ->
    allocated this h (take j L ++ v :: drop j L) b slots ->
    exists h' slots',
      while_loop fuel
        (fun it2 => mret (basic_iterator.neqb it2 (begin_ this)))
        (fun it2 =>
           it1 ← ub (basic_iterator.minus it2 1);
           exchange it1 it2;;
           ub (basic_iterator.decr it2))
        (iter_at this (Z.of_nat j)) this h
      = Return (iter_at this 0) this h' /\
      allocated this h' (v :: L) b slots'.
Proof.
  intros Hroom Hall Hv.
  induction j as [| j IH]; intros h slots fuel Hfuel Hlen A;
    destruct (allocated_range _ _ _ _ _ A) as (Hc & Hb & _ & _).
  - exists h, slots. split; [| exact A].
    rewrite while_loop_unfold.
    erewrite bind_Return with (a := false); [reflexivity |].
    munfold. rewrite (neqb_iter_at this (begin_ this) 0 0); try assumption; try lia.
    + reflexivity.
    + reflexivity.
    + simpl. symmetry. now apply physical_slot_0.
  - destruct fuel as [| fuel]; [lia |].
    destruct (lookup_lt_is_Some_2 L j ltac:(lia)) as [y Hy].
    assert (Hy' : (take (S j) L ++ v :: drop (S j) L) !! j = Some y).
    { rewrite lookup_app_l by (rewrite length_take; lia).
      rewrite lookup_take_lt by lia. exact Hy. }
    destruct (exchange_allocated this h _ b slots j (S j) y v A Hy'
                (take_drop_lookup_at L (S j) v ltac:(lia))
                (forallb_lookup _ _ _ Hall Hy) Hv)
      as (h1 & slots1 & Ex & A1).
    rewrite (take_drop_down L j v y Hy) in A1.
    destruct (IH h1 slots1 fuel ltac:(lia) ltac:(lia) A1) as (h' & slots' & El & A').
    exists h', slots'. split; [| exact A'].
    rewrite while_loop_unfold.
    erewrite bind_Return with (a := true).
    2:{ munfold. rewrite (neqb_iter_at this (begin_ this) (S j) 0); try assumption; try lia.
        - reflexivity.
        - reflexivity.
        - simpl. symmetry. now apply physical_slot_0. }
    erewrite bind_Return; [exact El |].
    replace (Z.of_nat (S j)) with (Z.of_nat j + 1) by lia.
    erewrite bind_Return
      by (unfold ub; rewrite minus_1_iter_at by (assumption || lia); reflexivity).
    erewrite bind_Return by (replace (Z.of_nat j + 1) with (Z.of_nat (S j)) by lia; exact Ex).
    unfold ub. rewrite decr_iter_at by (assumption || lia). reflexivity.
Qed.

(** ** [insert] where it works *)

Lemma end_iter_at this h l b slots :
  allocated this h l b slots -> end_ this = iter_at this (sz this).
Proof. intros A. unfold end_, iter_at. now rewrite (al_end _ _ _ _ _ A). Qed.

Lemma iter_at_0_begin this h l : repr this h l -> iter_at this 0 = begin_ this.
Proof.
  intros [[-> ->] | (b & slots & A)]; [reflexivity |].
  destruct (allocated_range _ _ _ _ _ A) as (Hc & Hb & _). symmetry.
  now apply begin_iter_at.
Qed.

Lemma eqb_refl_iter a : basic_iterator.eqb a a = true.
Proof.
  unfold basic_iterator.eqb, ptr_eqb. rewrite Z.eqb_refl.
  now rewrite bool_decide_eq_true_2.
Qed.

(** [insert] at [begin()]. *)
Lemma insert_begin v this h l :
  repr this h l -> forallb copy_ok l = true -> copy_ok v = true ->
  (forall n, growth (2 * sz this) this = Some n -> grants n = true) ->
  exists this' h',
    insert (iter_at this 0) (outside v) this h = Return (iter_at this' 0) this' h' /\
    repr this' h' (v :: l).
Proof.
  intros R Hall Hv Hg.
  destruct (push_front_returns v this h l R Hall Hv Hg) as (this' & h' & E).
  pose proof (push_front_spec v this h l R) as S. rewrite E in S.
  destruct S as (Tr & _).
  exists this', h'. split; [| apply Tr].
  unfold insert. erewrite bind_Return by reflexivity.
  rewrite (iter_at_0_begin _ _ _ R), eqb_refl_iter.
  erewrite bind_Return by exact E.
  erewrite bind_Return by reflexivity.
  now rewrite (iter_at_0_begin _ _ _ (tr_repr _ _ _ _ _ Tr)).
Qed.

(** [insert] at [end()] of a non-empty container. *)
Lemma insert_end v this h l :
  repr this h l -> 0 < sz this -> forallb copy_ok l = true -> copy_ok v = true ->
  (forall n, growth (2 * cap this) this = Some n -> grants n = true) ->
  exists this' h',
    insert (iter_at this (sz this)) (outside v) this h = Return (iter_at this' (sz this)) this' h' /\
    repr this' h' (l ++ [v]).
Proof.
  intros R Hpos Hall Hv Hg.
  destruct (repr_nonempty _ _ _ R Hpos) as (b & slots & A).
  destruct (allocated_range _ _ _ _ _ A) as (Hc & Hb & Hsz & Hroom).
  destruct (push_back_returns v this h l R Hall Hv Hg) as (this' & h' & E).
  pose proof (push_back_spec v this h l R) as S. rewrite E in S.
  destruct S as (Tr & _ & Hsz' & _).
  destruct (repr_nonempty _ _ _ (tr_repr _ _ _ _ _ Tr) ltac:(lia)) as (b' & slots' & A').
  destruct (allocated_range _ _ _ _ _ A') as (Hc' & Hb' & _ & Hroom').
  exists this', h'. split; [| apply Tr].
  unfold insert. erewrite bind_Return by reflexivity.
  rewrite (begin_iter_at this Hb), (eqb_iter_at this Hc Hb) by lia.
  destruct (Z.eqb_spec (sz this) 0); [lia |].
  rewrite (end_iter_at _ _ _ _ _ A), eqb_refl_iter.
  erewrite bind_Return by exact E.
  erewrite bind_Return by reflexivity.
  unfold ub. rewrite (end_iter_at _ _ _ _ _ A'), Hsz'.
  rewrite (decr_iter_at this' Hc' Hb') by lia. reflexivity.
Qed.

Lemma growth_none full this :
  sz this <> 0 -> sz this + 1 < cap this -> growth full this = None.
Proof.
  intros Hnz Hroom. unfold growth, empty.
  destruct (Z.eqb_spec (sz this) 0); [lia |].
  destruct (Z.eqb_spec (sz this) (cap this - 1)); [lia | reflexivity].
Qed.

(** [insert] at an interior position when no growth is needed. *)
Lemma insert_interior v this h l (k : nat) :
  repr this h l -> (0 < k < length l)%nat -> sz this + 1 < cap this ->
  forallb copy_ok l = true -> copy_ok v = true ->
  exists this' h',
    insert (iter_at this (Z.of_nat k)) (outside v) this h
    = Return (iter_at this' (Z.of_nat k)) this' h' /\
    repr this' h' (take k l ++ v :: drop k l) /\ cap this' = cap this.
Proof.
  intros R Hk Hroom1 Hall Hv.
  destruct (repr_nonempty _ _ _ R) as (b & slots & A).
  { rewrite (repr_sz _ _ _ R). lia. }
  destruct (allocated_range _ _ _ _ _ A) as (Hc & Hb & Hsz & Hroom).
  unfold insert. erewrite bind_Return by reflexivity.
  rewrite (begin_iter_at this Hb), (eqb_iter_at this Hc Hb) by lia.
  destruct (Z.eqb_spec (Z.of_nat k) 0); [lia |].
  rewrite (end_iter_at _ _ _ _ _ A), (eqb_iter_at this Hc Hb) by lia.
  destruct (Z.eqb_spec (Z.of_nat k) (sz this)); [lia |].
  erewrite bind_Return
    by (unfold ub; rewrite (get_pos_iter_at this Hc Hb) by lia; reflexivity).
  destruct (Z.of_nat k <=? sz this / 2).
  - (* front half *)
    assert (E : push_front (outside v) this h
                = Return tt (placed_front this)
                    (set_slot (data this) ((ind_begin this - 1) mod cap this) (Some v) h)).
    { rewrite (push_front_eval v this h l R). unfold push_front_result, grow_result.
      rewrite growth_none by lia. now rewrite Hv. }
    destruct (place_front_allocated v _ _ _ _ _ A Hroom1) as [_ A1].
    fold (placed_front this) in A1.
    set (this1 := placed_front this) in *.
    set (h1 := set_slot (data this) ((ind_begin this - 1) mod cap this) (Some v) h) in *.
    destruct (allocated_range _ _ _ _ _ A1) as (Hc1 & Hb1 & Hsz1 & Hroom').
    assert (Hstop : basic_iterator.ind (iter_at this (Z.of_nat k))
                    = physical_slot this1 (Z.of_nat (S k))).
    { unfold iter_at, physical_slot, this1, placed_front. simpl.
      rewrite Zplus_mod_idemp_l. f_equal. lia. }
    destruct (bubble_up this1 b l v (iter_at this (Z.of_nat k)) k eq_refl Hstop
                ltac:(lia) ltac:(unfold this1; simpl; lia) Hall Hv
                k 0%nat h1 _ (Z.to_nat (cap this1)) eq_refl
                ltac:(unfold this1; simpl; lia) A1)
      as (h' & slots' & El & A').
    exists this1, h'. split; [| split; [eapply repr_allocated, A' | reflexivity]].
    erewrite bind_Return by exact E.
    erewrite bind_Return by reflexivity.
    rewrite (begin_iter_at this1 Hb1).
    erewrite bind_Return
      by (unfold ub; rewrite (incr_iter_at this1 Hc1 Hb1) by lia; reflexivity).
    erewrite bind_Return by exact El.
    reflexivity.
  - (* back half *)
    assert (E : push_back (outside v) this h
                = Return tt (placed_back this)
                    (set_slot (data this) (ind_end this) (Some v) h)).
    { rewrite (push_back_eval v this h l R). unfold push_back_result, grow_result.
      rewrite growth_none by lia. now rewrite Hv. }
    destruct (place_back_allocated v _ _ _ _ _ A Hroom1) as [_ A1].
    fold (placed_back this) in A1.
    set (this1 := placed_back this) in *.
    set (h1 := set_slot (data this) (ind_end this) (Some v) h) in *.
    destruct (allocated_range _ _ _ _ _ A1) as (Hc1 & Hb1 & Hsz1 & Hroom').
    destruct k as [| k']; [lia |].
    assert (Hstop : basic_iterator.ind (iter_at this (Z.of_nat (S k')))
                    = physical_slot this1 (Z.of_nat (S k'))) by reflexivity.
    assert (Elist : l ++ [v] = take (S (length l - 1)) l ++ v :: drop (S (length l - 1)) l).
    { replace (S (length l - 1)) with (length l) by lia.
      now rewrite firstn_all, drop_all. }
    rewrite Elist in A1.
    destruct (bubble_down this1 b l v (iter_at this (Z.of_nat (S k'))) k' eq_refl Hstop
                ltac:(unfold this1; simpl; lia) Hall Hv
                (length l - 1 - k')%nat (length l - 1)%nat h1 _ (Z.to_nat (cap this1))
                ltac:(lia) ltac:(unfold this1; simpl; lia) ltac:(lia) A1)
      as (h' & slots' & El & A').
    exists this1, h'. split; [| split; [eapply repr_allocated, A' | reflexivity]].
    erewrite bind_Return by exact E.
    erewrite bind_Return by reflexivity.
    rewrite (end_iter_at _ _ _ _ _ A1).
    assert (Esz : sz this1 = Z.of_nat (length l - 1) + 1 + 1).
    { unfold this1. simpl. lia. }
    rewrite Esz.
    erewrite bind_Return
      by (unfold ub; rewrite (decr_iter_at this1 Hc1 Hb1) by lia; reflexivity).
    erewrite bind_Return
      by (unfold ub; rewrite (decr_iter_at this1 Hc1 Hb1) by lia; reflexivity).
    erewrite bind_Return
      by (unfold ub; rewrite (decr_iter_at this1 Hc1 Hb1) by lia; reflexivity).
    replace (Z.of_nat (length l - 1) + 1) with (Z.of_nat (S (length l - 1))) by lia.
    erewrite bind_Return by exact El.
    reflexivity.
Qed.

(** ** [erase] *)

Lemma delete_decompose l (k : nat) (x : T) :
  l !! k = Some x ->
  let L := take k l ++ drop (S k) l in
  l = take k L ++ x :: drop k L /\ (length L + 1 = length l)%nat.
Proof.
  intros Hx L. pose proof (lookup_lt_Some _ _ _ Hx) as Hk.
  assert (Hlen : length (take k l) = k) by (rewrite length_take; lia).
  subst L. split.
  - rewrite take_app_length' by (symmetry; exact Hlen).
    rewrite drop_app_length' by (symmetry; exact Hlen).
    rewrite <- (take_drop_middle l k x Hx) at 1. reflexivity.
  - rewrite length_app, length_take, length_drop. lia.
Qed.

Lemma forallb_take l (k : nat) :
  forallb copy_ok l = true -> forallb copy_ok (take k l) = true.
Proof.
  revert k. induction l as [| y l IH]; intros [| k] Hall; try reflexivity.
  simpl in *. apply andb_prop in Hall as [-> Hl]. now apply IH.
Qed.

Lemma forallb_drop l (k : nat) :
  forallb copy_ok l = true -> forallb copy_ok (drop k l) = true.
Proof.
  revert k. induction l as [| y l IH]; intros [| k] Hall; try reflexivity; try exact Hall.
  simpl in *. apply andb_prop in Hall as [_ Hl]. now apply IH.
Qed.

Lemma forallb_delete l (k : nat) :
  forallb copy_ok l = true -> forallb copy_ok (take k l ++ drop (S k) l) = true.
Proof.
  intros Hall. rewrite forallb_app.
  now rewrite forallb_take, forallb_drop.
Qed.

Lemma quiet_leaked {A} (m : M T A) this h a this' h' :
  quiet m -> m this h = Return a this' h' -> this' = this /\ leaked h' = leaked h.
Proof.
  intros Q E. specialize (Q this h). rewrite E in Q.
  destruct Q as [-> [_ Hl]]. now split.
Qed.

(** [erase] at the position of a live element removes that element.  The
    iterator it returns is at the position of the erased element, except
    after erasing the last of several elements, when it is at the new last
    element. *)
Lemma erase_at_iter this h l (k : nat) x :
  repr this h l -> l !! k = Some x -> forallb copy_ok l = true ->
  exists this' h',
    erase (iter_at this (Z.of_nat k)) this h
    = Return (iter_at this'
                (if (0 <? Z.of_nat k) && (Z.of_nat k =? sz this - 1)
                 then Z.of_nat k - 1 else Z.of_nat k)) this' h' /\
    repr this' h' (take k l ++ drop (S k) l) /\ cap this' = cap this /\
    leaked h' = leaked h.
Proof.
  intros R Hx Hall. pose proof (lookup_lt_Some _ _ _ Hx) as Hk.
  destruct (repr_nonempty _ _ _ R) as (b & slots & A).
  { rewrite (repr_sz _ _ _ R). lia. }
  destruct (allocated_range _ _ _ _ _ A) as (Hc & Hb & Hsz & Hroom).
  pose proof PTRDIFF_MAX_eq. pose proof SIZE_MOD_eq.
  set (k' := if (0 <? Z.of_nat k) && (Z.of_nat k =? sz this - 1)
             then Z.of_nat k - 1 else Z.of_nat k).
  assert (Hk' : (Z.of_nat k = 0 \/ Z.of_nat k <> sz this - 1 -> k' = Z.of_nat k) /\
                (Z.of_nat k <> 0 -> Z.of_nat k = sz this - 1 -> k' = Z.of_nat k - 1)).
  { unfold k'. destruct (Z.ltb_spec 0 (Z.of_nat k));
      destruct (Z.eqb_spec (Z.of_nat k) (sz this - 1)); simpl; split; intros; lia. }
  clearbody k'. destruct Hk' as [Hsame Hprev].
  unfold erase. erewrite bind_Return by reflexivity.
  erewrite bind_Return
    by (unfold ub; rewrite (get_pos_iter_at this Hc Hb) by lia; reflexivity).
  erewrite bind_Return
    by (unfold assert_; destruct (Z.ltb_spec (Z.of_nat k) (sz this)); [reflexivity | lia]).
  rewrite (begin_iter_at this Hb), (eqb_iter_at this Hc Hb) by lia.
  destruct (Z.eqb_spec (Z.of_nat k) 0) as [Hk0 | Hk0].
  { (* the first element *)
    rewrite Hsame by now left.
    destruct k; [| lia]. destruct l as [| x0 l0]; [discriminate |].
    destruct (pop_front_spec _ _ _ _ R) as (this' & h' & E & Tr & Hcap & _).
    exists this', h'. split; [| split; [apply Tr | split; [exact Hcap | apply Tr]]].
    erewrite bind_Return by exact E.
    erewrite bind_Return by reflexivity.
    change (Z.of_nat 0) with 0.
    rewrite (iter_at_0_begin _ _ _ (tr_repr _ _ _ _ _ Tr)). reflexivity. }
  assert (Elast : basic_iterator.decr (end_ this) = Some (iter_at this (sz this - 1))).
  { rewrite (end_iter_at _ _ _ _ _ A).
    replace (sz this) with (sz this - 1 + 1) at 1 by lia.
    apply (decr_iter_at this Hc Hb). lia. }
  erewrite bind_Return by (unfold ub; rewrite Elast; reflexivity).
  rewrite (eqb_iter_at this Hc Hb) by lia.
  destruct (Z.eqb_spec (Z.of_nat k) (sz this - 1)) as [Hkl | Hkl].
  { (* the last element *)
    rewrite Hprev by assumption.
    assert (El : l = take k l ++ [x]).
    { rewrite <- (take_drop_middle l k x Hx) at 1. f_equal.
      rewrite drop_ge by lia. reflexivity. }
    rewrite El in R.
    destruct (pop_back_spec _ _ _ _ R) as (this' & h' & E & Tr & Hcap & Hbeg & Hsz').
    destruct (repr_nonempty _ _ _ (tr_repr _ _ _ _ _ Tr) ltac:(lia)) as (b' & slots' & A').
    destruct (allocated_range _ _ _ _ _ A') as (Hc' & Hb' & _ & _).
    exists this', h'. split; [| split; [| split; [exact Hcap | apply Tr]]].
    - erewrite bind_Return by exact E.
      erewrite bind_Return by reflexivity.
      unfold ub. rewrite (end_iter_at _ _ _ _ _ A').
      replace (iter_at this' (sz this')) with (iter_at this' (sz this' - 1 + 1))
        by (f_equal; lia).
      rewrite (decr_iter_at this' Hc' Hb') by lia.
      replace (sz this' - 1) with (Z.of_nat k - 1) by lia. reflexivity.
    - rewrite (drop_ge l (S k)) by lia. rewrite app_nil_r. apply Tr. }
  (* an interior element *)
  rewrite Hsame by now right.
  erewrite bind_Return
    by (unfold ub; rewrite (get_pos_iter_at this Hc Hb) by lia; reflexivity).
  erewrite bind_Return.
  2:{ unfold ub. rewrite size_rem_add by lia. rewrite Z.add_comm. reflexivity. }
  fold (physical_slot this (Z.of_nat k)). fold (iter_at this (Z.of_nat k)).
  destruct (delete_decompose l k x Hx) as [El HlenL].
  set (L := take k l ++ drop (S k) l) in *.
  pose proof (forallb_delete l k Hall) as HallL. fold L in HallL.
  pose proof (forallb_lookup _ _ _ Hall Hx) as Cx.
  assert (HkL : (k <= length L)%nat) by lia.
  destruct (Z.of_nat k <=? sz this / 2).
  - (* towards the front *)
    assert (A0 : allocated this h (take k L ++ x :: drop k L) b slots) by now rewrite <- El.
    destruct (bubble_front this b L x ltac:(lia) HallL Cx k h slots (Z.to_nat (cap this))
                ltac:(lia) HkL A0) as (h1 & slots1 & Eloop & A1).
    assert (Hl1 : leaked h1 = leaked h).
    { match type of Eloop with
      | ?m this h = _ => assert (Ql : quiet m) by solve_quiet
      end.
      apply (quiet_leaked _ _ _ _ _ _ Ql Eloop). }
    pose proof (pop_front_allocated this h1 L x b slots1 A1) as P. cbv zeta in P.
    destruct P as [E A'].
    pose proof (physical_slot_range this (Z.of_nat k) ltac:(lia)).
    eexists _, _. split; [| split; [eapply repr_allocated, A' | split]].
    + rewrite (begin_iter_at this Hb) in Eloop.
      erewrite bind_Return by exact Eloop.
      erewrite bind_Return by exact E.
      erewrite bind_Return by reflexivity.
      unfold ub, basic_iterator.plus. simpl.
      rewrite size_rem_add by lia. simpl. f_equal.
      unfold iter_at, physical_slot. simpl. f_equal.
      rewrite !Zplus_mod_idemp_l. f_equal. lia.
    + reflexivity.
    + now rewrite leaked_set_slot.
  - (* towards the back *)
    erewrite bind_Return
      by (unfold ub; rewrite (plus_1_iter_at this Hc Hb) by lia; reflexivity).
    assert (A0 : allocated this h (take k L ++ x :: drop k L) b slots) by now rewrite <- El.
    assert (Hstop : basic_iterator.ind (end_ this)
                    = physical_slot this (Z.of_nat (S (length L)))).
    { simpl. rewrite (al_end _ _ _ _ _ A). f_equal. lia. }
    destruct (bubble_up this b L x (end_ this) (length L) eq_refl Hstop ltac:(lia)
                ltac:(lia) HallL Cx (length L - k)%nat k h slots (Z.to_nat (cap this))
                ltac:(lia) ltac:(lia) A0) as (h1 & slots1 & Eloop & A1).
    rewrite firstn_all, drop_all in A1.
    assert (Hl1 : leaked h1 = leaked h).
    { match type of Eloop with
      | ?m this h = _ => assert (Ql : quiet m) by solve_quiet
      end.
      apply (quiet_leaked _ _ _ _ _ _ Ql Eloop). }
    pose proof (pop_back_allocated this h1 L x b slots1 A1) as P. cbv zeta in P.
    destruct P as [E A'].
    eexists _, _. split; [| split; [eapply repr_allocated, A' | split]].
    + replace (Z.of_nat k + 1) with (Z.of_nat (S k)) by lia.
      erewrite bind_Return by exact Eloop.
      erewrite bind_Return by exact E.
      erewrite bind_Return by reflexivity. reflexivity.
    + reflexivity.
    + now rewrite leaked_set_slot.
Qed.

Lemma erase_at this h l (k : nat) x :
  repr this h l -> l !! k = Some x -> forallb copy_ok l = true ->
  exists it this' h',
    erase (iter_at this (Z.of_nat k)) this h = Return it this' h' /\
    repr this' h' (take k l ++ drop (S k) l) /\ cap this' = cap this.
Proof.
  intros R Hx Hall.
  destruct (erase_at_iter this h l k x R Hx Hall) as (this' & h' & E & R' & Hcap & _).
  eauto 8.
Qed.

(** The push that [insert] calls at logical position [k]. *)
Lemma insert_growth_iter_at this h l (k : nat) :
  repr this h l -> (k <= length l)%nat ->
  (k = 0%nat -> insert_growth (iter_at this (Z.of_nat k)) this = Some (2 * sz this)) /\
  (k <> 0%nat -> k = length l ->
   insert_growth (iter_at this (Z.of_nat k)) this = Some (2 * cap this)).
Proof.
  intros R Hk. unfold insert_growth. split.
  - intros ->. change (Z.of_nat 0) with 0.
    now rewrite (iter_at_0_begin _ _ _ R), eqb_refl_iter.
  - intros Hk0 ->. pose proof (repr_sz _ _ _ R) as Hsz.
    destruct (repr_nonempty _ _ _ R ltac:(lia)) as (b & slots & A).
    destruct (allocated_range _ _ _ _ _ A) as (Hc & Hb & _ & Hroom).
    rewrite <- Hsz.
    rewrite (begin_iter_at this Hb), (eqb_iter_at this Hc Hb) by lia.
    destruct (Z.eqb_spec (sz this) 0); [lia |].
    now rewrite (end_iter_at _ _ _ _ _ A), eqb_refl_iter.
Qed.

(** [insert] at logical position [k], given a reference to an object that
    outlives the growth step of the push inside. *)
Lemma insert_at value v this h l (k : nat) :
  repr this h l -> (k <= length l)%nat ->
  (k = 0%nat \/ k = length l \/ sz this + 1 < cap this) ->
  forallb copy_ok l = true -> resolve value h = Some v -> copy_ok v = true ->
  (forall full, insert_growth (iter_at this (Z.of_nat k)) this = Some full ->
     outlives_growth value full this /\
     (forall n, growth full this = Some n -> grants n = true)) ->
  exists this1 h1,
    insert (iter_at this (Z.of_nat k)) value this h
    = Return (iter_at this1 (Z.of_nat k)) this1 h1 /\
    repr this1 h1 (take k l ++ v :: drop k l).
Proof.
  intros R Hk Hcase Hall Hres Hv Hpush.
  rewrite (insert_as_outside _ value v this h l R Hres)
    by (intros full Hfull; apply (Hpush full Hfull)).
  destruct (insert_growth_iter_at this h l k R Hk) as [Hg0 Hgl].
  destruct (Nat.eq_dec k 0%nat) as [Hk0 | Hk0].
  { destruct (Hpush _ (Hg0 Hk0)) as [_ Hgf]. subst k.
    destruct (insert_begin v this h l R Hall Hv Hgf) as (this1 & h1 & E & R1).
    exists this1, h1. split; [exact E |]. now rewrite take_0, drop_0. }
  destruct (Nat.eq_dec k (length l)) as [Hkl | Hkl].
  { destruct (Hpush _ (Hgl Hk0 Hkl)) as [_ Hgb]. subst k.
    pose proof (repr_sz _ _ _ R) as Hsz.
    destruct (insert_end v this h l R ltac:(lia) Hall Hv Hgb) as (this1 & h1 & E & R1).
    exists this1, h1. rewrite <- Hsz. split; [exact E |].
    now rewrite firstn_all, drop_all. }
  destruct Hcase as [? | [? | Hroom]]; [lia | lia |].
  destruct (insert_interior v this h l k R ltac:(lia) Hroom Hall Hv)
    as (this1 & h1 & E & R1 & _).
  exists this1, h1. split; [exact E | exact R1].
Qed.

Lemma delete_inserted (l : list T) (k : nat) v :
  (k <= length l)%nat ->
  (take k l ++ v :: drop k l) !! k = Some v /\
  take k (take k l ++ v :: drop k l) ++ drop (S k) (take k l ++ v :: drop k l) = l /\
  forallb copy_ok (take k l ++ v :: drop k l) = forallb copy_ok l && copy_ok v.
Proof.
  intros Hk.
  assert (Hlen : length (take k l) = k) by (rewrite length_take; lia).
  split; [| split].
  - rewrite lookup_app_r by lia. rewrite Hlen, Nat.sub_diag. reflexivity.
  - rewrite take_app_length' by (symmetry; exact Hlen).
    replace (S k) with (length (take k l) + 1)%nat by lia.
    rewrite drop_app_add. simpl. rewrite drop_0. apply take_drop.
  - assert (El : forallb copy_ok l
                 = forallb copy_ok (take k l) && forallb copy_ok (drop k l)).
    { rewrite <- forallb_app. now rewrite take_drop. }
    rewrite El, forallb_app. simpl.
    destruct (forallb copy_ok (take k l)), (copy_ok v), (forallb copy_ok (drop k l));
      reflexivity.
Qed.

(** X10.  [insert] followed by [erase] of the returned iterator gives the
    sequence back whenever [insert] does not have to reallocate for an
    interior position: at [begin()], at [end()], or with two free slots,
    provided that copies succeed and that, for the one push [insert] calls,
    the allocator grants its growth and the object [v] the reference
    designates outlives it.  Both calls return. *)
Lemma insert_erase_round_trip value v this h l (k : nat) :
  repr this h l -> (k <= length l)%nat ->
  (k = 0%nat \/ k = length l \/ sz this + 1 < cap this) ->
  forallb copy_ok l = true -> resolve value h = Some v -> copy_ok v = true ->
  (forall full, insert_growth (iter_at this (Z.of_nat k)) this = Some full ->
     outlives_growth value full this /\
     (forall n, growth full this = Some n -> grants n = true)) ->
  exists it this1 h1 it' this2 h2,
    insert (iter_at this (Z.of_nat k)) value this h = Return it this1 h1 /\
    erase it this1 h1 = Return it' this2 h2 /\
    repr this2 h2 l.
Proof.
  intros R Hk Hcase Hall Hres Hv Hpush.
  destruct (delete_inserted l k v Hk) as (Hat & Hdel & Hcopy).
  rewrite Hall, Hv in Hcopy. simpl in Hcopy.
  destruct (insert_at value v this h l k R Hk Hcase Hall Hres Hv Hpush)
    as (this1 & h1 & E1 & R1).
  destruct (erase_at this1 h1 _ k v R1 Hat Hcopy) as (it' & this2 & h2 & E2 & R2 & _).
  rewrite Hdel in R2.
  exists (iter_at this1 (Z.of_nat k)), this1, h1, it', this2, h2. auto.
Qed.

(** * Further properties of the operations *)

(** ** Iterator arithmetic *)

Lemma get_pos_valid (a : iterator) :
  basic_iterator.valid a ->
  basic_iterator.get_pos a = Some (basic_iterator.logical_position a).
Proof.
  intros (Hc & Hi & Hb).
  unfold basic_iterator.get_pos, basic_iterator.logical_position.
  rewrite size_rem_get_pos by lia. f_equal.
  replace (basic_iterator.ind a - basic_iterator.ind_begin a + basic_iterator.cap a)
    with (basic_iterator.ind a - basic_iterator.ind_begin a + 1 * basic_iterator.cap a)
    by lia.
  now rewrite Z_mod_plus_full.
Qed.

(** [(i - n + cap) % cap] on [size_t] for a step of at most one turn. *)
Lemma size_rem_minus c i n :
  0 < c <= PTRDIFF_MAX -> 0 <= i < c -> 0 <= n <= c ->
  size_rem (size_add (size_sub i n) c) c = Some ((i - n) mod c).
Proof.
  intros Hc Hi Hn. unfold size_rem, size_add, size_sub.
  pose proof PTRDIFF_MAX_eq. pose proof SIZE_MOD_eq.
  destruct (Z.eqb_spec c 0); [lia |]. f_equal.
  destruct (Z_lt_le_dec (i - n) 0) as [Hneg | Hpos].
  - rewrite (wrap_neg (i - n)) by lia.
    rewrite wrap_over by lia.
    replace (i - n + SIZE_MOD + c - SIZE_MOD) with (i - n + 1 * c) by lia.
    now rewrite Z_mod_plus_full.
  - rewrite (wrap_small (i - n)) by lia.
    rewrite wrap_small by lia.
    replace (i - n + c) with (i - n + 1 * c) by lia.
    now rewrite Z_mod_plus_full.
Qed.

Lemma plus_valid (a : iterator) n :
  basic_iterator.valid a -> 0 <= n <= PTRDIFF_MAX ->
  basic_iterator.plus a n
  = Some (basic_iterator.mk ((basic_iterator.ind a + n) mod basic_iterator.cap a)
            (basic_iterator.cap a) (basic_iterator.data a) (basic_iterator.ind_begin a)).
Proof.
  intros (Hc & Hi & Hb) Hn. pose proof PTRDIFF_MAX_eq. pose proof SIZE_MOD_eq.
  unfold basic_iterator.plus. now rewrite size_rem_add by lia.
Qed.

Lemma minus_valid (a : iterator) n :
  basic_iterator.valid a -> 0 <= n <= basic_iterator.cap a ->
  basic_iterator.minus a n
  = Some (basic_iterator.mk ((basic_iterator.ind a - n) mod basic_iterator.cap a)
            (basic_iterator.cap a) (basic_iterator.data a) (basic_iterator.ind_begin a)).
Proof.
  intros (Hc & Hi & Hb) Hn.
  unfold basic_iterator.minus. now rewrite size_rem_minus by lia.
Qed.

(** Moving the physical index moves the logical position by as much. *)
Lemma logical_shift c (b0 : Z) i d :
  0 < c -> (((i + d) mod c) - b0 + c) mod c = (((i - b0 + c) mod c) + d) mod c.
Proof.
  intros Hc.
  rewrite (Zplus_mod_idemp_l (i - b0 + c) d c).
  replace ((i + d) mod c - b0 + c) with ((i + d) mod c + (c - b0)) by lia.
  rewrite Zplus_mod_idemp_l. f_equal. lia.
Qed.

(** X1.  For an iterator [a] into an allocated ring and a step [n] of at
    most one turn ([0 <= n <= cap]): [a + n] and [a - n] are defined and are
    again iterators into the ring, their logical positions are those of [a]
    moved by [n] forwards and backwards modulo the capacity, and the two
    operators undo each other: [(a + n) - n] and [(a - n) + n] are [a].
    [++a] and [--a] are the steps by one. *)
Theorem iterator_plus_minus_inverse (a : iterator) (n : Z) :
  basic_iterator.valid a -> 0 <= n <= basic_iterator.cap a ->
  (exists a' : iterator,
     basic_iterator.plus a n = Some a' /\ basic_iterator.valid a' /\
     basic_iterator.get_pos a'
     = Some ((basic_iterator.logical_position a + n) mod basic_iterator.cap a) /\
     basic_iterator.minus a' n = Some a) /\
  (exists a' : iterator,
     basic_iterator.minus a n = Some a' /\ basic_iterator.valid a' /\
     basic_iterator.get_pos a'
     = Some ((basic_iterator.logical_position a - n) mod basic_iterator.cap a) /\
     basic_iterator.plus a' n = Some a) /\
  basic_iterator.incr a = basic_iterator.plus a 1 /\
  basic_iterator.decr a = basic_iterator.minus a 1.
Proof.
  intros V Hn. pose proof V as (Hc & Hi & Hb).
  destruct a as [i c p b0]. simpl in *.
  split; [| split; [| split; reflexivity]].
  - set (a1 := basic_iterator.mk ((i + n) mod c) c p b0).
    assert (Vb : basic_iterator.valid a1).
    { unfold basic_iterator.valid, a1. simpl. pose proof (mod_range c (i + n)). lia. }
    exists a1. split; [apply (plus_valid _ n V); simpl; lia |]. split; [exact Vb |]. split.
    + rewrite (get_pos_valid a1 Vb). f_equal.
      unfold basic_iterator.logical_position, a1. simpl. now apply logical_shift.
    + rewrite (minus_valid a1 n Vb) by (simpl; lia). unfold a1. simpl. f_equal. f_equal.
      rewrite Zminus_mod_idemp_l. replace (i + n - n) with i by lia.
      apply Z.mod_small. lia.
  - set (c' := basic_iterator.mk ((i - n) mod c) c p b0).
    assert (Vc : basic_iterator.valid c').
    { unfold basic_iterator.valid, c'. simpl. pose proof (mod_range c (i - n)). lia. }
    exists c'. split; [apply (minus_valid _ n V); simpl; lia |]. split; [exact Vc |]. split.
    + rewrite (get_pos_valid c' Vc). f_equal.
      unfold basic_iterator.logical_position, c'. simpl.
      replace (i - n) with (i + - n) by lia.
      rewrite (logical_shift c b0 i (- n)) by lia. f_equal.
    + rewrite (plus_valid c' n Vc) by (simpl; lia). unfold c'. simpl. f_equal. f_equal.
      rewrite Zplus_mod_idemp_l. replace (i - n + n) with i by lia.
      apply Z.mod_small. lia.
Qed.

Lemma logical_position_inj (a c : iterator) :
  basic_iterator.valid a -> basic_iterator.valid c ->
  basic_iterator.cap a = basic_iterator.cap c ->
  basic_iterator.ind_begin a = basic_iterator.ind_begin c ->
  basic_iterator.logical_position a = basic_iterator.logical_position c ->
  basic_iterator.ind a = basic_iterator.ind c.
Proof.
  intros (Hca & Hia & Hba) (Hcc & Hic & Hbc) Hcap Hbeg E.
  unfold basic_iterator.logical_position in E. rewrite <- Hcap, <- Hbeg in E.
  assert (F : forall i, (i - basic_iterator.ind_begin a + basic_iterator.cap a)
                        mod basic_iterator.cap a
                        = (i - basic_iterator.ind_begin a) mod basic_iterator.cap a).
  { intros i.
    replace (i - basic_iterator.ind_begin a + basic_iterator.cap a)
      with (i - basic_iterator.ind_begin a + 1 * basic_iterator.cap a) by lia.
    apply Z_mod_plus_full. }
  rewrite !F in E.
  rewrite <- (logical_phys (basic_iterator.cap a) (basic_iterator.ind_begin a)
                (basic_iterator.ind a)) by lia.
  rewrite <- (logical_phys (basic_iterator.cap a) (basic_iterator.ind_begin a)
                (basic_iterator.ind c)) by lia.
  now rewrite E.
Qed.

(** X2.  For two iterators into the same ring (same block, capacity and
    snapshot of [ind_begin]) the six comparison operators agree with the
    order of the logical positions: [==] and [!=] compare physical indices,
    which are equal exactly when the logical positions are; [<=], [>] and
    [>=] are the corresponding comparisons of the positions. *)
Theorem iterator_comparisons (a c : iterator) :
  basic_iterator.valid a -> basic_iterator.valid c ->
  basic_iterator.cap a = basic_iterator.cap c ->
  basic_iterator.ind_begin a = basic_iterator.ind_begin c ->
  basic_iterator.data a = basic_iterator.data c ->
  basic_iterator.eqb a c
  = (basic_iterator.logical_position a =? basic_iterator.logical_position c) /\
  basic_iterator.neqb a c
  = negb (basic_iterator.logical_position a =? basic_iterator.logical_position c) /\
  basic_iterator.leb a c
  = Some (basic_iterator.logical_position a <=? basic_iterator.logical_position c) /\
  basic_iterator.gtb a c
  = Some (basic_iterator.logical_position c <? basic_iterator.logical_position a) /\
  basic_iterator.geb a c
  = Some (basic_iterator.logical_position c <=? basic_iterator.logical_position a).
Proof.
  intros Va Vc Hcap Hbeg Hdata.
  assert (Eq : basic_iterator.eqb a c
               = (basic_iterator.logical_position a =? basic_iterator.logical_position c)).
  { unfold basic_iterator.eqb, ptr_eqb.
    rewrite bool_decide_eq_true_2 by exact Hdata. rewrite andb_true_r.
    destruct (Z.eqb_spec (basic_iterator.logical_position a)
                (basic_iterator.logical_position c)) as [E | Hne].
    - apply Z.eqb_eq. now apply logical_position_inj.
    - apply Z.eqb_neq. intros E. apply Hne.
      unfold basic_iterator.logical_position. now rewrite E, Hcap, Hbeg. }
  assert (Lt : basic_iterator.ltb a c
               = Some (basic_iterator.logical_position a
                       <? basic_iterator.logical_position c)).
  { unfold basic_iterator.ltb.
    now rewrite (get_pos_valid a Va), (get_pos_valid c Vc). }
  split; [exact Eq |]. split; [unfold basic_iterator.neqb; now rewrite Eq |].
  unfold basic_iterator.gtb, basic_iterator.leb, basic_iterator.geb.
  rewrite Lt, Eq. simpl.
  destruct (Z.ltb_spec (basic_iterator.logical_position a)
              (basic_iterator.logical_position c));
  destruct (Z.eqb_spec (basic_iterator.logical_position a)
              (basic_iterator.logical_position c));
  destruct (Z.leb_spec (basic_iterator.logical_position a)
              (basic_iterator.logical_position c));
  destruct (Z.ltb_spec (basic_iterator.logical_position c)
              (basic_iterator.logical_position a));
  destruct (Z.leb_spec (basic_iterator.logical_position c)
              (basic_iterator.logical_position a));
  simpl; try lia; repeat split; reflexivity.
Qed.

(** ** Iterators of a container *)

Lemma valid_iter_at this k :
  0 < cap this <= PTRDIFF_MAX -> 0 <= ind_begin this < cap this ->
  basic_iterator.valid (iter_at this k).
Proof.
  intros Hc Hb. unfold basic_iterator.valid, iter_at. simpl.
  pose proof (physical_slot_range this k). lia.
Qed.

Lemma plus_iter_at this k n :
  0 < cap this <= PTRDIFF_MAX -> 0 <= ind_begin this < cap this ->
  0 <= n <= PTRDIFF_MAX ->
  basic_iterator.plus (iter_at this k) n = Some (iter_at this (k + n)).
Proof.
  intros Hc Hb Hn.
  rewrite (plus_valid _ n (valid_iter_at this k Hc Hb) Hn).
  unfold iter_at, physical_slot. simpl. f_equal. f_equal.
  rewrite Zplus_mod_idemp_l. f_equal. lia.
Qed.

Lemma minus_iter_at this k n :
  0 < cap this <= PTRDIFF_MAX -> 0 <= ind_begin this < cap this ->
  0 <= n <= cap this ->
  basic_iterator.minus (iter_at this k) n = Some (iter_at this (k - n)).
Proof.
  intros Hc Hb Hn.
  rewrite (minus_valid _ n (valid_iter_at this k Hc Hb)) by exact Hn.
  unfold iter_at, physical_slot. simpl. f_equal. f_equal.
  rewrite Zminus_mod_idemp_l. f_equal. lia.
Qed.

Lemma deref_iter_at this h l b slots (i : nat) v :
  allocated this h l b slots -> l !! i = Some v ->
  deref (iter_at this (Z.of_nat i)) this h = Return v this h.
Proof.
  intros A Hv. pose proof (lookup_lt_Some _ _ _ Hv) as Hi.
  destruct (allocated_range _ _ _ _ _ A) as (Hc & Hb & Hsz & Hroom).
  unfold deref, iter_at. simpl. apply read_live.
  rewrite (allocated_slot _ _ _ _ _ _ A) by lia. now rewrite Hv.
Qed.

Lemma advance_iter_at this (n : nat) : forall k : Z,
  0 < cap this <= PTRDIFF_MAX -> 0 <= ind_begin this < cap this ->
  0 <= k -> k + Z.of_nat n <= cap this ->
  basic_iterator.advance n (iter_at this k) = Some (iter_at this (k + Z.of_nat n)).
Proof.
  induction n as [| n IH]; intros k Hc Hb Hk Hn.
  - simpl. now rewrite Z.add_0_r.
  - simpl. rewrite (incr_iter_at this Hc Hb) by lia. simpl.
    rewrite IH by lia. f_equal. f_equal. lia.
Qed.

(** X3.  [begin()] and [end()] span the sequence.  They are equal exactly
    when the container is empty.  With storage, [end() - begin()] is
    [size()], [begin() + size()] is [end()] and [end() - size()] is
    [begin()], and [begin() < end()] holds unless the container is empty.  A
    container that never allocated has capacity zero: its iterators can be
    compared with [==], but distance, order and every step are remainders
    by zero, hence undefined. *)
Theorem begin_end_span (this : circular_buffer) (h : heap T) (l : list T) :
  repr this h l ->
  basic_iterator.eqb (begin_ this) (end_ this) = empty this /\
  (cap this = 0 ->
   basic_iterator.diff (end_ this) (begin_ this) = None /\
   basic_iterator.ltb (begin_ this) (end_ this) = None /\
   basic_iterator.incr (begin_ this) = None /\
   basic_iterator.decr (end_ this) = None /\
   forall n, basic_iterator.plus (begin_ this) n = None) /\
  (0 < cap this ->
   basic_iterator.diff (end_ this) (begin_ this) = Some (size this) /\
   basic_iterator.plus (begin_ this) (size this) = Some (end_ this) /\
   basic_iterator.minus (end_ this) (size this) = Some (begin_ this) /\
   basic_iterator.ltb (begin_ this) (end_ this) = Some (negb (empty this))).
Proof.
  intros [[-> ->] | (b & slots & A)].
  - split; [reflexivity |]. split; [| simpl; lia].
    intros _. repeat split.
  - destruct (allocated_range _ _ _ _ _ A) as (Hc & Hb & Hsz & Hroom).
    pose proof PTRDIFF_MAX_eq. pose proof SIZE_MOD_eq.
    rewrite (end_iter_at _ _ _ _ _ A), (begin_iter_at this Hb).
    unfold empty, size. split; [| split; [lia |]].
    + rewrite (eqb_iter_at this Hc Hb) by lia. apply Z.eqb_sym.
    + intros _. split; [| split; [| split]].
      * unfold basic_iterator.diff.
        rewrite !(get_pos_iter_at this Hc Hb) by lia. simpl. f_equal.
        unfold size_sub, to_ptrdiff. rewrite Z.sub_0_r, wrap_small by lia.
        destruct (Z.leb_spec (sz this) PTRDIFF_MAX); [reflexivity | lia].
      * rewrite (plus_iter_at this 0 (sz this) Hc Hb) by lia. reflexivity.
      * rewrite (minus_iter_at this (sz this) (sz this) Hc Hb) by lia.
        now rewrite Z.sub_diag.
      * unfold basic_iterator.ltb.
        rewrite !(get_pos_iter_at this Hc Hb) by lia. simpl. f_equal.
        destruct (Z.ltb_spec 0 (sz this)); destruct (Z.eqb_spec (sz this) 0);
          simpl; try reflexivity; lia.
Qed.

(** X4.  The accessors and the iterators read the same elements, and none
    of them changes the container or the heap: [operator[](i)] and
    [*(begin() + i)] return the [i]-th element of the sequence, [front()]
    and [*begin()] the first, [back()] and [*--end()] the last. *)
Theorem element_access (this : circular_buffer) (h : heap T) (l : list T) :
  repr this h l ->
  (forall (i : nat) v, l !! i = Some v ->
     operator_idx (Z.of_nat i) this h = Return v this h /\
     exists it,
       basic_iterator.plus (begin_ this) (Z.of_nat i) = Some it /\
       basic_iterator.get_pos it = Some (Z.of_nat i) /\
       deref it this h = Return v this h) /\
  (forall v, head l = Some v ->
     front this h = Return v this h /\ deref (begin_ this) this h = Return v this h) /\
  (forall v, last l = Some v ->
     back this h = Return v this h /\
     exists it,
       basic_iterator.decr (end_ this) = Some it /\ deref it this h = Return v this h).
Proof.
  intros R. split; [| split].
  - intros i v Hv. pose proof (lookup_lt_Some _ _ _ Hv) as Hi.
    split; [now apply (operator_idx_spec _ _ l) |].
    destruct (repr_nonempty _ _ _ R) as (b & slots & A).
    { rewrite (repr_sz _ _ _ R). lia. }
    destruct (allocated_range _ _ _ _ _ A) as (Hc & Hb & Hsz & Hroom).
    exists (iter_at this (Z.of_nat i)).
    rewrite (begin_iter_at this Hb), (plus_iter_at this 0 _ Hc Hb) by lia.
    split; [reflexivity |]. split; [apply (get_pos_iter_at this Hc Hb); lia |].
    now apply (deref_iter_at _ _ l b slots).
  - intros v Hv. destruct l as [| x l0]; [discriminate |]. injection Hv as ->.
    split; [now apply (front_spec _ _ l0) |].
    destruct (repr_nonempty _ _ _ R) as (b & slots & A).
    { rewrite (repr_sz _ _ _ R). simpl. lia. }
    destruct (allocated_range _ _ _ _ _ A) as (Hc & Hb & Hsz & Hroom).
    rewrite (begin_iter_at this Hb).
    now apply (deref_iter_at _ _ (v :: l0) b slots 0%nat v A).
  - intros v Hv. apply last_Some in Hv as [l0 ->].
    split; [now apply (back_spec _ _ l0) |].
    destruct (repr_nonempty _ _ _ R) as (b & slots & A).
    { rewrite (repr_sz _ _ _ R), length_app. simpl. lia. }
    destruct (allocated_range _ _ _ _ _ A) as (Hc & Hb & Hsz & Hroom).
    rewrite length_app in Hsz. simpl in Hsz.
    exists (iter_at this (Z.of_nat (length l0))).
    rewrite (end_iter_at _ _ _ _ _ A).
    replace (sz this) with (Z.of_nat (length l0) + 1) by lia.
    rewrite (decr_iter_at this Hc Hb) by lia.
    split; [reflexivity |].
    apply (deref_iter_at _ _ (l0 ++ [v]) b slots _ _ A).
    now rewrite list_lookup_middle.
Qed.

(** X5.  A traversal with [operator++] from [begin()] visits the sequence
    in order: after [n] steps, for [n] below the size, the iterator differs
    from [end()] and dereferences to the [n]-th element; after [size()]
    steps it is [end()]. *)
Theorem traversal_visits_sequence (this : circular_buffer) (h : heap T) (l : list T) :
  repr this h l ->
  (forall (n : nat) v, l !! n = Some v ->
     exists it,
       basic_iterator.advance n (begin_ this) = Some it /\
       basic_iterator.neqb it (end_ this) = true /\
       deref it this h = Return v this h) /\
  basic_iterator.advance (length l) (begin_ this) = Some (end_ this).
Proof.
  intros [[-> ->] | (b & slots & A)].
  - split; [intros n v Hv; discriminate | reflexivity].
  - destruct (allocated_range _ _ _ _ _ A) as (Hc & Hb & Hsz & Hroom).
    rewrite (end_iter_at _ _ _ _ _ A), (begin_iter_at this Hb). split.
    + intros n v Hv. pose proof (lookup_lt_Some _ _ _ Hv) as Hn.
      exists (iter_at this (Z.of_nat n)).
      rewrite (advance_iter_at this n 0 Hc Hb) by lia.
      split; [reflexivity |]. split; [| now apply (deref_iter_at _ _ l b slots)].
      unfold basic_iterator.neqb. rewrite (eqb_iter_at this Hc Hb) by lia.
      destruct (Z.eqb_spec (Z.of_nat n) (sz this)); [lia | reflexivity].
    + rewrite (advance_iter_at this (length l) 0 Hc Hb) by lia.
      simpl. now rewrite Hsz.
Qed.

(** ** What an operation does to the heap outside the owned block *)

Lemma release_set_slot p i o h : release p (set_slot p i o h) = release p h.
Proof.
  unfold release, set_slot. destruct p as [| b]; [reflexivity |].
  destruct (blocks h !! b) eqn:E; [| reflexivity].
  simpl. now rewrite delete_insert_eq.
Qed.

Lemma release_reserved_heap this h l n :
  repr this h l ->
  release (Block (fresh (dom (blocks h)))) (reserved_heap this h l n)
  = release (data this) h.
Proof.
  intros R. pose proof (fresh_block_free h) as F.
  unfold reserved_heap, release. destruct (data this) as [| b0] eqn:Hd; simpl.
  - rewrite delete_insert_id by exact F. now destruct h.
  - f_equal. apply map_eq. intros b.
    destruct (decide (b = fresh (dom (blocks h)))) as [-> | Hnf].
    + rewrite lookup_delete_eq.
      destruct (decide (fresh (dom (blocks h)) = b0)) as [<- | Hne].
      * now rewrite lookup_delete_eq.
      * now rewrite lookup_delete_ne, F by congruence.
    + rewrite lookup_delete_ne by congruence.
      destruct (decide (b = b0)) as [-> | Hne].
      * now rewrite !lookup_delete_eq.
      * rewrite !lookup_delete_ne by congruence. now rewrite lookup_insert_ne by congruence.
Qed.

Lemma grow_result_release full this h l :
  repr this h l ->
  match grow_result full this h l with
  | Return _ this1 h1 => release (data this1) h1 = release (data this) h
  | Throw _ this1 h1 => this1 = this /\ h1 = h
  | _ => False
  end.
Proof.
  intros R. unfold grow_result.
  destruct (growth full this) as [n |]; [| reflexivity].
  destruct (grants n); [| now split].
  destruct (forallb copy_ok l); [| now split].
  simpl. now apply release_reserved_heap.
Qed.

(** A push leaves the heap as it was outside the block the container owns,
    whether it returns or throws, whatever it is given. *)
Lemma push_back_release value this h l :
  repr this h l ->
  after (fun this' h' => release (data this') h' = release (data this) h)
    (push_back value this h).
Proof.
  intros R. rewrite (push_back_eval_ref value this h l R). unfold push_back_outcome.
  pose proof (grow_result_release (2 * cap this) this h l R) as G.
  destruct (grow_result (2 * cap this) this h l) as [[] this1 h1 | e this1 h1 | | |];
    try contradiction.
  - destruct (resolve value h1) as [v |]; [| exact I].
    destruct (copy_ok v); simpl; [| exact G].
    now rewrite release_set_slot.
  - destruct G as [-> ->]. reflexivity.
Qed.

Lemma push_front_release value this h l :
  repr this h l ->
  after (fun this' h' => release (data this') h' = release (data this) h)
    (push_front value this h).
Proof.
  intros R. rewrite (push_front_eval_ref value this h l R). unfold push_front_outcome.
  pose proof (grow_result_release (2 * sz this) this h l R) as G.
  destruct (grow_result (2 * sz this) this h l) as [[] this1 h1 | e this1 h1 | | |];
    try contradiction.
  - destruct (resolve value h1) as [v |]; [| exact I].
    destruct (copy_ok v); simpl; [| exact G].
    now rewrite release_set_slot.
  - destruct G as [-> ->]. reflexivity.
Qed.

(** A live element in the block of the container is an element of the
    sequence. *)
Lemma own_slot_element this h l b slots i v :
  allocated this h l b slots ->
  resolve (element_at (data this) i) h = Some v ->
  exists k : nat, l !! k = Some v.
Proof.
  intros A Hv. destruct (allocated_range _ _ _ _ _ A) as (Hc & Hb & _).
  unfold resolve, slot in Hv.
  rewrite (al_data _ _ _ _ _ A), (al_block _ _ _ _ _ A) in Hv. simpl in Hv.
  destruct (slots !! Z.to_nat i) as [[w |] |] eqn:Hs; try discriminate.
  injection Hv as ->.
  pose proof (lookup_lt_Some _ _ _ Hs) as Hj.
  pose proof (al_length _ _ _ _ _ A) as Hlen.
  set (j := Z.of_nat (Z.to_nat i)) in *.
  pose proof (mod_range (cap this) (j - ind_begin this) ltac:(lia)) as Hk.
  set (k := Z.to_nat ((j - ind_begin this) mod cap this)).
  assert (Ek : physical_slot this (Z.of_nat k) = j).
  { unfold physical_slot, k. rewrite Z2Nat.id by lia. apply logical_phys; unfold j; lia. }
  pose proof (al_slots _ _ _ _ _ A k ltac:(unfold k; lia)) as Hl.
  rewrite Ek in Hl. unfold j in Hl. rewrite Nat2Z.id, Hs in Hl.
  injection Hl as Hl. exists k. now symmetry.
Qed.

(** A value that cannot be copied is still behind its reference after a
    growth step that returned: it was not an element of the container, or
    the migration would have failed on it. *)
Lemma resolve_grow_uncopyable full value this h l this1 h1 v :
  repr this h l -> grow_result full this h l = Return tt this1 h1 ->
  resolve value h = Some v -> copy_ok v = false ->
  resolve value h1 = Some v.
Proof.
  intros R E Hv Hc.
  destruct (growth full this) as [n |] eqn:Hg.
  2:{ apply (resolve_grow _ _ _ _ _ _ _ _ E Hv). now left. }
  destruct value as [w | p i]; [exact Hv |].
  destruct (decide (p = data this)) as [-> | Hne].
  - exfalso.
    destruct R as [[-> ->] | (b & slots & A)]; [discriminate Hv |].
    destruct (own_slot_element _ _ _ _ _ _ _ A Hv) as (k & Hk).
    unfold grow_result in E. rewrite Hg in E.
    destruct (grants n); [| discriminate].
    destruct (forallb copy_ok l) eqn:Hall; [| discriminate].
    rewrite (forallb_lookup _ _ _ Hall Hk) in Hc. discriminate.
  - apply (resolve_grow _ _ _ _ _ _ _ _ E Hv). right. exact Hne.
Qed.

(** X6.  [reserve(n)] with [n] above the size moves the sequence into a
    block that was not live, compacted: the new block has capacity [n], the
    elements lie in its slots [0 .. size - 1] in order ([ind_begin = 0],
    [ind_end = size]), the old block is released and nothing is leaked,
    provided that the allocator grants the block and the element copies
    succeed.  [reserve(n)] with [n] at most the size does nothing. *)
Theorem reserve_compacts (n : Z) (this : circular_buffer) (h : heap T) (l : list T) :
  repr this h l ->
  (n <= sz this -> reserve n this h = Return tt this h) /\
  (sz this < n -> 4 <= n -> grants n = true -> forallb copy_ok l = true ->
   exists b h',
     reserve n this h
     = Return tt (mk_circular_buffer (sz this) n (Block b) 0 (sz this)) h' /\
     blocks h !! b = None /\
     repr (mk_circular_buffer (sz this) n (Block b) 0 (sz this)) h' l /\
     (forall i : nat, (i < length l)%nat ->
        slot (Block b) (Z.of_nat i) h' = Some (l !! i)) /\
     leaked h' = leaked h /\
     release (Block b) h' = release (data this) h).
Proof.
  intros R. split.
  - intros Hn. unfold reserve.
    destruct (Z.geb_spec (sz this) n); [reflexivity | lia].
  - intros Hsz Hmin Hg Hall.
    pose proof (repr_sz _ _ _ R) as Hlen.
    pose proof PTRDIFF_MAX_eq. pose proof SIZE_MOD_eq.
    unfold grants in Hg. pose proof Hg as Hg'.
    apply andb_prop in Hg' as [Hmax _]. apply Z.leb_le in Hmax.
    rewrite (reserve_spec n this h l R Hsz Hmin) by lia.
    rewrite Hg, Hall.
    pose proof (reserved_heap_repr this h l n R Hmin Hmax ltac:(lia)) as A.
    unfold reserved in *. rewrite <- Hlen in *.
    exists (fresh (dom (blocks h))), (reserved_heap this h l n).
    split; [reflexivity |]. split; [apply fresh_block_free |].
    split; [eapply repr_allocated, A |]. split; [| split].
    + intros i Hi. rewrite <- (allocated_slot _ _ _ _ _ i A) by (simpl; lia).
      unfold physical_slot. simpl. now rewrite Z.mod_small by lia.
    + apply reserved_heap_leaked.
    + now apply release_reserved_heap.
Qed.

(** X7.  When the copy of the pushed value throws, [push_back] and
    [push_front] throw, the container holds the sequence it held, nothing is
    leaked and no block is left behind; the push is not undone, though: the
    growth that preceded the copy stays, so the capacity and the block can
    have changed.  [value] is any reference that designates a value [v] when
    the push is called, an element of the container included. *)
Theorem push_value_copy_failure (value : const_ref) (v : T) (this : circular_buffer)
    (h : heap T) (l : list T) :
  repr this h l -> resolve value h = Some v -> copy_ok v = false ->
  (exists e this' h',
     push_back value this h = Throw e this' h' /\ repr this' h' l /\
     leaked h' = leaked h /\ release (data this') h' = release (data this) h /\
     (this' = this /\ h' = h \/ cap this' = grown_cap (2 * cap this) this)) /\
  (exists e this' h',
     push_front value this h = Throw e this' h' /\ repr this' h' l /\
     leaked h' = leaked h /\ release (data this') h' = release (data this) h /\
     (this' = this /\ h' = h \/ cap this' = grown_cap (2 * sz this) this)).
Proof.
  intros R Hres Hv. split.
  - pose proof (push_back_spec_ref value this h l R) as S.
    pose proof (push_back_release value this h l R) as Q.
    rewrite (push_back_eval_ref value this h l R) in *. unfold push_back_outcome in *.
    destruct (grow_result_cases (2 * cap this) this h l) as [(this1 & h1 & E) | (e & E)];
      rewrite E in *.
    + rewrite (resolve_grow_uncopyable _ _ _ _ _ _ _ _ R E Hres Hv) in *.
      rewrite Hv in *. destruct S as (Tr & Hcase). eexists _, _, _.
      split; [reflexivity |]. split; [apply Tr |]. split; [apply Tr |].
      split; [exact Q | exact Hcase].
    + destruct S as (Tr & Hcase). eexists _, _, _.
      split; [reflexivity |]. split; [apply Tr |]. split; [apply Tr |].
      split; [exact Q | exact Hcase].
  - pose proof (push_front_spec_ref value this h l R) as S.
    pose proof (push_front_release value this h l R) as Q.
    rewrite (push_front_eval_ref value this h l R) in *. unfold push_front_outcome in *.
    destruct (grow_result_cases (2 * sz this) this h l) as [(this1 & h1 & E) | (e & E)];
      rewrite E in *.
    + rewrite (resolve_grow_uncopyable _ _ _ _ _ _ _ _ R E Hres Hv) in *.
      rewrite Hv in *. destruct S as (Tr & Hcase). eexists _, _, _.
      split; [reflexivity |]. split; [apply Tr |]. split; [apply Tr |].
      split; [exact Q | exact Hcase].
    + destruct S as (Tr & Hcase). eexists _, _, _.
      split; [reflexivity |]. split; [apply Tr |]. split; [apply Tr |].
      split; [exact Q | exact Hcase].
Qed.

(** ** The whole life of a container *)

Lemma pop_back_release this h l :
  repr this h l ->
  match pop_back this h with
  | Return _ this' h' =>
      (exists l1, model_step PopBack l = Some l1 /\ repr this' h' l1) /\
      release (data this') h' = release (data this) h
  | Abort => model_step (T := T) PopBack l = None
  | _ => False
  end.
Proof.
  intros R. pose proof (repr_sz _ _ _ R) as Hsz.
  destruct l as [| x l0] using rev_ind.
  - rewrite pop_back_empty by (simpl in Hsz; lia). reflexivity.
  - clear IHl0.
    destruct (repr_nonempty _ _ _ R) as (b & slots & A).
    { rewrite Hsz, length_app. simpl. lia. }
    destruct (pop_back_allocated _ _ _ _ _ _ A) as [E A']. rewrite E.
    split; [| simpl; apply release_set_slot].
    exists l0. split; [| eapply repr_allocated, A'].
    unfold model_step. rewrite removelast_last.
    now destruct (l0 ++ [x]) eqn:El; [destruct l0; discriminate |].
Qed.

Lemma pop_front_release this h l :
  repr this h l ->
  match pop_front this h with
  | Return _ this' h' =>
      (exists l1, model_step PopFront l = Some l1 /\ repr this' h' l1) /\
      release (data this') h' = release (data this) h
  | Abort => model_step (T := T) PopFront l = None
  | _ => False
  end.
Proof.
  intros R. pose proof (repr_sz _ _ _ R) as Hsz.
  destruct l as [| x l0].
  - rewrite pop_front_empty by (simpl in Hsz; lia). reflexivity.
  - destruct (repr_nonempty _ _ _ R) as (b & slots & A).
    { rewrite Hsz. simpl. lia. }
    destruct (pop_front_allocated _ _ _ _ _ _ A) as [E A']. rewrite E.
    split; [| simpl; apply release_set_slot].
    exists l0. split; [reflexivity | eapply repr_allocated, A'].
Qed.

(** *** A push of an element of the container itself *)

(** [push_back(c[i])] and [push_front(c[i])] at a point where the push
    reallocates: the reference is read after [reserve] has destroyed the
    old elements and released their block.  When the growth fails the push
    throws as for any other argument; when it succeeds the behaviour is
    undefined. *)
Lemma push_back_own_at_growth this h l n i :
  repr this h l -> growth (2 * cap this) this = Some n ->
  push_back (element_at (data this) i) this h
  = if grants n && forallb copy_ok l then Undefined
    else Throw (growth_exn n) this h.
Proof.
  intros R Hg. rewrite (push_back_eval_ref _ this h l R). unfold push_back_outcome.
  destruct (grow_result (2 * cap this) this h l) as [[] this1 h1 | e this1 h1 | | |] eqn:E.
  - rewrite (resolve_released _ _ _ _ _ _ _ i R Hg E).
    unfold grow_result in E. rewrite Hg in E.
    destruct (grants n); [| discriminate]. now destruct (forallb copy_ok l).
  - unfold grow_result, growth_exn in *. rewrite Hg in E.
    destruct (grants n); [| now injection E as <- <- <-].
    destruct (forallb copy_ok l); [discriminate | now injection E as <- <- <-].
  - unfold grow_result in E. rewrite Hg in E.
    destruct (grants n); [| discriminate]. now destruct (forallb copy_ok l).
  - unfold grow_result in E. rewrite Hg in E.
    destruct (grants n); [| discriminate]. now destruct (forallb copy_ok l).
  - unfold grow_result in E. rewrite Hg in E.
    destruct (grants n); [| discriminate]. now destruct (forallb copy_ok l).
Qed.

Lemma push_front_own_at_growth this h l n i :
  repr this h l -> growth (2 * sz this) this = Some n ->
  push_front (element_at (data this) i) this h
  = if grants n && forallb copy_ok l then Undefined
    else Throw (growth_exn n) this h.
Proof.
  intros R Hg. rewrite (push_front_eval_ref _ this h l R). unfold push_front_outcome.
  destruct (grow_result (2 * sz this) this h l) as [[] this1 h1 | e this1 h1 | | |] eqn:E.
  - rewrite (resolve_released _ _ _ _ _ _ _ i R Hg E).
    unfold grow_result in E. rewrite Hg in E.
    destruct (grants n); [| discriminate]. now destruct (forallb copy_ok l).
  - unfold grow_result, growth_exn in *. rewrite Hg in E.
    destruct (grants n); [| now injection E as <- <- <-].
    destruct (forallb copy_ok l); [discriminate | now injection E as <- <- <-].
  - unfold grow_result in E. rewrite Hg in E.
    destruct (grants n); [| discriminate]. now destruct (forallb copy_ok l).
  - unfold grow_result in E. rewrite Hg in E.
    destruct (grants n); [| discriminate]. now destruct (forallb copy_ok l).
  - unfold grow_result in E. rewrite Hg in E.
    destruct (grants n); [| discriminate]. now destruct (forallb copy_ok l).
Qed.

(** X20.  A push of an element of the container itself, as in
    [c.push_back(c[i])].  [operator[]] returns a reference to the slot of
    the element.  When the push does not reallocate it is the push of the
    value of that element.  When the push reallocates, the reference is
    read after [reserve] has destroyed the elements and released their
    block: the behaviour is undefined whenever the growth succeeds; when
    the growth fails the push throws and object and heap are what they
    were. *)
Theorem push_own_element (this : circular_buffer) (h : heap T) (l : list T)
    (i : nat) (v : T) :
  repr this h l -> l !! i = Some v ->
  exists value,
    operator_idx_ref (Z.of_nat i) this h = Return value this h /\
    resolve value h = Some v /\
    (growth (2 * cap this) this = None ->
     push_back value this h = push_back (outside v) this h) /\
    (growth (2 * sz this) this = None ->
     push_front value this h = push_front (outside v) this h) /\
    (forall n, growth (2 * cap this) this = Some n ->
       push_back value this h
       = if grants n && forallb copy_ok l then Undefined
         else Throw (growth_exn n) this h) /\
    (forall n, growth (2 * sz this) this = Some n ->
       push_front value this h
       = if grants n && forallb copy_ok l then Undefined
         else Throw (growth_exn n) this h).
Proof.
  intros R Hv. destruct (operator_idx_ref_spec this h l i v R Hv) as [E Hres].
  exists (element_at (data this) (physical_slot this (Z.of_nat i))).
  split; [exact E |]. split; [exact Hres |]. split; [| split; [| split]].
  - intros Hg. apply (push_back_as_outside _ _ _ _ l R Hres). now left.
  - intros Hg. apply (push_front_as_outside _ _ _ _ l R Hres). now left.
  - intros n Hg. now apply push_back_own_at_growth.
  - intros n Hg. now apply push_front_own_at_growth.
Qed.

(** A push against the model, for any argument. *)
Lemma push_step_release (push : const_ref -> M T unit) (full : Z)
    (place : T -> list T -> list T) a this h l :
  repr this h l ->
  (forall value,
     match push value this h with
     | Return _ this' h' =>
         exists v, transition this h this' h' (place v l) /\ copy_ok v = true /\
           sz this' = sz this + 1 /\ cap this' = grown_cap full this /\
           (forall w, resolve value h = Some w ->
              growth full this = None \/ apart value (data this) -> w = v)
     | Throw e this' h' =>
         transition this h this' h' l /\
         (this' = this /\ h' = h \/ cap this' = grown_cap full this)
     | Undefined =>
         (exists p i, value = element_at p i) /\
         (forall w, resolve value h = Some w ->
            growth full this = None \/ apart value (data this) -> False)
     | Abort | OutOfFuel => False
     end) ->
  (forall value,
     after (fun this' h' => release (data this') h' = release (data this) h)
       (push value this h)) ->
  (forall n i, growth full this = Some n ->
     push (element_at (data this) i) this h
     = if grants n && forallb copy_ok l then Undefined
       else Throw (growth_exn n) this h) ->
  match (value ← pass a; push value) this h with
  | Return _ this' h' =>
      (exists v, model_argument a l = Some v /\ repr this' h' (place v l)) /\
      release (data this') h' = release (data this) h
  | Throw _ this' h' =>
      repr this' h' l /\ release (data this') h' = release (data this) h
  | Abort => model_argument a l = None
  | Undefined => exists i, a = own_element i
  | OutOfFuel => False
  end.
Proof.
  intros R Hspec Hrel Hown. destruct a as [v | i].
  - change ((value ← pass (given v); push value) this h) with (push (outside v) this h).
    specialize (Hspec (outside v)). specialize (Hrel (outside v)).
    destruct (push (outside v) this h) as [[] this' h' | e this' h' | | |];
      try contradiction.
    + destruct Hspec as (v' & Tr & _ & _ & _ & Hsame).
      rewrite <- (Hsame v eq_refl (or_intror I)) in Tr.
      split; [| exact Hrel]. exists v. split; [reflexivity | apply Tr].
    + split; [apply Hspec | exact Hrel].
    + destruct Hspec as [(p & j & Hp) _]. discriminate Hp.
  - cbn [pass model_argument].
    destruct (l !! i) as [v |] eqn:Hv.
    2:{ rewrite bind_abort_first; [reflexivity |].
        apply operator_idx_ref_out_of_range.
        rewrite (repr_sz _ _ _ R). apply lookup_ge_None in Hv. lia. }
    destruct (operator_idx_ref_spec this h l i v R Hv) as [Eref Hres].
    erewrite bind_Return by exact Eref.
    specialize (Hspec (element_at (data this) (physical_slot this (Z.of_nat i)))).
    specialize (Hrel (element_at (data this) (physical_slot this (Z.of_nat i)))).
    destruct (growth full this) as [n |] eqn:Hg.
    + rewrite (Hown n (physical_slot this (Z.of_nat i)) eq_refl).
      destruct (grants n && forallb copy_ok l); [eauto |].
      split; [exact R | reflexivity].
    + destruct (push (element_at (data this) (physical_slot this (Z.of_nat i))) this h)
        as [[] this' h' | e this' h' | | |]; try contradiction.
      * destruct Hspec as (v' & Tr & _ & _ & _ & Hsame).
        rewrite <- (Hsame v Hres (or_introl eq_refl)) in Tr.
        split; [| exact Hrel]. exists v. split; [reflexivity | apply Tr].
      * split; [apply Hspec | exact Hrel].
      * eauto.
Qed.

(** One operation against the model: it returns with the model's next
    sequence, or throws and keeps the sequence, or fails its assertion where
    the model has no next sequence; the heap outside the owned block stays
    as it is.  The behaviour is undefined only for a push of an element of
    the container itself. *)
Lemma step_release o this h l :
  repr this h l ->
  match step o this h with
  | Return _ this' h' =>
      (exists l1, model_step o l = Some l1 /\ repr this' h' l1) /\
      release (data this') h' = release (data this) h
  | Throw _ this' h' =>
      repr this' h' l /\ release (data this') h' = release (data this) h
  | Abort => model_step o l = None
  | Undefined => by_value o = false
  | OutOfFuel => False
  end.
Proof.
  intros R. destruct o as [a | a | |]; cbn [step model_step by_value].
  - pose proof (push_step_release push_back (2 * cap this) (fun v l => l ++ [v]) a this h l R
                  (fun value => push_back_spec_ref value this h l R)
                  (fun value => push_back_release value this h l R)
                  (fun n i Hg => push_back_own_at_growth this h l n i R Hg)) as P.
    destruct ((value ← pass a; push_back value) this h) as [[] this' h' | e this' h' | | |];
      try contradiction.
    + destruct P as ((v & Hv & R') & Q). rewrite Hv. simpl. eauto.
    + exact P.
    + now rewrite P.
    + destruct P as [i ->]. reflexivity.
  - pose proof (push_step_release push_front (2 * sz this) (fun v l => v :: l) a this h l R
                  (fun value => push_front_spec_ref value this h l R)
                  (fun value => push_front_release value this h l R)
                  (fun n i Hg => push_front_own_at_growth this h l n i R Hg)) as P.
    destruct ((value ← pass a; push_front value) this h) as [[] this' h' | e this' h' | | |];
      try contradiction.
    + destruct P as ((v & Hv & R') & Q). rewrite Hv. simpl. eauto.
    + exact P.
    + now rewrite P.
    + destruct P as [i ->]. reflexivity.
  - pose proof (pop_back_release this h l R) as P.
    destruct (pop_back this h) as [[] this' h' | | | |]; try contradiction; exact P.
  - pose proof (pop_front_release this h l R) as P.
    destruct (pop_front this h) as [[] this' h' | | | |]; try contradiction; exact P.
Qed.

Lemma run_release ops : forall this h l,
  repr this h l ->
  match run ops this h with
  | Return _ this' h' =>
      (exists l', model_run ops l = Some l' /\ repr this' h' l') /\
      release (data this') h' = release (data this) h
  | Throw _ this' h' =>
      wf this' h' /\ release (data this') h' = release (data this) h
  | Abort => model_run ops l = None
  | Undefined => forallb by_value ops = false
  | OutOfFuel => False
  end.
Proof.
  induction ops as [| o ops IH]; intros this h l R.
  - simpl. split; [eauto | reflexivity].
  - cbn [run model_run forallb]. pose proof (step_release o this h l R) as S.
    unfold mbind at 1, M_bind at 1, M_bind_def at 1.
    destruct (step o this h) as [[] this1 h1 | e this1 h1 | | |]; try contradiction.
    + destruct S as ((l1 & Hm & R1) & Q1). rewrite Hm. simpl.
      specialize (IH this1 h1 l1 R1).
      destruct (run ops this1 h1) as [[] this2 h2 | e this2 h2 | | |]; try contradiction.
      * destruct IH as (Hl & Q2). split; [exact Hl | congruence].
      * destruct IH as (W & Q2). split; [exact W | congruence].
      * exact IH.
      * rewrite IH. apply andb_false_r.
    + destruct S as (R1 & Q1). split; [now exists l | exact Q1].
    + now rewrite S.
    + now rewrite S.
Qed.

(** X15.  The whole life of a container returns the heap.  Take a
    default-constructed container in any heap and run any sequence of
    [push_back], [push_front], [pop_back] and [pop_front] on it, where a
    push is given an object of the caller or an element of the container
    itself.  The run fails an assertion only if the list model rejects the
    sequence (a pop on the empty sequence, an element index out of range);
    when it returns, the container holds the sequence of the model; and
    when it returns, or ends early with an exception, the destructor returns
    and leaves exactly the heap the container was constructed in: the same
    blocks with the same contents, and the same leak count.  The behaviour
    is undefined only if the sequence pushes an element of the container
    itself: a run of pushes of the caller's objects and of pops is never
    undefined. *)
Theorem lifetime_leaves_heap (ops : list op) (h : heap T) :
  match run ops circular_buffer_ctor h with
  | Return _ this' h' =>
      (exists l, model_run ops [] = Some l /\ repr this' h' l) /\
      destructor this' h' = Return tt circular_buffer_ctor h
  | Throw _ this' h' => destructor this' h' = Return tt circular_buffer_ctor h
  | Abort => model_run ops [] = None
  | Undefined => forallb by_value ops = false
  | OutOfFuel => False
  end.
Proof.
  pose proof (run_release ops circular_buffer_ctor h [] (repr_ctor h)) as P.
  destruct (run ops circular_buffer_ctor h) as [[] this' h' | e this' h' | | |];
    try exact P.
  - destruct P as ((l & Hm & R) & Q). split; [eauto |].
    unfold destructor. rewrite (proj1 (clear_spec _ _ _ R)). now rewrite Q.
  - destruct P as ((l & R) & Q).
    unfold destructor. rewrite (proj1 (clear_spec _ _ _ R)). now rewrite Q.
Qed.

(** ** Copies *)

Lemma after_bind {A B} (J : circular_buffer -> heap T -> Prop)
    (m : M T A) (f : A -> M T B) this h :
  after J (m this h) ->
  (forall a this' h', J this' h' -> after J (f a this' h')) ->
  after J ((m ≫= f) this h).
Proof.
  intros Hm Hf. unfold mbind, M_bind, M_bind_def.
  destruct (m this h) as [a this' h' | e this' h' | | |]; simpl in *; auto.
Qed.

(** The rule for loops: what every test and every iteration keeps holds
    when the loop is left, by its test or by an exception. *)
Lemma while_loop_after {L} (J : circular_buffer -> heap T -> Prop)
    (cond : L -> M T bool) (body : L -> M T L) :
  (forall x this h, J this h -> after J (cond x this h)) ->
  (forall x this h, J this h -> after J (body x this h)) ->
  forall fuel x this h, J this h -> after J (while_loop fuel cond body x this h).
Proof.
  intros Hcond Hbody. induction fuel as [| fuel IH]; intros x this h Hi.
  - simpl. apply after_bind; [now apply Hcond |].
    intros [|] this' h' Hi'; [exact I | exact Hi'].
  - simpl. apply after_bind; [now apply Hcond |].
    intros [|] this' h' Hi'; [| exact Hi'].
    apply after_bind; [now apply Hbody |].
    intros x' this'' h'' Hi''. now apply IH.
Qed.

(** [operator[]] reads: when it returns, nothing has changed. *)
Lemma operator_idx_reads i obj h :
  match operator_idx i obj h with
  | Return _ obj' h' => obj' = obj /\ h' = h
  | Throw _ _ _ => False
  | _ => True
  end.
Proof.
  unfold operator_idx, read. munfold.
  destruct (i <? sz obj); [| exact I].
  destruct (size_rem (size_add (ind_begin obj) i) (cap obj)); [| exact I].
  destruct (slot (data obj) z h) as [[v |] |]; try exact I. now split.
Qed.

Lemma operator_idx_ref_reads i obj h :
  match operator_idx_ref i obj h with
  | Return _ obj' h' => obj' = obj /\ h' = h
  | Throw _ _ _ => False
  | _ => True
  end.
Proof.
  unfold operator_idx_ref. munfold.
  destruct (i <? sz obj); [| exact I].
  destruct (size_rem (size_add (ind_begin obj) i) (cap obj)); [| exact I].
  now split.
Qed.

Lemma release_release p q h : release p (release q h) = release q (release p h).
Proof.
  unfold release. destruct p as [| b1], q as [| b2]; try reflexivity.
  simpl. f_equal. apply map_eq. intros b.
  destruct (decide (b = b1)) as [E1 | H1]; destruct (decide (b = b2)) as [E2 | H2];
    subst;
    repeat first [rewrite lookup_delete_eq | rewrite lookup_delete_ne by congruence];
    reflexivity.
Qed.

(** The copy constructor leaves the heap it found, plus the block of the
    copy; when it throws, what it built is gone again. *)
Lemma copy_ctor_release oth raw h lo :
  repr oth h lo ->
  match copy_ctor oth raw h with
  | Return _ this' h' => release (data this') h' = h
  | Throw _ this' h' => h' = h
  | _ => True
  end.
Proof.
  intros Ro. unfold copy_ctor.
  set (Inv := fun this' h' => wf this' h' /\ release (data this') h' = h).
  assert (L : after Inv
                (while_loop (Z.to_nat (size oth))
                   (fun i => mret (i <? size oth))
                   (fun i => value ← on_const oth (operator_idx_ref i);
                             push_back value;;
                             mret (size_add i 1))
                   0 circular_buffer_ctor h)).
  { apply while_loop_after.
    - intros x this' h' Hi. exact Hi.
    - intros x this' h' [(l' & R') Q'].
      apply after_bind.
      + unfold on_const. pose proof (operator_idx_ref_reads x oth h') as P.
        destruct (operator_idx_ref x oth h') as [v o1 h1 | | | |]; simpl; try exact I;
          try contradiction.
        destruct P as [_ ->]. split; [now exists l' | exact Q'].
      + intros value this1 h1 [(l1 & R1) Q1].
        apply after_bind; [| intros [] this2 h2 Hi2; exact Hi2].
        pose proof (push_back_spec_ref value this1 h1 l1 R1) as S.
        pose proof (push_back_release value this1 h1 l1 R1) as Q.
        destruct (push_back value this1 h1) as [[] this2 h2 | e this2 h2 | | |];
          try contradiction; simpl in *; try exact I.
        * destruct S as (v & Tr & _). split; [eexists; apply Tr | congruence].
        * split; [eexists; apply S | congruence].
    - split; [apply wf_ctor | reflexivity]. }
  match type of L with
  | after _ ?o => destruct o as [a this1 h1 | e this1 h1 | | |]
  end; try exact I; simpl in L.
  - apply L.
  - destruct L as [(l1 & R1) Q1]. unfold destructor.
    rewrite (proj1 (clear_spec _ _ _ R1)). exact Q1.
Qed.

(** X13.  The copy constructor makes a deep copy.  It always comes to an
    end.  When it returns, the new container holds the sequence of the
    source in a block of its own, the source is untouched, nothing is leaked
    and the heap has grown by exactly that block; a later [push_back] on the
    copy leaves the source as it is.  When an allocation or an element copy
    fails, the exception leaves the heap exactly as it was: the partly built
    copy was destroyed and its block released. *)
Theorem copy_constructor_copies (oth raw : circular_buffer) (h : heap T) (lo : list T) :
  repr oth h lo ->
  match copy_ctor oth raw h with
  | Return _ this' h' =>
      repr this' h' lo /\ repr oth h' lo /\ separate oth this' /\
      leaked h' = leaked h /\ release (data this') h' = h /\
      forall value, after (fun _ h'' => repr oth h'' lo) (push_back value this' h')
  | Throw _ this' h' => this' = circular_buffer_ctor /\ h' = h
  | _ => False
  end.
Proof.
  intros Ro.
  pose proof (copy_ctor_spec oth raw h lo Ro) as C.
  pose proof (copy_ctor_release oth raw h lo Ro) as Q.
  destruct (copy_ctor oth raw h) as [[] this' h' | e this' h' | | |]; try contradiction.
  - destruct (transition_other _ _ _ _ _ _ _ C Ro (separate_ctor _ _ _ Ro)) as [Ro' Hsep].
    split; [apply C |]. split; [exact Ro' |]. split; [exact Hsep |].
    split; [apply C |]. split; [exact Q |].
    intros value.
    pose proof (push_back_spec_ref value this' h' lo (tr_repr _ _ _ _ _ C)) as S.
    destruct (push_back value this' h') as [[] this2 h2 | e this2 h2 | | |];
      try contradiction; simpl; try exact I.
    + destruct S as (v & Tr & _). now apply (transition_other _ _ _ _ _ _ _ Tr Ro' Hsep).
    + destruct S as (Tr & _). now apply (transition_other _ _ _ _ _ _ _ Tr Ro' Hsep).
  - split; [apply C | exact Q].
Qed.

(** X14.  Copy assignment gives the strong guarantee.  It always comes to
    an end.  When it returns, the container holds the sequence of the source
    in a new block, its former elements are destroyed and its former block
    is released, nothing is leaked, and a source that is another container
    is untouched; assigning a container to itself keeps its sequence.  When
    the copy fails, the exception leaves the object and the heap exactly as
    they were. *)
Theorem copy_assignment_replaces (oth this : circular_buffer) (h : heap T)
    (l lo : list T) :
  repr this h l -> repr oth h lo ->
  match copy_assign oth this h with
  | Return _ this' h' =>
      repr this' h' lo /\ leaked h' = leaked h /\
      release (data this') h' = release (data this) h /\
      (forall b, data this = Block b -> blocks h' !! b = None) /\
      (separate oth this -> repr oth h' lo /\ separate oth this')
  | Throw _ this' h' => this' = this /\ h' = h
  | _ => False
  end.
Proof.
  intros R Ro.
  pose proof (copy_assign_spec oth this h l lo R Ro) as S.
  unfold copy_assign in *.
  pose proof (copy_ctor_spec oth circular_buffer_ctor h lo Ro) as C.
  pose proof (copy_ctor_release oth circular_buffer_ctor h lo Ro) as Q.
  destruct (copy_ctor oth circular_buffer_ctor h) as [[] tmp h1 | e tmp h1 | | |];
    try contradiction.
  - destruct (transition_other _ _ _ _ _ _ _ C R (separate_ctor _ _ _ R)) as [R1 Hsep].
    destruct (transition_other _ _ _ _ _ _ _ C Ro (separate_ctor _ _ _ Ro)) as [Ro1 Hsepo].
    rewrite swap_eq in *. unfold leave_scope, destructor in *.
    rewrite (clear_repr _ _ _ R1) in *.
    destruct S as (R' & Hleak). split; [exact R' |]. split; [exact Hleak |].
    split; [| split].
    + rewrite (release_release (data tmp) (data this) h1). now rewrite Q.
    + intros b Hb. rewrite Hb. simpl. apply lookup_delete_eq.
    + intros Hso. split; [| exact Hsepo].
      apply (repr_frame _ h1); [exact Ro1 |].
      intros b Hb. unfold release.
      destruct (data this) as [| b0] eqn:Hd; [reflexivity |].
      simpl. apply lookup_delete_ne.
      destruct Hso as [Hn | Hn]; congruence.
  - split; [reflexivity | exact Q].
Qed.

(** ** [insert] and [erase] at a position *)

Lemma repr_with_storage this h l :
  repr this h l -> 0 < cap this -> exists b slots, allocated this h l b slots.
Proof.
  intros [[-> ->] | (b & slots & A)] Hc; [simpl in Hc; lia | eauto].
Qed.

(** X8.  [insert(pos, value)] with [pos] at logical position [k] of a
    container that holds [l] ([iter_at this k] is [begin() + k], and
    [begin()] itself on a container without storage) returns when [pos] is
    [begin()] or [end()], or when two slots are free, provided that copies
    succeed and that, for the one push [insert] calls, the allocator grants
    its growth and the object [v] the reference designates outlives it.
    The container then holds [l] with [v] inserted before index [k], its
    size is one more, and the iterator returned is [begin() + k] of the new
    state and dereferences to [v]. *)
Theorem insert_places_value (value : const_ref) (v : T) (this : circular_buffer)
    (h : heap T) (l : list T) (k : nat) :
  repr this h l -> (k <= length l)%nat ->
  (k = 0%nat \/ k = length l \/ sz this + 1 < cap this) ->
  forallb copy_ok l = true -> resolve value h = Some v -> copy_ok v = true ->
  (forall full, insert_growth (iter_at this (Z.of_nat k)) this = Some full ->
     outlives_growth value full this /\
     (forall n, growth full this = Some n -> grants n = true)) ->
  exists it this' h',
    insert (iter_at this (Z.of_nat k)) value this h = Return it this' h' /\
    repr this' h' (take k l ++ v :: drop k l) /\
    size this' = size this + 1 /\
    basic_iterator.plus (begin_ this') (Z.of_nat k) = Some it /\
    deref it this' h' = Return v this' h'.
Proof.
  intros R Hk Hcase Hall Hres Hv Hpush.
  destruct (delete_inserted l k v Hk) as (Hat & _ & _).
  destruct (insert_at value v this h l k R Hk Hcase Hall Hres Hv Hpush)
    as (this1 & h1 & E & R1).
  pose proof (repr_sz _ _ _ R) as Hsz. pose proof (repr_sz _ _ _ R1) as Hsz1.
  rewrite length_app, length_take in Hsz1. simpl in Hsz1. rewrite length_drop in Hsz1.
  destruct (repr_nonempty _ _ _ R1 ltac:(lia)) as (b1 & slots1 & A1).
  destruct (allocated_range _ _ _ _ _ A1) as (Hc1 & Hb1 & _ & Hroom1).
  exists (iter_at this1 (Z.of_nat k)), this1, h1.
  split; [exact E |]. split; [exact R1 |]. split; [unfold size; lia |]. split.
  - rewrite (begin_iter_at this1 Hb1), (plus_iter_at this1 0 _ Hc1 Hb1) by lia.
    reflexivity.
  - now apply (deref_iter_at _ _ _ b1 slots1 k v A1).
Qed.

(** X9.  [erase(pos)] with [pos = begin() + k] at a live element removes
    that element, provided that element copies succeed: it returns, the
    container holds the sequence without its [k]-th element, the size is one
    less, the capacity is unchanged and nothing is leaked.  The iterator
    returned is [begin() + k] of the new state, at the element that followed
    the erased one; it is [end()] when the only element was erased.  After
    erasing the last of several elements, however, [erase] returns
    [--end()], an iterator to the new last element, not [end()]. *)
Theorem erase_removes_element (this : circular_buffer) (h : heap T) (l : list T)
    (k : nat) (x : T) (pos : iterator) :
  repr this h l -> l !! k = Some x -> forallb copy_ok l = true ->
  basic_iterator.plus (begin_ this) (Z.of_nat k) = Some pos ->
  exists it this' h',
    erase pos this h = Return it this' h' /\
    repr this' h' (take k l ++ drop (S k) l) /\
    size this' = size this - 1 /\ cap this' = cap this /\ leaked h' = leaked h /\
    (forall y, l !! S k = Some y ->
       basic_iterator.plus (begin_ this') (Z.of_nat k) = Some it /\
       deref it this' h' = Return y this' h') /\
    (length l = 1%nat -> it = end_ this') /\
    (forall y, (0 < k)%nat -> S k = length l -> l !! (k - 1)%nat = Some y ->
       basic_iterator.decr (end_ this') = Some it /\
       basic_iterator.neqb it (end_ this') = true /\
       deref it this' h' = Return y this' h').
Proof.
  intros R Hx Hall Hpos. pose proof (lookup_lt_Some _ _ _ Hx) as Hk.
  pose proof (repr_sz _ _ _ R) as Hsz.
  destruct (repr_nonempty _ _ _ R ltac:(lia)) as (b & slots & A).
  destruct (allocated_range _ _ _ _ _ A) as (Hc & Hb & _ & Hroom).
  rewrite (begin_iter_at this Hb), (plus_iter_at this 0 _ Hc Hb) in Hpos by lia.
  simpl in Hpos. injection Hpos as <-.
  destruct (erase_at_iter this h l k x R Hx Hall) as (this' & h' & E & R' & Hcap & Hleak).
  destruct (delete_decompose l k x Hx) as [_ HlenL].
  pose proof (repr_sz _ _ _ R') as Hsz'.
  destruct (repr_with_storage _ _ _ R' ltac:(lia)) as (b' & slots' & A').
  destruct (allocated_range _ _ _ _ _ A') as (Hc' & Hb' & _ & Hroom').
  eexists _, this', h'. split; [exact E |]. split; [exact R' |].
  split; [unfold size; lia |]. split; [exact Hcap |]. split; [exact Hleak |].
  split; [| split].
  - intros y Hy. pose proof (lookup_lt_Some _ _ _ Hy) as HSk.
    destruct (Z.ltb_spec 0 (Z.of_nat k)); destruct (Z.eqb_spec (Z.of_nat k) (sz this - 1));
      simpl; try lia.
    all: rewrite (begin_iter_at this' Hb'), (plus_iter_at this' 0 _ Hc' Hb') by lia.
    all: split; [reflexivity |].
    all: apply (deref_iter_at _ _ _ b' slots' k y A').
    all: rewrite lookup_app_r by (rewrite length_take; lia).
    all: rewrite length_take, lookup_drop.
    all: now replace (S k + (k - k `min` length l))%nat with (S k) by lia.
  - intros Hone.
    destruct (Z.ltb_spec 0 (Z.of_nat k)); simpl; [lia |].
    rewrite (end_iter_at _ _ _ _ _ A'). f_equal. lia.
  - intros y Hk0 Hlast Hy.
    destruct (Z.ltb_spec 0 (Z.of_nat k)); destruct (Z.eqb_spec (Z.of_nat k) (sz this - 1));
      simpl; try lia.
    rewrite (end_iter_at _ _ _ _ _ A').
    replace (sz this') with (Z.of_nat k - 1 + 1) by lia.
    rewrite (decr_iter_at this' Hc' Hb') by lia. split; [reflexivity |]. split.
    + unfold basic_iterator.neqb. rewrite (eqb_iter_at this' Hc' Hb') by lia.
      destruct (Z.eqb_spec (Z.of_nat k - 1) (Z.of_nat k - 1 + 1)); [lia | reflexivity].
    + replace (Z.of_nat k - 1) with (Z.of_nat (k - 1)) by lia.
      apply (deref_iter_at _ _ _ b' slots' (k - 1) y A').
      rewrite lookup_app_l by (rewrite length_take; lia).
      now rewrite lookup_take_lt by lia.
Qed.

(** ** Element lifetimes in [insert] and [erase] *)

Lemma push_back_leaked value this h :
  wf this h -> after (fun _ h' => leaked h' = leaked h) (push_back value this h).
Proof.
  intros (l & R). pose proof (push_back_spec_ref value this h l R) as S.
  destruct (push_back value this h); try exact I; simpl.
  - destruct S as (v & Tr & _). apply Tr.
  - apply S.
Qed.

Lemma push_front_leaked value this h :
  wf this h -> after (fun _ h' => leaked h' = leaked h) (push_front value this h).
Proof.
  intros (l & R). pose proof (push_front_spec_ref value this h l R) as S.
  destruct (push_front value this h); try exact I; simpl.
  - destruct S as (v & Tr & _). apply Tr.
  - apply S.
Qed.

Lemma pop_back_leaked this h :
  wf this h -> after (fun this' h' => wf this' h' /\ leaked h' = leaked h) (pop_back this h).
Proof.
  intros (l & R). pose proof (repr_sz _ _ _ R) as Hsz.
  destruct l as [| x l0] using rev_ind.
  - rewrite pop_back_empty by (simpl in Hsz; lia). exact I.
  - destruct (pop_back_spec _ _ _ _ R) as (this' & h' & E & Tr & _).
    rewrite E. simpl. split; [eexists; apply Tr | apply Tr].
Qed.

Lemma pop_front_leaked this h :
  wf this h -> after (fun this' h' => wf this' h' /\ leaked h' = leaked h) (pop_front this h).
Proof.
  intros (l & R). pose proof (repr_sz _ _ _ R) as Hsz.
  destruct l as [| x l0].
  - rewrite pop_front_empty by (simpl in Hsz; lia). exact I.
  - destruct (pop_front_spec _ _ _ _ R) as (this' & h' & E & Tr & _).
    rewrite E. simpl. split; [eexists; apply Tr | apply Tr].
Qed.

(** An operation that keeps the leak count, followed by one that only
    exchanges values. *)
Lemma leaked_then_quiet {A} (first : M T unit) (tail : unit -> M T A) this h :
  after (fun _ h' => leaked h' = leaked h) (first this h) ->
  quiet (tail tt) ->
  after (fun _ h' => leaked h' = leaked h) ((first ≫= tail) this h).
Proof.
  intros Hf Hq. unfold mbind, M_bind, M_bind_def.
  destruct (first this h) as [[] this1 h1 | e this1 h1 | | |]; simpl in *; try exact I.
  - specialize (Hq this1 h1).
    destruct (tail tt this1 h1) as [a this2 h2 | e this2 h2 | | |]; simpl; try exact I.
    + destruct Hq as [_ [_ Hl]]. congruence.
    + destruct Hq as [_ [_ Hl]]. congruence.
  - exact Hf.
Qed.

Lemma quiet_pop_quiet_leaked {A B} (pre : M T A) (pop : M T unit)
    (tail : unit -> M T B) this h :
  wf this h -> quiet pre ->
  (forall this1 h1, wf this1 h1 ->
     after (fun this' h' => wf this' h' /\ leaked h' = leaked h1) (pop this1 h1)) ->
  quiet (tail tt) ->
  after (fun _ h' => leaked h' = leaked h) ((pre ≫= fun _ => pop ≫= tail) this h).
Proof.
  intros W Hpre Hpop Htail. unfold mbind, M_bind, M_bind_def.
  specialize (Hpre this h).
  destruct (pre this h) as [a this1 h1 | e this1 h1 | | |]; simpl; try exact I.
  - destruct Hpre as [-> [Hs Hl]].
    assert (W1 : wf this h1) by (eapply wf_same_shape; [exact W | now split]).
    specialize (Hpop this h1 W1).
    destruct (pop this h1) as [[] this2 h2 | e this2 h2 | | |]; simpl in *; try exact I.
    + destruct Hpop as [_ Hl2]. specialize (Htail this2 h2).
      destruct (tail tt this2 h2) as [c this3 h3 | e this3 h3 | | |]; simpl; try exact I.
      * destruct Htail as [_ [_ Hl3]]. congruence.
      * destruct Htail as [_ [_ Hl3]]. congruence.
    + destruct Hpop as [_ Hl2]. congruence.
  - destruct Hpre as [_ [_ Hl]]. exact Hl.
Qed.

(** X16.  [insert] and [erase] never leak an element.  On a well-formed
    container, for every iterator argument and every reference, whenever
    [insert] or [erase] comes to an end, by returning or by an exception of
    an allocation or of an element copy, every element whose lifetime has
    ended had its destructor run: the leak count of the heap is the one
    before the call. *)
Theorem insert_erase_keep_leak_count (this : circular_buffer) (h : heap T) :
  wf this h ->
  (forall pos value, after (fun _ h' => leaked h' = leaked h) (insert pos value this h)) /\
  (forall pos, after (fun _ h' => leaked h' = leaked h) (erase pos this h)).
Proof.
  intros W. split.
  - intros pos value. unfold insert. erewrite bind_Return by reflexivity.
    destruct (basic_iterator.eqb pos (begin_ this)).
    { apply leaked_then_quiet; [now apply push_front_leaked | solve_quiet]. }
    destruct (basic_iterator.eqb pos (end_ this)).
    { apply leaked_then_quiet; [now apply push_back_leaked | solve_quiet]. }
    unfold ub at 1.
    destruct (basic_iterator.get_pos pos) as [p |]; [| exact I].
    erewrite bind_Return by reflexivity.
    destruct (p <=? sz this / 2);
      (apply leaked_then_quiet;
       [first [now apply push_front_leaked | now apply push_back_leaked] | solve_quiet]).
  - intros pos. unfold erase. erewrite bind_Return by reflexivity.
    unfold ub at 1.
    destruct (basic_iterator.get_pos pos) as [p |]; [| exact I].
    erewrite bind_Return by reflexivity.
    unfold assert_ at 1.
    destruct (p <? sz this); [| exact I].
    erewrite bind_Return by reflexivity.
    assert (Hgen : forall A B (pre : M T A) (pop : M T unit) (tail : unit -> M T B),
              quiet pre -> pop = pop_front \/ pop = pop_back -> quiet (tail tt) ->
              after (fun _ h' => leaked h' = leaked h)
                ((pre ≫= fun _ => pop ≫= tail) this h)).
    { intros A B pre pop tail Hpre Hpop Htail.
      apply quiet_pop_quiet_leaked; try assumption.
      intros this1 h1 W1. destruct Hpop as [-> | ->];
        [now apply pop_front_leaked | now apply pop_back_leaked]. }
    destruct (basic_iterator.eqb pos (begin_ this)).
    { exact (Hgen unit _ (mret tt) pop_front
               (fun _ => this ← get_this; mret (begin_ this))
               (quiet_ret tt) (or_introl eq_refl) ltac:(solve_quiet)). }
    unfold ub at 1.
    destruct (basic_iterator.decr (end_ this)) as [last |]; [| exact I].
    erewrite bind_Return by reflexivity.
    destruct (basic_iterator.eqb pos last).
    { exact (Hgen unit _ (mret tt) pop_back
               (fun _ => this ← get_this; ub (basic_iterator.decr (end_ this)))
               (quiet_ret tt) (or_intror eq_refl) ltac:(solve_quiet)). }
    erewrite bind_Return by reflexivity.
    unfold ub at 1.
    destruct (size_rem (size_add p (ind_begin this)) (cap this)) as [m |]; [| exact I].
    erewrite bind_Return by reflexivity.
    destruct (p <=? sz this / 2).
    + apply Hgen; [solve_quiet | now left | solve_quiet].
    + unfold ub at 1.
      destruct (basic_iterator.plus _ 1) as [it2 |]; [| exact I].
      erewrite bind_Return by reflexivity.
      apply Hgen; [solve_quiet | now right | solve_quiet].
Qed.

(** ** Iterators across a pop *)

(** X17.  Iterators to the elements that remain survive a pop: the block is
    kept, so an iterator taken before the call still dereferences to its
    element.  After [pop_back] it is the iterator of the same logical
    position.  After [pop_front] it compares equal ([==]) to the iterator
    of the new state one position lower, but it carries the old
    [ind_begin]: its own [get_pos] still answers the old position, one more
    than that of the iterator it is equal to. *)
Theorem iterators_survive_pops (this : circular_buffer) (h : heap T) (l : list T)
    (k : nat) (v : T) :
  repr this h l -> l !! k = Some v ->
  ((S k < length l)%nat ->
   exists this' h',
     pop_back this h = Return tt this' h' /\
     iter_at this' (Z.of_nat k) = iter_at this (Z.of_nat k) /\
     deref (iter_at this (Z.of_nat k)) this' h' = Return v this' h') /\
  ((0 < k)%nat ->
   exists this' h',
     pop_front this h = Return tt this' h' /\
     deref (iter_at this (Z.of_nat k)) this' h' = Return v this' h' /\
     basic_iterator.eqb (iter_at this (Z.of_nat k)) (iter_at this' (Z.of_nat k - 1)) = true /\
     basic_iterator.get_pos (iter_at this (Z.of_nat k)) = Some (Z.of_nat k) /\
     basic_iterator.get_pos (iter_at this' (Z.of_nat k - 1)) = Some (Z.of_nat k - 1)).
Proof.
  intros R Hv. pose proof (lookup_lt_Some _ _ _ Hv) as Hk.
  pose proof (repr_sz _ _ _ R) as Hsz.
  destruct (repr_nonempty _ _ _ R ltac:(lia)) as (b & slots & A).
  destruct (allocated_range _ _ _ _ _ A) as (Hc & Hb & _ & Hroom).
  split.
  - intros HSk. destruct l as [| y l0] using rev_ind; [simpl in Hk; lia |]. clear IHl0.
    rewrite length_app in HSk. simpl in HSk.
    pose proof (pop_back_allocated this h l0 y b slots A) as P. cbv zeta in P.
    destruct P as [E A'].
    eexists _, _. split; [exact E |]. split; [reflexivity |].
    change (iter_at this (Z.of_nat k))
      with (iter_at (set_ind_end (physical_slot this (sz this - 1))
                       (set_sz (sz this - 1) this)) (Z.of_nat k)).
    apply (deref_iter_at _ _ _ _ _ k v A').
    rewrite lookup_app_l in Hv by lia. exact Hv.
  - intros Hk0. destruct l as [| y l0]; [simpl in Hk; lia |].
    destruct k as [| k']; [lia |]. simpl in Hv.
    pose proof (pop_front_allocated this h l0 y b slots A) as P. cbv zeta in P.
    destruct P as [E A'].
    set (this' := set_ind_begin (physical_slot this 1) (set_sz (sz this - 1) this)) in *.
    destruct (allocated_range _ _ _ _ _ A') as (Hc' & Hb' & Hsz' & Hroom').
    assert (Eind : physical_slot this (Z.of_nat (S k')) = physical_slot this' (Z.of_nat k')).
    { unfold this', set_ind_begin, set_sz, physical_slot. cbn [ind_begin cap].
      unfold physical_slot.
      rewrite Zplus_mod_idemp_l. f_equal. lia. }
    cbn [length] in Hk, Hsz.
    eexists _, _. split; [exact E |].
    replace (Z.of_nat (S k') - 1) with (Z.of_nat k') by lia.
    split; [| split; [| split]].
    + pose proof (deref_iter_at _ _ _ _ _ k' v A' Hv) as D.
      unfold deref, iter_at in *. simpl in *. rewrite Eind. exact D.
    + unfold basic_iterator.eqb, iter_at, ptr_eqb. simpl.
      rewrite Eind, Z.eqb_refl. now rewrite bool_decide_eq_true_2.
    + apply (get_pos_iter_at this Hc Hb). lia.
    + apply (get_pos_iter_at this' Hc' Hb'). lia.
Qed.

(** ** Reverse traversal *)

Lemma radvance_iter_at this (n : nat) : forall k : Z,
  0 < cap this <= PTRDIFF_MAX -> 0 <= ind_begin this < cap this ->
  Z.of_nat n <= k < cap this ->
  reverse_iterator.advance n (reverse_iterator.mk (iter_at this k))
  = Some (reverse_iterator.mk (iter_at this (k - Z.of_nat n))).
Proof.
  induction n as [| n IH]; intros k Hc Hb Hk.
  - simpl. now rewrite Z.sub_0_r.
  - cbn [reverse_iterator.advance]. unfold reverse_iterator.incr.
    cbn [reverse_iterator.current].
    replace k with (k - 1 + 1) at 1 by lia.
    rewrite (decr_iter_at this Hc Hb) by lia. simpl.
    rewrite IH by lia. f_equal. f_equal. f_equal. lia.
Qed.

(** X18.  A traversal with reverse iterators visits the sequence backwards:
    after [n] steps of [operator++] from [rbegin()], for [n] below the size,
    the reverse iterator differs from [rend()] and dereferences to the
    element of index [size - 1 - n]; after [size()] steps it is [rend()]. *)
Theorem reverse_traversal_visits_sequence (this : circular_buffer) (h : heap T)
    (l : list T) :
  repr this h l ->
  (forall (n : nat) v, l !! (length l - S n)%nat = Some v -> (n < length l)%nat ->
     exists r,
       reverse_iterator.advance n (rbegin this) = Some r /\
       reverse_iterator.neqb r (rend this) = true /\
       rderef r this h = Return v this h) /\
  reverse_iterator.advance (length l) (rbegin this) = Some (rend this).
Proof.
  intros [[-> ->] | (b & slots & A)].
  - split; [intros n v Hv; discriminate | reflexivity].
  - destruct (allocated_range _ _ _ _ _ A) as (Hc & Hb & Hsz & Hroom).
    unfold rbegin, rend.
    rewrite (end_iter_at _ _ _ _ _ A), (begin_iter_at this Hb). split.
    + intros n v Hv Hn.
      exists (reverse_iterator.mk (iter_at this (sz this - Z.of_nat n))).
      rewrite (radvance_iter_at this n (sz this) Hc Hb) by lia.
      split; [reflexivity |]. split.
      * unfold reverse_iterator.neqb, reverse_iterator.eqb. simpl.
        rewrite (eqb_iter_at this Hc Hb) by lia.
        destruct (Z.eqb_spec (sz this - Z.of_nat n) 0); [lia | reflexivity].
      * unfold rderef. cbn [reverse_iterator.current].
        replace (sz this - Z.of_nat n) with (Z.of_nat (length l - S n) + 1) by lia.
        erewrite bind_Return
          by (unfold ub; rewrite (decr_iter_at this Hc Hb) by lia; reflexivity).
        now apply (deref_iter_at _ _ l b slots).
    + rewrite (radvance_iter_at this (length l) (sz this) Hc Hb) by lia.
      f_equal. f_equal. f_equal. lia.
Qed.

End Proofs.

(** * Instances of the theorems *)


(** The example states represent what they are meant to hold, for every
    element type of four bytes, and the container reaches them. *)
Lemma wrapped_repr (elt : Element Z) :
  sizeof_T (Element := elt) = 4 -> repr (elt := elt) wrapped wrapped_heap [10; 20; 30].
Proof.
  intros Hs. right. exists 1%positive, [Some 20; Some 30; None; Some 10].
  constructor; simpl; try reflexivity; try lia.
  - rewrite Hs, PTRDIFF_MAX_eq. lia.
  - intros i Hi. destruct i as [| [| [| [| i]]]]; try reflexivity. lia.
Qed.

Lemma pair_repr (elt : Element Z) :
  sizeof_T (Element := elt) = 4 -> repr (elt := elt) pair pair_heap [20; 30].
Proof.
  intros Hs. right. exists 1%positive, [Some 20; Some 30; None; None].
  constructor; simpl; try reflexivity; try lia.
  - rewrite Hs, PTRDIFF_MAX_eq. lia.
  - intros i Hi. destruct i as [| [| [| [| i]]]]; try reflexivity. lia.
Qed.

Lemma wrapped_reachable :
  run (elt := int_element) (alloc := generous)
    [PushBack (given 20); PushBack (given 30); PushFront (given 10)] circular_buffer_ctor empty_heap
  = Return tt wrapped wrapped_heap.
Proof. vm_compute. reflexivity. Qed.

(** C1, at an input where the code misses the claim.  After
    [push_back(20)], [push_back(30)], [push_front(10)] the container holds
    [10; 20; 30] in a block of four slots.  For the next operation,
    [c.push_back(c[0])], the list model gives [10; 20; 30; 10].  The
    container is one slot from full, so [push_back] calls [reserve(8)],
    which destroys the elements and releases their block, and only then
    reads the reference [c[0]], which still points into that block: the
    behaviour is undefined. *)
Theorem push_back_own_element_undefined :
  run [PushBack (given 20); PushBack (given 30); PushFront (given 10)]
    circular_buffer_ctor empty_heap
  = Return tt wrapped wrapped_heap /\
  operator_idx_ref 0 wrapped wrapped_heap
  = Return (element_at (data wrapped) 3) wrapped wrapped_heap /\
  resolve (element_at (data wrapped) 3) wrapped_heap = Some 10 /\
  model_run [PushBack (given 20); PushBack (given 30); PushFront (given 10);
             PushBack (own_element 0)] []
  = Some [10; 20; 30; 10] /\
  push_back (element_at (data wrapped) 3) wrapped wrapped_heap = Undefined /\
  run [PushBack (given 20); PushBack (given 30); PushFront (given 10);
       PushBack (own_element 0)] circular_buffer_ctor empty_heap
  = Undefined.
Proof.
  split; [vm_compute; reflexivity |]. split; [vm_compute; reflexivity |].
  split; [reflexivity |]. split; [reflexivity |].
  split; vm_compute; reflexivity.
Qed.

Lemma invariant_1_preserved_witness :
  wf (elt := int_element) wrapped wrapped_heap /\
  invariant_1 wrapped /\
  completes (push_front (elt := int_element) (alloc := generous) (outside 5)
               wrapped wrapped_heap) /\
  keeps_invariant_1 (push_front (elt := int_element) (alloc := generous) (outside 5)
                       wrapped wrapped_heap) /\
  keeps_invariant_1 (erase (elt := int_element) (begin_ wrapped) wrapped wrapped_heap) /\
  keeps_invariant_1 (copy_assign (elt := int_element) (alloc := generous) wrapped wrapped wrapped_heap).
Proof.
  assert (W : wf (elt := int_element) wrapped wrapped_heap).
  { exists [10; 20; 30]. apply wrapped_repr. reflexivity. }
  split; [exact W |].
  destruct (invariant_1_preserved (elt := int_element) (alloc := generous)
              wrapped wrapped_heap W)
    as (I1 & _ & _ & Hpf & _ & _ & _ & Her & _ & _ & Hca).
  split; [exact I1 |].
  destruct (Hpf (outside 5)) as [Hc Hk].
  split; [apply Hc; [now exists 5 | now right] |].
  split; [exact Hk |]. split; [apply Her |]. now apply Hca.
Defined.

(** C4 as stated fails: after four [push_back] and four [pop_back] the
    container is empty with capacity 8, and the next [push_back] leaves it
    with capacity 4. *)
Lemma capacity_shrinks_counterexample :
  exists this h,
    run (elt := int_element) (alloc := generous)
      [PushBack (given 1); PushBack (given 2); PushBack (given 3); PushBack (given 4);
       PopBack; PopBack; PopBack; PopBack] circular_buffer_ctor empty_heap
    = Return tt this h /\
    cap this = 8 /\
    exists this' h',
      push_back (elt := int_element) (alloc := generous) (outside 5) this h
      = Return tt this' h' /\
      cap this' = 4 /\ cap this' < cap this.
Proof.
  eexists _, _. split; [vm_compute; reflexivity |]. split; [reflexivity |].
  eexists _, _. split; [vm_compute; reflexivity |]. split; [reflexivity | simpl; lia].
Qed.

Lemma capacity_after_operations_witness :
  wf (elt := int_element) wrapped wrapped_heap /\
  capacity_kept wrapped (pop_back wrapped wrapped_heap) /\
  capacity_after_push wrapped
    (push_back (elt := int_element) (alloc := generous) (outside 5) wrapped wrapped_heap).
Proof.
  assert (W : wf (elt := int_element) wrapped wrapped_heap).
  { exists [10; 20; 30]. apply wrapped_repr. reflexivity. }
  split; [exact W |].
  destruct (capacity_after_operations (elt := int_element) (alloc := generous)
              wrapped wrapped_heap W) as (Hpb & _ & _ & Hpush & _).
  split; [exact Hpb | apply Hpush].
Defined.

(** C5 as stated fails for [push_back]: on a new container [reserve(4)]
    leaves [ind_end = 0], and [push_back(7)] constructs the element in slot
    [0], the slot [ind_end] itself, while the slot just past [ind_end]
    stays unconstructed. *)
Lemma push_back_slot_counterexample :
  exists this1 h1 this' h',
    reserve (elt := int_element) (alloc := generous) 4 circular_buffer_ctor empty_heap
    = Return tt this1 h1 /\
    ind_end this1 = 0 /\ cap this1 = 4 /\
    push_back (elt := int_element) (alloc := generous) (outside 7)
      circular_buffer_ctor empty_heap
    = Return tt this' h' /\
    slot (data this') ((ind_end this1 + 1) mod cap this1) h' = Some None /\
    slot (data this') (ind_end this1) h' = Some (Some 7).
Proof.
  eexists _, _, _, _. split; [vm_compute; reflexivity |].
  split; [reflexivity |]. split; [reflexivity |].
  split; [vm_compute; reflexivity |]. split; reflexivity.
Qed.

Lemma push_growth_and_placement_witness :
  repr (elt := int_element) wrapped wrapped_heap [10; 20; 30] /\
  exists this1 h1,
    reserve (elt := int_element) (alloc := generous) 8 wrapped wrapped_heap
    = Return tt this1 h1 /\
    push_back (elt := int_element) (alloc := generous) (outside 7) wrapped wrapped_heap
    = Return tt
        (mk_circular_buffer (sz this1 + 1) (cap this1) (data this1) (ind_begin this1)
           ((ind_end this1 + 1) mod cap this1))
        (set_slot (data this1) (ind_end this1) (Some 7) h1).
Proof.
  split; [apply wrapped_repr; reflexivity |].
  eexists _, _. split; [vm_compute; reflexivity |].
  apply (push_growth_and_placement (elt := int_element) (alloc := generous)
           (outside 7) 7 wrapped wrapped_heap [10; 20; 30]).
  - apply wrapped_repr. reflexivity.
  - reflexivity.
  - reflexivity.
  - vm_compute. reflexivity.
  - now right.
Defined.

Lemma unlucky_repr (elt : Element Z) :
  sizeof_T (Element := elt) = 4 -> repr (elt := elt) wrapped unlucky_heap [10; 13; 30].
Proof.
  intros Hs. right. exists 1%positive, [Some 13; Some 30; None; Some 10].
  constructor; simpl; try reflexivity; try lia.
  - rewrite Hs, PTRDIFF_MAX_eq. lia.
  - intros i Hi. destruct i as [| [| [| [| i]]]]; try reflexivity. lia.
Qed.

(** The copy of [13] throws while [reserve] migrates the elements: the
    push throws, object and heap are what they were, also when the push is
    given the element [c[0]] of the container.  With an allocator that
    grants 24 bytes and refuses 32, [insert(end(), 7)] calls [push_back],
    which asks for 32: it throws [std::bad_alloc]. *)
Lemma growth_failure_leaves_state_witness :
  repr (elt := fragile_element) wrapped unlucky_heap [10; 13; 30] /\
  repr (elt := int_element) wrapped wrapped_heap [10; 20; 30] /\
  push_back (elt := fragile_element) (alloc := generous) (element_at (data wrapped) 3)
    wrapped unlucky_heap
  = Throw copy_failure wrapped unlucky_heap /\
  insert (elt := int_element) (alloc := narrow) (end_ wrapped) (outside 7)
    wrapped wrapped_heap
  = Throw bad_alloc wrapped wrapped_heap.
Proof.
  split; [apply unlucky_repr; reflexivity |].
  split; [apply wrapped_repr; reflexivity |]. split.
  - destruct (growth_failure_leaves_state (elt := fragile_element) (alloc := generous)
                wrapped unlucky_heap [10; 13; 30] (unlucky_repr fragile_element eq_refl))
      as (_ & Hb & _).
    destruct (Hb (element_at (data wrapped) 3) eq_refl) as (n & Hn & E).
    injection Hn as <-. exact E.
  - destruct (growth_failure_leaves_state (elt := int_element) (alloc := narrow)
                wrapped wrapped_heap [10; 20; 30] (wrapped_repr int_element eq_refl))
      as (_ & _ & _ & Hi).
    destruct (Hi (end_ wrapped) (outside 7) (2 * cap wrapped) eq_refl eq_refl)
      as (n & Hn & E).
    injection Hn as <-. exact E.
Defined.

(** The allocator refuses the 32 bytes of the new block: [std::bad_alloc]
    reaches the caller, object and heap are what they were. *)
Example push_back_bad_alloc :
  push_back (elt := int_element) (alloc := tight) (outside 7) wrapped wrapped_heap
  = Throw bad_alloc wrapped wrapped_heap.
Proof. vm_compute. reflexivity. Qed.

Example push_back_copy_failure :
  push_back (elt := fragile_element) (alloc := generous) (outside 7) wrapped unlucky_heap
  = Throw copy_failure wrapped unlucky_heap.
Proof. vm_compute. reflexivity. Qed.

(** [second] comes after [first] in the sequence although its physical
    index is the smaller one. *)
Lemma iterator_order_by_logical_position_witness :
  basic_iterator.valid first /\ basic_iterator.valid second /\
  basic_iterator.ind second < basic_iterator.ind first /\
  basic_iterator.ltb first second = Some true /\
  basic_iterator.diff second first = Some 1.
Proof.
  assert (V1 : basic_iterator.valid first).
  { unfold basic_iterator.valid. rewrite PTRDIFF_MAX_eq. simpl. lia. }
  assert (V2 : basic_iterator.valid second).
  { unfold basic_iterator.valid. rewrite PTRDIFF_MAX_eq. simpl. lia. }
  split; [exact V1 |]. split; [exact V2 |]. split; [simpl; lia |].
  destruct (iterator_order_by_logical_position first second V1 V2 eq_refl eq_refl)
    as (_ & Hlt & _).
  destruct (iterator_order_by_logical_position second first V2 V1 eq_refl eq_refl)
    as (_ & _ & Hd).
  split; [exact Hlt | exact Hd].
Defined.

Lemma swap_exchanges_states_witness :
  swap wrapped circular_buffer_ctor = (circular_buffer_ctor, wrapped) /\
  repr (fst (swap wrapped circular_buffer_ctor)) wrapped_heap [] /\
  repr (snd (swap wrapped circular_buffer_ctor)) wrapped_heap [10; 20; 30].
Proof.
  destruct (swap_exchanges_states (elt := int_element) wrapped circular_buffer_ctor
              wrapped_heap [10; 20; 30] []) as (E & _ & H).
  split; [exact E |]. apply H.
  - apply wrapped_repr. reflexivity.
  - now left.
Defined.

Lemma clear_resets_witness :
  repr wrapped wrapped_heap [10; 20; 30] /\
  clear wrapped wrapped_heap
  = Return tt circular_buffer_ctor (release (data wrapped) wrapped_heap) /\
  blocks (release (data wrapped) wrapped_heap) = ∅ /\
  leaked (release (data wrapped) wrapped_heap) = 0%nat.
Proof.
  split; [apply wrapped_repr; reflexivity |].
  destruct (clear_resets (elt := int_element) (alloc := generous)
              wrapped wrapped_heap [10; 20; 30] (outside 7) 7) as (E & _ & L & _).
  - apply wrapped_repr. reflexivity.
  - split; [exact E |]. split; [vm_compute; reflexivity | exact L].
Defined.

(** C3, at an input where the code misses the claim.  The container holds
    [10; 20; 30] in a block of four slots; [second] is its iterator
    [begin() + 1].  [insert(second, 99)] calls [push_front], which
    reallocates; [second] still points into the old block, so the loop that
    runs until [it2 == second] walks past the live elements: it never
    returns an iterator that [erase] could take. *)
Theorem insert_interior_full_undefined :
  run [PushBack (given 20); PushBack (given 30); PushFront (given 10)] circular_buffer_ctor empty_heap
  = Return tt wrapped wrapped_heap /\
  basic_iterator.plus (begin_ wrapped) 1 = Some second /\
  insert second (outside 99) wrapped wrapped_heap = Undefined.
Proof.
  split; [vm_compute; reflexivity |]. split; vm_compute; reflexivity.
Qed.

(** ** Instances of the further properties *)

Lemma first_valid : basic_iterator.valid first.
Proof. unfold basic_iterator.valid. rewrite PTRDIFF_MAX_eq. simpl. lia. Qed.

Lemma second_valid : basic_iterator.valid second.
Proof. unfold basic_iterator.valid. rewrite PTRDIFF_MAX_eq. simpl. lia. Qed.

(** Two steps forward from physical index 3 in a ring of four slots lead to
    index 1, and two steps back from there to index 3 again. *)
Lemma iterator_plus_minus_inverse_witness :
  basic_iterator.valid first /\
  exists a',
    basic_iterator.plus first 2 = Some a' /\ basic_iterator.ind a' = 1 /\
    basic_iterator.get_pos a' = Some 2 /\ basic_iterator.minus a' 2 = Some first.
Proof.
  split; [exact first_valid |].
  destruct (iterator_plus_minus_inverse first 2 first_valid ltac:(simpl; lia))
    as ((a' & Hp & _ & Hg & Hm) & _).
  exists a'. split; [exact Hp |]. split; [| split; [exact Hg | exact Hm]].
  vm_compute in Hp. now injection Hp as <-.
Defined.

Lemma iterator_comparisons_witness :
  basic_iterator.valid first /\ basic_iterator.valid second /\
  basic_iterator.eqb first second = false /\
  basic_iterator.leb first second = Some true /\
  basic_iterator.gtb first second = Some false /\
  basic_iterator.geb second first = Some true.
Proof.
  split; [exact first_valid |]. split; [exact second_valid |].
  destruct (iterator_comparisons first second first_valid second_valid
              eq_refl eq_refl eq_refl) as (E & _ & L & G & _).
  destruct (iterator_comparisons second first second_valid first_valid
              eq_refl eq_refl eq_refl) as (_ & _ & _ & _ & Ge).
  split; [exact E |]. split; [exact L |]. split; [exact G | exact Ge].
Defined.

Lemma begin_end_span_witness :
  repr wrapped wrapped_heap [10; 20; 30] /\
  basic_iterator.diff (end_ wrapped) (begin_ wrapped) = Some 3 /\
  basic_iterator.plus (begin_ wrapped) 3 = Some (end_ wrapped).
Proof.
  split; [apply wrapped_repr; reflexivity |].
  destruct (begin_end_span (elt := int_element) wrapped wrapped_heap [10; 20; 30]
              (wrapped_repr int_element eq_refl)) as (_ & _ & H).
  destruct (H ltac:(simpl; lia)) as (D & P & _).
  split; [exact D | exact P].
Defined.

Lemma element_access_witness :
  repr wrapped wrapped_heap [10; 20; 30] /\
  operator_idx 1 wrapped wrapped_heap = Return 20 wrapped wrapped_heap /\
  front wrapped wrapped_heap = Return 10 wrapped wrapped_heap /\
  back wrapped wrapped_heap = Return 30 wrapped wrapped_heap /\
  deref second wrapped wrapped_heap = Return 20 wrapped wrapped_heap.
Proof.
  split; [apply wrapped_repr; reflexivity |].
  destruct (element_access (elt := int_element) wrapped wrapped_heap [10; 20; 30]
              (wrapped_repr int_element eq_refl)) as (Hi & Hf & Hb).
  destruct (Hi 1%nat 20 eq_refl) as (Ho & it & Hp & _ & Hd).
  split; [exact Ho |]. split; [apply (Hf 10 eq_refl) |]. split; [apply (Hb 30 eq_refl) |].
  vm_compute in Hp. injection Hp as <-. exact Hd.
Defined.

Lemma traversal_visits_sequence_witness :
  repr wrapped wrapped_heap [10; 20; 30] /\
  basic_iterator.advance 3 (begin_ wrapped) = Some (end_ wrapped) /\
  exists it,
    basic_iterator.advance 2 (begin_ wrapped) = Some it /\
    basic_iterator.neqb it (end_ wrapped) = true /\
    deref it wrapped wrapped_heap = Return 30 wrapped wrapped_heap.
Proof.
  split; [apply wrapped_repr; reflexivity |].
  destruct (traversal_visits_sequence (elt := int_element) wrapped wrapped_heap
              [10; 20; 30] (wrapped_repr int_element eq_refl)) as (Hn & He).
  split; [exact He | exact (Hn 2%nat 30 eq_refl)].
Defined.

Lemma generous_grants n : 4 <= n <= 1000 -> grants (elt := int_element) n = true.
Proof.
  intros Hn. unfold grants. simpl. rewrite PTRDIFF_MAX_eq.
  apply andb_true_intro. split; [apply Z.leb_le; lia | reflexivity].
Qed.

Lemma reserve_compacts_witness :
  repr wrapped wrapped_heap [10; 20; 30] /\
  exists b h',
    reserve (elt := int_element) (alloc := generous) 8 wrapped wrapped_heap
    = Return tt (mk_circular_buffer 3 8 (Block b) 0 3) h' /\
    repr (mk_circular_buffer 3 8 (Block b) 0 3) h' [10; 20; 30] /\
    slot (Block b) 0 h' = Some (Some 10) /\
    release (Block b) h' = release (data wrapped) wrapped_heap.
Proof.
  split; [apply wrapped_repr; reflexivity |].
  destruct (reserve_compacts (elt := int_element) (alloc := generous) 8
              wrapped wrapped_heap [10; 20; 30] (wrapped_repr int_element eq_refl)) as (_ & H).
  destruct (H ltac:(simpl; lia) ltac:(lia) (generous_grants 8 ltac:(lia)) eq_refl)
    as (b & h' & E & _ & R & Hs & _ & Q).
  exists b, h'. split; [exact E |]. split; [exact R |].
  split; [exact (Hs 0%nat ltac:(simpl; lia)) | exact Q].
Defined.

(** Copying [13] throws: [push_back(13)] on the full container [wrapped]
    grows to capacity 8 first and throws then; the sequence is the same,
    the capacity is not. *)
Lemma push_value_copy_failure_witness :
  repr (elt := fragile_element) wrapped wrapped_heap [10; 20; 30] /\
  exists e this' h',
    push_back (elt := fragile_element) (alloc := generous) (outside 13)
      wrapped wrapped_heap
    = Throw e this' h' /\
    repr (elt := fragile_element) this' h' [10; 20; 30] /\
    leaked h' = leaked wrapped_heap /\ cap this' = 8.
Proof.
  split; [apply wrapped_repr; reflexivity |].
  destruct (push_value_copy_failure (elt := fragile_element) (alloc := generous)
              (outside 13) 13 wrapped wrapped_heap [10; 20; 30]
              (wrapped_repr fragile_element eq_refl) eq_refl eq_refl)
    as ((e & this' & h' & E & R & Hl & _) & _).
  exists e, this', h'. split; [exact E |]. split; [exact R |]. split; [exact Hl |].
  vm_compute in E. now injection E as _ <- _.
Defined.

(** [c.push_back(c[0])] on [20; 30] with two free slots is
    [c.push_back(20)]; on the full container [wrapped] it is undefined. *)
Lemma push_own_element_witness :
  repr pair pair_heap [20; 30] /\
  repr wrapped wrapped_heap [10; 20; 30] /\
  (exists value,
     operator_idx_ref 0 pair pair_heap = Return value pair pair_heap /\
     push_back (elt := int_element) (alloc := generous) value pair pair_heap
     = push_back (elt := int_element) (alloc := generous) (outside 20) pair pair_heap) /\
  (exists value,
     operator_idx_ref 0 wrapped wrapped_heap = Return value wrapped wrapped_heap /\
     push_back (elt := int_element) (alloc := generous) value wrapped wrapped_heap
     = Undefined).
Proof.
  split; [apply pair_repr; reflexivity |].
  split; [apply wrapped_repr; reflexivity |]. split.
  - destruct (push_own_element (elt := int_element) (alloc := generous)
                pair pair_heap [20; 30] 0 20 (pair_repr int_element eq_refl) eq_refl)
      as (value & E & _ & Hb & _).
    exists value. split; [exact E | exact (Hb eq_refl)].
  - destruct (push_own_element (elt := int_element) (alloc := generous)
                wrapped wrapped_heap [10; 20; 30] 0 10
                (wrapped_repr int_element eq_refl) eq_refl)
      as (value & E & _ & _ & _ & Hb & _).
    exists value. split; [exact E | exact (Hb 8 eq_refl)].
Defined.

(** With the allocator that grants 24 bytes and refuses 32,
    [insert(begin(), 7)] on the full container [wrapped] returns: it calls
    [push_front], which asks for six elements. *)
Lemma insert_places_value_witness :
  repr wrapped wrapped_heap [10; 20; 30] /\
  exists it this' h',
    insert (elt := int_element) (alloc := narrow) (iter_at wrapped 0) (outside 7)
      wrapped wrapped_heap
    = Return it this' h' /\
    repr this' h' [7; 10; 20; 30] /\
    basic_iterator.plus (begin_ this') 0 = Some it /\
    deref it this' h' = Return 7 this' h'.
Proof.
  split; [apply wrapped_repr; reflexivity |].
  destruct (insert_places_value (elt := int_element) (alloc := narrow) (outside 7) 7
              wrapped wrapped_heap [10; 20; 30] 0 (wrapped_repr int_element eq_refl))
    as (it & this' & h' & E & R & _ & Hp & Hd).
  - simpl. lia.
  - now left.
  - reflexivity.
  - reflexivity.
  - reflexivity.
  - intros full Hfull. injection Hfull as <-. split; [now right |].
    intros n Hn. injection Hn as <-. reflexivity.
  - exists it, this', h'. split; [exact E |]. split; [exact R |].
    split; [exact Hp | exact Hd].
Defined.

(** Erasing [20] from [10; 20; 30] returns an iterator to [30]; erasing
    [30] returns an iterator to [20], the new last element. *)
Lemma erase_removes_element_witness :
  repr wrapped wrapped_heap [10; 20; 30] /\
  (exists it this' h',
     erase (elt := int_element) second wrapped wrapped_heap = Return it this' h' /\
     repr this' h' [10; 30] /\ cap this' = 4 /\
     deref it this' h' = Return 30 this' h') /\
  (exists pos it this' h',
     basic_iterator.plus (begin_ wrapped) 2 = Some pos /\
     erase (elt := int_element) pos wrapped wrapped_heap = Return it this' h' /\
     repr this' h' [10; 20] /\
     basic_iterator.neqb it (end_ this') = true /\
     deref it this' h' = Return 20 this' h').
Proof.
  split; [apply wrapped_repr; reflexivity |]. split.
  - destruct (erase_removes_element (elt := int_element) wrapped wrapped_heap
                [10; 20; 30] 1 20 second (wrapped_repr int_element eq_refl) eq_refl eq_refl eq_refl)
      as (it & this' & h' & E & R & _ & Hc & _ & Hn & _).
    exists it, this', h'. split; [exact E |]. split; [exact R |]. split; [exact Hc |].
    apply (Hn 30 eq_refl).
  - destruct (erase_removes_element (elt := int_element) wrapped wrapped_heap
                [10; 20; 30] 2 30 (basic_iterator.mk 1 4 (Block 1) 3)
                (wrapped_repr int_element eq_refl) eq_refl eq_refl eq_refl)
      as (it & this' & h' & E & R & _ & _ & _ & _ & _ & Hlast).
    destruct (Hlast 20 ltac:(lia) eq_refl eq_refl) as (_ & Hne & Hd).
    exists (basic_iterator.mk 1 4 (Block 1) 3), it, this', h'.
    split; [reflexivity |]. split; [exact E |]. split; [exact R |].
    split; [exact Hne | exact Hd].
Defined.

(** [c.insert(c.begin() + 1, c[0])] on [20; 30], then [erase]. *)
Lemma insert_erase_round_trip_witness :
  repr pair pair_heap [20; 30] /\
  exists it this1 h1 it' this2 h2,
    insert (elt := int_element) (alloc := generous) (iter_at pair 1)
      (element_at (data pair) 0) pair pair_heap
    = Return it this1 h1 /\
    repr this1 h1 [20; 20; 30] /\
    erase it this1 h1 = Return it' this2 h2 /\
    repr this2 h2 [20; 30].
Proof.
  split; [apply pair_repr; reflexivity |].
  destruct (insert_erase_round_trip (elt := int_element) (alloc := generous)
              (element_at (data pair) 0) 20
              pair pair_heap [20; 30] 1 (pair_repr int_element eq_refl))
    as (it & this1 & h1 & it' & this2 & h2 & E1 & E2 & R2).
  - simpl. lia.
  - right; right. simpl. lia.
  - reflexivity.
  - reflexivity.
  - reflexivity.
  - intros full Hfull. split; [now left |]. intros n Hn. discriminate Hn.
  - exists it, this1, h1, it', this2, h2. split; [exact E1 |].
    split; [| split; [exact E2 | exact R2]].
    vm_compute in E1. injection E1 as _ <- <-.
    right. exists 1%positive, [Some 20; Some 30; None; Some 20].
    constructor; simpl; try reflexivity; try lia.
    + rewrite PTRDIFF_MAX_eq. lia.
    + intros i Hi. destruct i as [| [| [| [| i]]]]; try reflexivity. lia.
Defined.

Lemma insert_full_interior_never_returns_witness :
  repr wrapped wrapped_heap [10; 20; 30] /\
  sz wrapped = cap wrapped - 1 /\
  forall it this' h',
    insert (elt := int_element) (alloc := generous) second (outside 99)
      wrapped wrapped_heap
    <> Return it this' h'.
Proof.
  split; [apply wrapped_repr; reflexivity |]. split; [reflexivity |].
  apply (insert_full_interior_never_returns (elt := int_element) (alloc := generous)
           second (outside 99) wrapped wrapped_heap [10; 20; 30]
           (wrapped_repr int_element eq_refl)).
  - simpl. lia.
  - reflexivity.
  - reflexivity.
  - reflexivity.
  - reflexivity.
Defined.

Lemma copy_constructor_copies_witness :
  repr wrapped wrapped_heap [10; 20; 30] /\
  exists this' h',
    copy_ctor (elt := int_element) (alloc := generous) wrapped circular_buffer_ctor
      wrapped_heap
    = Return tt this' h' /\
    repr this' h' [10; 20; 30] /\ repr wrapped h' [10; 20; 30] /\
    data this' <> data wrapped /\ release (data this') h' = wrapped_heap.
Proof.
  split; [apply wrapped_repr; reflexivity |].
  pose proof (copy_constructor_copies (elt := int_element) (alloc := generous)
                wrapped circular_buffer_ctor wrapped_heap [10; 20; 30]
                (wrapped_repr int_element eq_refl)) as P.
  destruct (copy_ctor wrapped circular_buffer_ctor wrapped_heap)
    as [[] this' h' | e this' h' | | |] eqn:E;
    try contradiction; [| vm_compute in E; discriminate E].
  destruct P as (R & Ro & Hsep & _ & Q & _).
  exists this', h'. split; [reflexivity |]. split; [exact R |]. split; [exact Ro |].
  split; [| exact Q].
  destruct Hsep as [Hn | Hn]; [discriminate Hn | congruence].
Defined.

(** Self-assignment: the container holds the same sequence in a new block,
    the old block is gone. *)
Lemma copy_assignment_replaces_witness :
  repr wrapped wrapped_heap [10; 20; 30] /\
  exists this' h',
    copy_assign (elt := int_element) (alloc := generous) wrapped wrapped wrapped_heap
    = Return tt this' h' /\
    repr this' h' [10; 20; 30] /\ blocks h' !! 1%positive = None /\
    leaked h' = 0%nat.
Proof.
  split; [apply wrapped_repr; reflexivity |].
  pose proof (copy_assignment_replaces (elt := int_element) (alloc := generous)
                wrapped wrapped wrapped_heap [10; 20; 30] [10; 20; 30]
                (wrapped_repr int_element eq_refl) (wrapped_repr int_element eq_refl)) as P.
  destruct (copy_assign wrapped wrapped wrapped_heap)
    as [[] this' h' | e this' h' | | |] eqn:E;
    try contradiction; [| vm_compute in E; discriminate E].
  destruct P as (R & Hl & _ & Hb & _).
  exists this', h'. split; [reflexivity |]. split; [exact R |].
  split; [exact (Hb 1%positive eq_refl) | exact Hl].
Defined.

Lemma insert_erase_keep_leak_count_witness :
  wf (elt := int_element) wrapped wrapped_heap /\
  after (fun _ h' => leaked h' = leaked wrapped_heap)
    (insert (elt := int_element) (alloc := generous) (begin_ wrapped) (outside 5)
       wrapped wrapped_heap) /\
  after (fun _ h' => leaked h' = leaked wrapped_heap)
    (erase (elt := int_element) second wrapped wrapped_heap).
Proof.
  assert (W : wf (elt := int_element) wrapped wrapped_heap).
  { exists [10; 20; 30]. apply wrapped_repr. reflexivity. }
  split; [exact W |].
  destruct (insert_erase_keep_leak_count (elt := int_element) (alloc := generous)
              wrapped wrapped_heap W) as (Hi & He).
  split; [apply Hi | apply He].
Defined.

(** A whole life: three pushes, a pop, the destructor; the heap is the one
    the container started in. *)
Example lifetime_example :
  exists this' h',
    run (elt := int_element) (alloc := generous)
      [PushBack (given 20); PushBack (given 30); PushFront (given 10); PopBack] circular_buffer_ctor empty_heap
    = Return tt this' h' /\
    destructor this' h' = Return tt circular_buffer_ctor empty_heap.
Proof.
  eexists _, _. split; [vm_compute; reflexivity | vm_compute; reflexivity].
Qed.

(** [second] is the iterator to [20] in [10; 20; 30].  After [pop_front]
    it still reads [20] and equals the new [begin()], whose position is 0,
    while its own [get_pos] answers 1. *)
Lemma iterators_survive_pops_witness :
  repr wrapped wrapped_heap [10; 20; 30] /\
  iter_at wrapped 1 = second /\
  exists this' h',
    pop_front (T := Z) wrapped wrapped_heap = Return tt this' h' /\
    deref second this' h' = Return 20 this' h' /\
    basic_iterator.eqb second (begin_ this') = true /\
    basic_iterator.get_pos second = Some 1 /\
    basic_iterator.get_pos (begin_ this') = Some 0.
Proof.
  split; [apply wrapped_repr; reflexivity |]. split; [reflexivity |].
  destruct (iterators_survive_pops (elt := int_element) wrapped wrapped_heap
              [10; 20; 30] 1 20 (wrapped_repr int_element eq_refl) eq_refl)
    as (_ & H).
  destruct (H ltac:(lia)) as (this' & h' & E & D & Q & G & G').
  exists this', h'. split; [exact E |]. split; [exact D |].
  assert (Eb : iter_at this' (Z.of_nat 1 - 1) = begin_ this').
  { vm_compute in E. injection E as <- _. reflexivity. }
  rewrite Eb in Q, G'. split; [exact Q |]. split; [exact G | exact G'].
Defined.

Lemma reverse_traversal_visits_sequence_witness :
  repr wrapped wrapped_heap [10; 20; 30] /\
  rderef (rbegin wrapped) wrapped wrapped_heap = Return 30 wrapped wrapped_heap /\
  reverse_iterator.advance 3 (rbegin wrapped) = Some (rend wrapped) /\
  exists r,
    reverse_iterator.advance 2 (rbegin wrapped) = Some r /\
    reverse_iterator.neqb r (rend wrapped) = true /\
    rderef r wrapped wrapped_heap = Return 10 wrapped wrapped_heap.
Proof.
  split; [apply wrapped_repr; reflexivity |].
  destruct (reverse_traversal_visits_sequence (elt := int_element) wrapped wrapped_heap
              [10; 20; 30] (wrapped_repr int_element eq_refl)) as (Hn & He).
  destruct (Hn 0%nat 30 eq_refl ltac:(simpl; lia)) as (r0 & E0 & _ & D0).
  injection E0 as <-.
  split; [exact D0 |]. split; [exact He |].
  exact (Hn 2%nat 10 eq_refl ltac:(simpl; lia)).
Defined.
